(** * A text macro preprocessor: the expansion engine of [proj1.c]

    The repository holds several revisions of one C program.  The properties
    proved here are about two of them, each embedded in a module named after
    its directory:

    - [Submission]  : [submission/proj1.c], first program of the file (global
      output buffer, [raise_error], [is_builtin], [skip_spaces]);
    - [Submission2] : [submission2/proj1.c], first program of the file (output
      through an [output_char_fn] callback, [readMacroName]).

    The second program of [submission/proj1.c] and the drafts under [src/]
    are not embedded.

    Conventions of the embedding.
    - A C string is the list of its characters before the terminating NUL;
      a [const char *] cursor into a string is the suffix it points at.
    - [malloc], [realloc] and [strdup] are assumed to succeed, so growable
      buffers are plain lists and capacities disappear.
    - The [int] that counts brace depth is an integer of [Z]: it leaves the
      range of [int] only on arguments with more than 2^31 nested braces.
    - [exit] ends the run: a computation either returns, exits with a status,
      or (when the recursion of the C code never ends) runs out of fuel.
    - The error stream is the list of the diagnostics printed, each of them
      one [fprintf] of a message and a newline.
    - [isalnum] and [isspace] are those of the "C" locale. *)

From Stdlib Require Import List Ascii String Bool Arith ZArith Lia.
Import ListNotations.

Local Open Scope char_scope.
Local Open Scope list_scope.

(** ** Characters and C strings *)

Definition text := list ascii.

Definition str (s : string) : text := list_ascii_of_string s.

Definition NUL : ascii := ascii_of_nat 0.
Definition newline : ascii := ascii_of_nat 10.
Definition tab : ascii := ascii_of_nat 9.

Definition isdigit (c : ascii) : bool :=
  ((48 <=? nat_of_ascii c) && (nat_of_ascii c <=? 57))%nat.

Definition isupper (c : ascii) : bool :=
  ((65 <=? nat_of_ascii c) && (nat_of_ascii c <=? 90))%nat.

Definition islower (c : ascii) : bool :=
  ((97 <=? nat_of_ascii c) && (nat_of_ascii c <=? 122))%nat.

Definition isalnum (c : ascii) : bool := isdigit c || isupper c || islower c.

(** space, and the control characters \t \n \v \f \r *)
Definition isspace (c : ascii) : bool :=
  ((nat_of_ascii c =? 32) || ((9 <=? nat_of_ascii c) && (nat_of_ascii c <=? 13)))%nat.

(** [strcmp(a, b) == 0] *)
Fixpoint streq (a b : text) : bool :=
  match a, b with
  | [], [] => true
  | x :: a', y :: b' => (x =? y) && streq a' b'
  | _, _ => false
  end.

(** The bytes of a buffer seen as a C string: everything before the first NUL. *)
Fixpoint c_str (bytes : text) : text :=
  match bytes with
  | [] => []
  | c :: rest => if c =? NUL then [] else c :: c_str rest
  end.

(** One of the "special five" [\ { } # %]. *)
Definition is_special (c : ascii) : bool :=
  (c =? "\") || (c =? "{") || (c =? "}") || (c =? "#") || (c =? "%").

Definition escape_alphabet : list ascii := ["\"; "{"; "}"; "#"; "%"].

(** The loops that check every character of a name with [isalnum]. *)
Definition all_alnum (s : text) : bool := forallb isalnum s.

(** ** The macro table: a singly linked list, newest entry first *)

Record Macro := mkMacro { name : text; value : text }.

Definition MacroTable := list Macro.

Definition init_macro_table : MacroTable := [].

Fixpoint lookup_macro (table : MacroTable) (nm : text) : option text :=
  match table with
  | [] => None
  | cur :: next =>
      if streq (name cur) nm then Some (value cur) else lookup_macro next nm
  end.

(** [undef_macro] unlinks the first entry called [nm]; [None] is the path that
    reaches the error after the loop. *)
Fixpoint unlink_macro (table : MacroTable) (nm : text) : option MacroTable :=
  match table with
  | [] => None
  | cur :: next =>
      if streq (name cur) nm then Some next
      else match unlink_macro next nm with
           | Some next' => Some (cur :: next')
           | None => None
           end
  end.

(** ** Diagnostics *)

(** Every [fprintf (stderr, ...)] of the two programs that does not report an
    allocation failure, with the arguments of its format. *)
Inductive diagnostic :=
| MacroAlreadyDefined (nm : text)   (* Error: Macro '%s' already defined *)
| CannotUndefine (nm : text)        (* Error: Cannot undefine '%s' - not defined *)
| MacroNotDefined (nm : text)       (* Error: Macro '%s' not defined *)
| MacroWithoutArgument (nm : text)  (* Error: Macro '%s' used without argument *)
| InvalidNameInDef                  (* Error: invalid macro name in \def *)
| InvalidUndefUsage                 (* Error: invalid \undef usage *)
| IfRequires3                       (* Error: \if requires 3 arguments *)
| IfdefRequires3                    (* Error: \ifdef requires 3 arguments *)
| InvalidNameInIfdef                (* Error: invalid macro name in \ifdef *)
| IncludeRequires1                  (* Error: \include requires 1 argument *)
| ExpandafterRequires2              (* Error: \expandafter requires 2 arguments *)
| UnbalancedBracesInArgument        (* Error: unbalanced braces in argument *)
| ExpectedBrace                     (* Error: expected '{' at start of macro argument *)
| CannotOpenFile (path : text).     (* Error: Cannot open file '%s' *)

(** The line each diagnostic prints (without the final newline). *)
Definition message (d : diagnostic) : text :=
  match d with
  | MacroAlreadyDefined nm => str "Error: Macro '" ++ nm ++ str "' already defined"
  | CannotUndefine nm => str "Error: Cannot undefine '" ++ nm ++ str "' - not defined"
  | MacroNotDefined nm => str "Error: Macro '" ++ nm ++ str "' not defined"
  | MacroWithoutArgument nm => str "Error: Macro '" ++ nm ++ str "' used without argument"
  | InvalidNameInDef => str "Error: invalid macro name in \def"
  | InvalidUndefUsage => str "Error: invalid \undef usage"
  | IfRequires3 => str "Error: \if requires 3 arguments"
  | IfdefRequires3 => str "Error: \ifdef requires 3 arguments"
  | InvalidNameInIfdef => str "Error: invalid macro name in \ifdef"
  | IncludeRequires1 => str "Error: \include requires 1 argument"
  | ExpandafterRequires2 => str "Error: \expandafter requires 2 arguments"
  | UnbalancedBracesInArgument => str "Error: unbalanced braces in argument"
  | ExpectedBrace => str "Error: expected '{' at start of macro argument"
  | CannotOpenFile path => str "Error: Cannot open file '" ++ path ++ str "'"
  end.

(** The error kinds of the specification, and the kind each diagnostic
    stands for. *)
Inductive error_kind :=
| DuplicateMacro | UndefinedMacro | InvalidMacroName
| UnbalancedBraces | MissingArgument | FileNotFound.

Definition kind_of (d : diagnostic) : error_kind :=
  match d with
  | MacroAlreadyDefined _ => DuplicateMacro
  | CannotUndefine _ | MacroNotDefined _ => UndefinedMacro
  | InvalidNameInDef | InvalidNameInIfdef => InvalidMacroName
  | UnbalancedBracesInArgument => UnbalancedBraces
  | MacroWithoutArgument _ | InvalidUndefUsage | IfRequires3 | IfdefRequires3
  | IncludeRequires1 | ExpandafterRequires2 | ExpectedBrace => MissingArgument
  | CannotOpenFile _ => FileNotFound
  end.

(** ** Computations that may return, exit, or never end *)

Section Outcome.
Variable W : Type.   (* everything the program can change *)

Inductive outcome (A : Type) :=
| Returns (a : A) (w : W)         (* the call returned [a] *)
| Exits (status : nat) (w : W)    (* [exit (status)] was called *)
| Diverges.                       (* the recursion did not end *)

Definition M (A : Type) := W -> outcome A.

Definition ret {A} (a : A) : M A := fun w => Returns A a w.

Definition bind {A B} (m : M A) (k : A -> M B) : M B :=
  fun w =>
    match m w with
    | Returns _ a w' => k a w'
    | Exits _ status w' => Exits B status w'
    | Diverges _ => Diverges B
    end.

Definition exit {A} (status : nat) : M A := fun w => Exits A status w.

Definition modify (f : W -> W) : M unit := fun w => Returns unit tt (f w).

Definition gets {A} (f : W -> A) : M A := fun w => Returns A (f w) w.

Definition diverge {A} : M A := fun _ => Diverges A.
End Outcome.

Arguments Returns {W A} a w.
Arguments Exits {W A} status w.
Arguments Diverges {W A}.
Arguments ret {W A} a _.
Arguments bind {W A B} m k _.
Arguments exit {W A} status _.
Arguments modify {W} f _.
Arguments gets {W A} f _.
Arguments diverge {W A} _.

Declare Scope run_scope.
Delimit Scope run_scope with run.
Notation "x <- m ;; k" := (bind m (fun x => k))
  (at level 100, m at next level, right associativity) : run_scope.
Notation "m ;; k" := (bind m (fun _ => k))
  (at level 100, right associativity) : run_scope.
Notation "' pat <- m ;; k" := (bind m (fun x => match x with pat => k end))
  (at level 100, pat pattern, m at next level, right associativity) : run_scope.

Definition EXIT_FAILURE : nat := 1.

(** ** Reading files and removing comments *)

(** Where the comment remover is in its nested [fgetc] loops. *)
Inductive reader :=
| Copying (prev : ascii)   (* the outer loop, [prev] the last character kept (NUL: none) *)
| InComment                (* skipping up to the newline *)
| AfterComment.            (* skipping blanks and tabs of the next line *)

(** An unescaped [%] starts a comment that runs to the end of the line and
    takes the newline and the blanks and tabs that open the next line. *)
Fixpoint remove_comments (st : reader) (bytes : text) : text :=
  match bytes with
  | [] => []
  | c :: rest =>
      match st with
      | Copying prev =>
          if (c =? "%") && negb (prev =? "\") then remove_comments InComment rest
          else c :: remove_comments (Copying c) rest
      | InComment =>
          if c =? newline then remove_comments AfterComment rest
          else remove_comments InComment rest
      | AfterComment =>
          if (c =? " ") || (c =? tab) then remove_comments AfterComment rest
          else if (c =? "%") then remove_comments InComment rest
          else c :: remove_comments (Copying c) rest
      end
  end.


(** ** Scanning helpers

    The two programs share these loops word for word: [skip_spaces] (inlined at
    the head of [readArg] in [submission2]), the loop that gathers a macro
    name ([readMacroName] in [submission2], inlined in [submission]) and the
    loop that instantiates the value of a user macro. *)

Fixpoint skip_spaces (p : text) : text :=
  match p with
  | c :: p' => if isspace c then skip_spaces p' else p
  | [] => []
  end.

Fixpoint readMacroName (p : text) : text * text :=
  match p with
  | c :: p' =>
      if isalnum c then let '(nm, p'') := readMacroName p' in (c :: nm, p'')
      else ([], p)
  | [] => ([], [])
  end.

(** The [while ( *m )] loop of the user-macro branch. *)
Fixpoint instantiate (m : text) (arg1 : text) : text :=
  match m with
  | [] => []
  | c :: m' =>
      if c =? "\" then
        match m' with
        | [] => ["\"]
        | next :: m'' =>
            if is_special next then next :: instantiate m'' arg1
            else "\" :: next :: instantiate m'' arg1
        end
      else if c =? "#" then arg1 ++ instantiate m' arg1
      else c :: instantiate m' arg1
  end.

(** ** [submission2/proj1.c] *)

Module Submission2.
Local Open Scope run_scope.

(** What a run can change: the macro table of [main] and the two streams. *)
Record world := mkWorld {
  table : MacroTable;
  stdout : text;
  stderr : list diagnostic   (* the diagnostics printed, oldest first *)
}.

Definition run := M world.

(** [fprintf (stderr, ...); exit (EXIT_FAILURE);] *)
Definition fail {A} (d : diagnostic) : run A :=
  modify (fun w => mkWorld (table w) (stdout w) (stderr w ++ [d])) ;;
  exit EXIT_FAILURE.

(** *** Macro table *)

Definition define_macro (nm val : text) : run unit :=
  tbl <- gets table ;;
  match lookup_macro tbl nm with
  | Some _ => fail (MacroAlreadyDefined nm)
  | None =>
      modify (fun w => mkWorld (mkMacro nm val :: table w) (stdout w) (stderr w))
  end.

Definition undef_macro (nm : text) : run unit :=
  tbl <- gets table ;;
  match unlink_macro tbl nm with
  | Some tbl' => modify (fun w => mkWorld tbl' (stdout w) (stderr w))
  | None => fail (CannotUndefine nm)
  end.

(** *** Output *)

(** An [output_char_fn] together with its [userdata]. *)
Inductive sink :=
| out_char_stdout                 (* [putchar], userdata [NULL] *)
| out_char_buffer (ob : text).    (* appends to the [OutputBuffer] behind userdata *)

Definition out_char (c : ascii) (sk : sink) : run sink :=
  match sk with
  | out_char_stdout =>
      modify (fun w => mkWorld (table w) (stdout w ++ [c]) (stderr w)) ;;
      ret out_char_stdout
  | out_char_buffer ob => ret (out_char_buffer (ob ++ [c]))
  end.

Definition combine_strings (s1 s2 : text) : text := s1 ++ s2.

(** *** readArg *)

(** The [while] loop of [readArg], guarded by the end of input and [braceDepth > 0]; the result is the cursor, the
    depth and the buffer when the loop is left. *)
Fixpoint readArg_loop (p : text) (braceDepth : Z) (escaped : bool) (buf : text)
  : text * Z * text :=
  match p with
  | [] => (p, braceDepth, buf)
  | c :: p' =>
      if (braceDepth >? 0)%Z then
        if negb escaped then
          if c =? "\" then readArg_loop p' braceDepth true (buf ++ [c])
          else if c =? "{" then readArg_loop p' (braceDepth + 1)%Z false (buf ++ [c])
          else if c =? "}" then
            if (braceDepth - 1 >? 0)%Z
            then readArg_loop p' (braceDepth - 1)%Z false (buf ++ [c])
            else readArg_loop p' (braceDepth - 1)%Z false buf
          else readArg_loop p' braceDepth false (buf ++ [c])
        else readArg_loop p' braceDepth false (buf ++ [c])
      else (p, braceDepth, buf)
  end.

(** Returns the argument ([None] for [NULL]) and the moved cursor. *)
Definition readArg (p : text) : run (option text * text) :=
  let p := skip_spaces p in
  match p with
  | "{" :: p' =>
      let '(p'', braceDepth, buf) := readArg_loop p' 1 false [] in
      if negb (braceDepth =? 0)%Z then fail UnbalancedBracesInArgument
      else ret (Some buf, p'')
  | _ => ret (None, p)
  end.

(** *** The expander *)

Section Files.
(** [fopen (path, "r")]: the bytes of the file, when it can be opened. *)
Variable fopen : text -> option text.

Definition read_included_file (path : text) : run text :=
  match fopen path with
  | None => fail (CannotOpenFile path)
  | Some bytes => ret (c_str (remove_comments (Copying NUL) bytes))
  end.

(** One call of [expand_text_impl], with [expand] for the calls it makes and
    for the next turn of its [while] loop. *)
Definition expand_text_step (expand : text -> sink -> run sink)
    (input : text) (sk : sink) : run sink :=
  match input with
  | [] => ret sk
  | c :: p =>
    if c =? "\" then
      match p with
      | [] => out_char "\" sk
      | c1 :: p1 =>
        if is_special c1 then
          sk <- out_char c1 sk ;; expand p1 sk
        else if isalnum c1 then
          let '(nameBuf, p) := readMacroName p in
          if streq nameBuf (str "def") then
            '(arg1, p) <- readArg p ;;
            '(arg2, p) <- readArg p ;;
            match arg1 with
            | None | Some [] => fail InvalidNameInDef
            | Some arg1 =>
                if negb (all_alnum arg1) then fail InvalidNameInDef
                else
                  define_macro arg1 (match arg2 with Some v => v | None => [] end) ;;
                  expand p sk
            end
          else if streq nameBuf (str "undef") then
            '(arg1, p) <- readArg p ;;
            match arg1 with
            | None => fail InvalidUndefUsage
            | Some arg1 => undef_macro arg1 ;; expand p sk
            end
          else if streq nameBuf (str "if") then
            '(condArg, p) <- readArg p ;;
            '(thenArg, p) <- readArg p ;;
            '(elseArg, p) <- readArg p ;;
            match condArg, thenArg, elseArg with
            | Some condArg, Some thenArg, Some elseArg =>
                let branch := match condArg with [] => elseArg | _ => thenArg end in
                sk <- expand branch sk ;;
                expand p sk
            | _, _, _ => fail IfRequires3
            end
          else if streq nameBuf (str "ifdef") then
            '(nameArg, p) <- readArg p ;;
            '(thenArg, p) <- readArg p ;;
            '(elseArg, p) <- readArg p ;;
            match nameArg, thenArg, elseArg with
            | Some nameArg, Some thenArg, Some elseArg =>
                if negb (all_alnum nameArg) then fail InvalidNameInIfdef
                else
                  tbl <- gets table ;;
                  let branch :=
                    match lookup_macro tbl nameArg with
                    | Some _ => thenArg
                    | None => elseArg
                    end in
                  sk <- expand branch sk ;;
                  expand p sk
            | _, _, _ => fail IfdefRequires3
            end
          else if streq nameBuf (str "include") then
            '(pathArg, p) <- readArg p ;;
            match pathArg with
            | None => fail IncludeRequires1
            | Some pathArg =>
                includedText <- read_included_file pathArg ;;
                sk <- expand includedText sk ;;
                expand p sk
            end
          else if streq nameBuf (str "expandafter") then
            '(beforeArg, p) <- readArg p ;;
            '(afterArg, p) <- readArg p ;;
            match beforeArg, afterArg with
            | Some beforeArg, Some afterArg =>
                (* expand_text_into_string (table, afterArg) *)
                ob <- expand afterArg (out_char_buffer []) ;;
                let expandedAfter :=
                  match ob with out_char_buffer buf => buf | out_char_stdout => [] end in
                let combined := combine_strings beforeArg expandedAfter in
                sk <- expand combined sk ;;
                expand p sk
            | _, _ => fail ExpandafterRequires2
            end
          else
            tbl <- gets table ;;
            match lookup_macro tbl nameBuf with
            | None => fail (MacroNotDefined nameBuf)
            | Some macroVal =>
                '(arg1, p) <- readArg p ;;
                match arg1 with
                | None => fail (MacroWithoutArgument nameBuf)
                | Some arg1 =>
                    let outBuf := instantiate macroVal arg1 in
                    sk <- expand outBuf sk ;;
                    expand p sk
                end
            end
        else
          sk <- out_char "\" sk ;;
          sk <- out_char c1 sk ;;
          expand p1 sk
      end
    else
      sk <- out_char c sk ;; expand p sk
  end.

(** [expand_text_impl]: every call and every turn of the loop uses one unit
    of [fuel]. *)
Fixpoint expand_text_impl (fuel : nat) (input : text) (sk : sink) : run sink :=
  match fuel with
  | O => diverge
  | S fuel' => expand_text_step (expand_text_impl fuel') input sk
  end.

Definition expand_text_into_string (fuel : nat) (input : text) : run text :=
  ob <- expand_text_impl fuel input (out_char_buffer []) ;;
  ret (match ob with out_char_buffer buf => buf | out_char_stdout => [] end).

(** [read_all_input_and_remove_comments]: standard input when no file is
    named, else the named files in order. *)
Fixpoint read_files (paths : list text) : run text :=
  match paths with
  | [] => ret []
  | path :: paths' =>
      match fopen path with
      | None => fail (CannotOpenFile path)
      | Some bytes =>
          rest <- read_files paths' ;;
          ret (remove_comments (Copying NUL) bytes ++ rest)
      end
  end.

Definition read_all_input_and_remove_comments (argv : list text) (stdin : text)
  : run text :=
  match argv with
  | [] => ret (c_str (remove_comments (Copying NUL) stdin))
  | _ => buffer <- read_files argv ;; ret (c_str buffer)
  end.

Definition parse_and_expand (fuel : nat) (argv : list text) (stdin : text)
  : run unit :=
  input <- read_all_input_and_remove_comments argv stdin ;;
  expand_text_impl fuel input out_char_stdout ;;
  ret tt.

(** [main]: the table starts empty and nothing has been printed. *)
Definition main (fuel : nat) (argv : list text) (stdin : text) : outcome world unit :=
  parse_and_expand fuel argv stdin (mkWorld init_macro_table [] []).
End Files.

(** The run of the expander alone on text that is already loaded. *)
Definition expand_main (fuel : nat) (input : text) : outcome world sink :=
  expand_text_impl (fun _ => None) fuel input out_char_stdout
    (mkWorld init_macro_table [] []).

End Submission2.

(** ** [submission/proj1.c] *)

Module Submission.
Local Open Scope run_scope.

(** What a run can change: the macro table of [main], the global output
    buffer and error flag, and the two streams. *)
Record world := mkWorld {
  table : MacroTable;
  g_errorOccurred : bool;
  g_outputBuffer : text;
  stdout : text;
  stderr : list diagnostic   (* the diagnostics printed, oldest first *)
}.

Definition run := M world.

Definition set_table (t : MacroTable) (w : world) : world :=
  mkWorld t (g_errorOccurred w) (g_outputBuffer w) (stdout w) (stderr w).

Definition set_outputBuffer (b : text) (w : world) : world :=
  mkWorld (table w) (g_errorOccurred w) b (stdout w) (stderr w).

Definition init_global_output : run unit := modify (set_outputBuffer []).

Definition append_char_to_output (c : ascii) : run unit :=
  modify (fun w =>
    if g_errorOccurred w then w else set_outputBuffer (g_outputBuffer w ++ [c]) w).

Fixpoint append_string_to_output (s : text) : run unit :=
  match s with
  | [] => ret tt
  | c :: s' => append_char_to_output c ;; append_string_to_output s'
  end.

(** Prints the message unless one was printed before, then [exit (0)]. *)
Definition raise_error {A} (msg : diagnostic) : run A :=
  modify (fun w =>
    if g_errorOccurred w then w
    else mkWorld (table w) true (g_outputBuffer w) (stdout w) (stderr w ++ [msg])) ;;
  exit 0.

(** *** Macro table *)

Definition builtins : list text :=
  [str "def"; str "undef"; str "if"; str "ifdef"; str "include"; str "expandafter"].

Definition is_builtin (nm : text) : bool := existsb (fun b => streq nm b) builtins.

Definition define_macro (nm val : text) : run unit :=
  if is_builtin nm then ret tt
  else
    tbl <- gets table ;;
    match lookup_macro tbl nm with
    | Some _ => raise_error (MacroAlreadyDefined nm)
    | None => modify (fun w => set_table (mkMacro nm val :: table w) w)
    end.

Definition undef_macro (nm : text) : run unit :=
  tbl <- gets table ;;
  match unlink_macro tbl nm with
  | Some tbl' => modify (set_table tbl')
  | None => raise_error (CannotUndefine nm)
  end.

(** *** readArg *)

(** The [while] loop of [readArg], guarded by the end of input and
    [braceDepth > 0] and left by [break] at the closing brace; the result is
    the cursor, the depth and the buffer when the loop is left. *)
Fixpoint readArg_loop (p : text) (braceDepth backslashCount : Z) (buf : text)
  : text * Z * text :=
  match p with
  | [] => (p, braceDepth, buf)
  | c :: p' =>
      if (braceDepth >? 0)%Z then
        if c =? "\" then readArg_loop p' braceDepth (backslashCount + 1)%Z (buf ++ [c])
        else
          let isEscaped := (Z.rem backslashCount 2 =? 1)%Z in
          if (c =? "{") && negb isEscaped then
            let braceDepth := (braceDepth + 1)%Z in
            if (braceDepth >? 0)%Z then readArg_loop p' braceDepth 0 (buf ++ [c])
            else readArg_loop p' braceDepth 0 buf
          else if (c =? "}") && negb isEscaped then
            let braceDepth := (braceDepth - 1)%Z in
            if (braceDepth =? 0)%Z then (p', braceDepth, buf)
            else if (braceDepth >? 0)%Z then readArg_loop p' braceDepth 0 (buf ++ [c])
            else readArg_loop p' braceDepth 0 buf
          else
            if (braceDepth >? 0)%Z then readArg_loop p' braceDepth 0 (buf ++ [c])
            else readArg_loop p' braceDepth 0 buf
      else (p, braceDepth, buf)
  end.

(** Returns the argument and the moved cursor. *)
Definition readArg (p : text) : run (text * text) :=
  let p := skip_spaces p in
  match p with
  | "{" :: p' =>
      let '(p'', braceDepth, buf) := readArg_loop p' 1 0 [] in
      if negb (braceDepth =? 0)%Z then raise_error UnbalancedBracesInArgument
      else ret (buf, p'')
  | _ => raise_error ExpectedBrace
  end.

(** *** The expander *)

Section Files.
(** [fopen (path, "r")]: the bytes of the file, when it can be opened. *)
Variable fopen : text -> option text.

Definition read_included_file (path : text) : run text :=
  match fopen path with
  | None => raise_error (CannotOpenFile path)
  | Some bytes => ret (c_str (remove_comments (Copying NUL) bytes))
  end.

(** [expand_string_fully], with [expand] for [expand_text_impl]: the global
    buffer is set aside, the text is expanded into a fresh one, and the old
    buffer is put back. *)
Definition expand_string_fully_with (expand : text -> run unit) (input : text)
  : run text :=
  oldBuf <- gets g_outputBuffer ;;
  oldError <- gets g_errorOccurred ;;
  modify (set_outputBuffer []) ;;
  expand input ;;
  err <- gets g_errorOccurred ;;
  if err then
    modify (fun w => mkWorld (table w) oldError oldBuf (stdout w) (stderr w)) ;;
    ret []
  else
    result <- gets g_outputBuffer ;;
    modify (fun w => mkWorld (table w) oldError oldBuf (stdout w) (stderr w)) ;;
    ret result.

(** One turn of the [while] loop of [expand_text_impl], with [expand] for
    the calls it makes and for the rest of the loop. *)
Definition expand_text_step (expand : text -> run unit) (input : text) : run unit :=
  err <- gets g_errorOccurred ;;
  match input with
  | [] => ret tt
  | c :: p =>
    if err then ret tt
    else if c =? "\" then
      match p with
      | c1 :: p1 =>
        if is_special c1 then
          append_char_to_output c1 ;; expand p1
        else if isalnum c1 then
          let '(nameBuf, p) := readMacroName p in
          let p := skip_spaces p in
          match p with
          | "{" :: _ =>
            if streq nameBuf (str "def") then
              '(arg1, p) <- readArg p ;;
              '(arg2, p) <- readArg p ;;
              match arg1 with
              | [] => raise_error InvalidNameInDef
              | _ =>
                  if negb (all_alnum arg1) then raise_error InvalidNameInDef
                  else define_macro arg1 arg2 ;; expand p
              end
            else if streq nameBuf (str "undef") then
              '(arg1, p) <- readArg p ;;
              undef_macro arg1 ;;
              expand p
            else if streq nameBuf (str "if") then
              '(condArg, p) <- readArg p ;;
              '(thenArg, p) <- readArg p ;;
              '(elseArg, p) <- readArg p ;;
              let branch := match condArg with [] => elseArg | _ => thenArg end in
              expand branch ;;
              expand p
            else if streq nameBuf (str "ifdef") then
              '(nameArg, p) <- readArg p ;;
              '(thenArg, p) <- readArg p ;;
              '(elseArg, p) <- readArg p ;;
              if negb (all_alnum nameArg) then raise_error InvalidNameInIfdef
              else
                tbl <- gets table ;;
                let branch :=
                  match lookup_macro tbl nameArg with
                  | Some _ => thenArg
                  | None => elseArg
                  end in
                expand branch ;;
                expand p
            else if streq nameBuf (str "include") then
              '(pathArg, p) <- readArg p ;;
              includedText <- read_included_file pathArg ;;
              expand includedText ;;
              expand p
            else if streq nameBuf (str "expandafter") then
              '(beforeArg, p) <- readArg p ;;
              '(afterArg, p) <- readArg p ;;
              expandedAfter <- expand_string_fully_with expand afterArg ;;
              expandedBefore <- expand_string_fully_with expand beforeArg ;;
              let newText := expandedBefore ++ expandedAfter in
              expand newText ;;
              expand p
            else
              tbl <- gets table ;;
              match lookup_macro tbl nameBuf with
              | None => raise_error (MacroNotDefined nameBuf)
              | Some macroVal =>
                  '(arg1, p) <- readArg p ;;
                  let outBuf := instantiate macroVal arg1 in
                  expand outBuf ;;
                  expand p
              end
          | _ =>
            append_char_to_output "\" ;;
            append_string_to_output nameBuf ;;
            expand p
          end
        else
          append_char_to_output "\" ;;
          append_char_to_output c1 ;;
          expand p1
      | [] => append_char_to_output "\"
      end
    else
      append_char_to_output c ;; expand p
  end.

(** [expand_text_impl]: every call and every turn of the loop uses one unit
    of [fuel]. *)
Fixpoint expand_text_impl (fuel : nat) (input : text) : run unit :=
  match fuel with
  | O => diverge
  | S fuel' => expand_text_step (expand_text_impl fuel') input
  end.

Definition expand_string_fully (fuel : nat) (input : text) : run text :=
  expand_string_fully_with (expand_text_impl fuel) input.

(** [read_all_input_and_remove_comments]: standard input when no file is
    named, else the named files in order. *)
Fixpoint read_files (paths : list text) : run text :=
  match paths with
  | [] => ret []
  | path :: paths' =>
      match fopen path with
      | None => raise_error (CannotOpenFile path)
      | Some bytes =>
          rest <- read_files paths' ;;
          ret (remove_comments (Copying NUL) bytes ++ rest)
      end
  end.

Definition read_all_input_and_remove_comments (argv : list text) (stdin : text)
  : run text :=
  match argv with
  | [] => ret (c_str (remove_comments (Copying NUL) stdin))
  | _ => buffer <- read_files argv ;; ret (c_str buffer)
  end.

(** The expansion goes to the global buffer, which is printed at the end
    unless an error was flagged. *)
Definition expand_and_print (fuel : nat) (input : text) : run unit :=
  init_global_output ;;
  expand_text_impl fuel input ;;
  err <- gets g_errorOccurred ;;
  if err then ret tt
  else
    modify (fun w =>
      mkWorld (table w) (g_errorOccurred w) (g_outputBuffer w)
              (stdout w ++ g_outputBuffer w) (stderr w)).

Definition parse_and_expand (fuel : nat) (argv : list text) (stdin : text)
  : run unit :=
  input <- read_all_input_and_remove_comments argv stdin ;;
  expand_and_print fuel input.

Definition initial : world := mkWorld init_macro_table false [] [] [].

(** [main]: the table starts empty and nothing has been printed. *)
Definition main (fuel : nat) (argv : list text) (stdin : text) : outcome world unit :=
  parse_and_expand fuel argv stdin initial.
End Files.

(** The run of the expander, and the printing of its buffer, on text that is
    already loaded. *)
Definition expand_main (fuel : nat) (input : text) : outcome world unit :=
  expand_and_print (fun _ => None) fuel input initial.

End Submission.

(** ** Notions used to state the properties *)

(** *** Escapes and brace depth of a text, read from the left

    A backslash that is not itself escaped escapes the character after it.
    [escaping esc s] tells whether the character that follows [s] is escaped,
    when [esc] tells it for the first character of [s]. *)
Fixpoint escaping (esc : bool) (s : text) : bool :=
  match s with
  | [] => esc
  | c :: s' => escaping (if esc then false else c =? "\") s'
  end.

(** What one character does to the brace depth when it is not escaped. *)
Definition brace_delta (c : ascii) : Z :=
  if c =? "{" then 1 else if c =? "}" then (-1) else 0.

(** Opening minus closing braces of [s], escaped characters left out. *)
Fixpoint depth_change (esc : bool) (s : text) : Z :=
  match s with
  | [] => 0
  | c :: s' =>
      (if esc then 0 else brace_delta c)
      + depth_change (if esc then false else c =? "\") s'
  end.

(** The brace depth after the text [s] that follows an opening brace. *)
Definition brace_depth (s : text) : Z := 1 + depth_change false s.

(** The depth stays positive over all of [s]: the brace that opened the
    argument is not closed in [s]. *)
Definition never_closed (s : text) : Prop :=
  forall n, (0 < brace_depth (firstn n s))%Z.

(** [a] can stand between the braces of an argument: the depth stays positive
    inside [a] and a closing brace put after [a] is unescaped and closes the
    argument. *)
Definition balanced (a : text) : bool :=
  forallb (fun n => (0 <? brace_depth (firstn n a))%Z) (seq 0 (S (List.length a)))
  && (brace_depth a =? 1)%Z
  && negb (escaping false a).

(** *** Refinement of computations by fuel, and invariants of runs *)

Section Runs.
Variable W : Type.

(** [m'] does what [m] does whenever [m] ends. *)
Definition refines {A} (m m' : M W A) : Prop :=
  forall w, m w <> Diverges -> m' w = m w.

(** [Inv] holds again whenever [m] returns, and [Post] holds when it exits. *)
Definition preserves {A} (Inv : W -> Prop) (Post : nat -> W -> Prop) (m : M W A)
  : Prop :=
  forall w, Inv w ->
    match m w with
    | Returns _ w' => Inv w'
    | Exits status w' => Post status w'
    | Diverges => True
    end.

(** A run ended: it returned or it exited. *)
Definition ended {A} (o : outcome W A) : Prop := o <> Diverges.
End Runs.

Arguments refines {W A} m m'.
Arguments preserves {W A} Inv Post m.
Arguments ended {W A} o.

(** *** Tables *)

(** [nm] is bound in the table. *)
Definition bound (tbl : MacroTable) (nm : text) : bool :=
  existsb (fun m => streq (name m) nm) tbl.

(** Every name has at most one entry. *)
Definition unique_names (tbl : MacroTable) : Prop := NoDup (map name tbl).

(** No entry is called like a builtin. *)
Definition no_builtin_entry (tbl : MacroTable) : Prop :=
  forall b, In b Submission.builtins -> bound tbl b = false.

(** The tables that [define_macro] and [undef_macro] can build from the empty
    table, in each program. *)
Inductive reachable1 : MacroTable -> Prop :=
| reachable1_init : reachable1 init_macro_table
| reachable1_define nm val w w' :
    reachable1 (Submission.table w) ->
    Submission.define_macro nm val w = Returns tt w' ->
    reachable1 (Submission.table w')
| reachable1_undef nm w w' :
    reachable1 (Submission.table w) ->
    Submission.undef_macro nm w = Returns tt w' ->
    reachable1 (Submission.table w').

Inductive reachable2 : MacroTable -> Prop :=
| reachable2_init : reachable2 init_macro_table
| reachable2_define nm val w w' :
    reachable2 (Submission2.table w) ->
    Submission2.define_macro nm val w = Returns tt w' ->
    reachable2 (Submission2.table w')
| reachable2_undef nm w w' :
    reachable2 (Submission2.table w) ->
    Submission2.undef_macro nm w = Returns tt w' ->
    reachable2 (Submission2.table w').

(** *** What a run leaves behind *)

(** The world of a run that ended, by return or by exit. *)
Definition final_world {W A} (o : outcome W A) : option W :=
  match o with
  | Returns _ w | Exits _ w => Some w
  | Diverges => None
  end.

(** *** [\expandafter] as the specification words it, in [submission]

    Expand [AFTER] alone into a buffer of its own, giving [S]; expand the
    unexpanded [BEFORE] followed by [S]; then expand the continuation. *)
Definition expandafter_as_specified (fopen : text -> option text) (fuel : nat)
    (before after continuation : text) : Submission.run unit :=
  (S <- Submission.expand_string_fully fopen fuel after ;;
   Submission.expand_text_impl fopen fuel (before ++ S) ;;
   Submission.expand_text_impl fopen fuel continuation)%run.

(** *** A name and what follows it *)

(** The alphanumeric run stops where [rest] starts. *)
Definition ends_name (rest : text) : bool :=
  match rest with
  | [] => true
  | c :: _ => negb (isalnum c)
  end.

Definition starts_with_brace (p : text) : bool :=
  match p with
  | c :: _ => c =? "{"
  | [] => false
  end.

(** The diagnostic of [submission2] for the name [nm] when no opening brace
    follows it, by the branch of the dispatch that [nm] takes. *)
Definition diagnostic_without_brace (tbl : MacroTable) (nm : text) : diagnostic :=
  if streq nm (str "def") then InvalidNameInDef
  else if streq nm (str "undef") then InvalidUndefUsage
  else if streq nm (str "if") then IfRequires3
  else if streq nm (str "ifdef") then IfdefRequires3
  else if streq nm (str "include") then IncludeRequires1
  else if streq nm (str "expandafter") then ExpandafterRequires2
  else match lookup_macro tbl nm with
       | None => MacroNotDefined nm
       | Some _ => MacroWithoutArgument nm
       end.

(** *** Failing runs *)

(** Nothing reported yet. *)
Definition quiet2 (w : Submission2.world) : Prop := Submission2.stderr w = [].

(** One diagnostic was printed and the status is [EXIT_FAILURE]. *)
Definition reported2 (status : nat) (w : Submission2.world) : Prop :=
  status = EXIT_FAILURE /\ exists d, Submission2.stderr w = [d].

(** Nothing printed or reported yet, and the error flag is down. *)
Definition quiet1 (w : Submission.world) : Prop :=
  Submission.g_errorOccurred w = false
  /\ Submission.stdout w = [] /\ Submission.stderr w = [].

(** One diagnostic was printed, nothing went to standard output and the
    status is 0. *)
Definition reported1 (status : nat) (w : Submission.world) : Prop :=
  status = 0 /\ Submission.stdout w = [] /\ exists d, Submission.stderr w = [d].

(** ** The second program of [submission/proj1.c]

    After its first program the file holds a second one (from line 775 on).
    It passes an output callback as [submission2] does; its macro table, its
    output functions and its reading of files are those of [submission2],
    and the loop of its [readArg] is the same.  It differs at the head of
    [readArg], in [\def], [\include] and [\expandafter], and in the loop
    that instantiates the value of a user macro. *)

Module Submission_b.
Local Open Scope run_scope.

(** What it prints to the error stream: the diagnostics it shares with the
    other two programs, and one of its own. *)
Inductive report :=
| shared (d : diagnostic)
| InvalidValueInDef.

Definition report_message (r : report) : text :=
  match r with
  | shared d => message d
  | InvalidValueInDef => str "Error: invalid value in \def"
  end.

Record world := mkWorld {
  table : MacroTable;
  stdout : text;
  stderr : list report   (* what was printed, oldest first *)
}.

Definition run := M world.

(** [fprintf (stderr, ...); exit (EXIT_FAILURE);] *)
Definition fail {A} (r : report) : run A :=
  modify (fun w => mkWorld (table w) (stdout w) (stderr w ++ [r])) ;;
  exit EXIT_FAILURE.

(** *** Macro table *)

Definition define_macro (nm val : text) : run unit :=
  tbl <- gets table ;;
  match lookup_macro tbl nm with
  | Some _ => fail (shared (MacroAlreadyDefined nm))
  | None =>
      modify (fun w => mkWorld (mkMacro nm val :: table w) (stdout w) (stderr w))
  end.

Definition undef_macro (nm : text) : run unit :=
  tbl <- gets table ;;
  match unlink_macro tbl nm with
  | Some tbl' => modify (fun w => mkWorld tbl' (stdout w) (stderr w))
  | None => fail (shared (CannotUndefine nm))
  end.

(** *** Output *)

Inductive sink :=
| out_char_stdout
| out_char_buffer (ob : text).

Definition out_char (c : ascii) (sk : sink) : run sink :=
  match sk with
  | out_char_stdout =>
      modify (fun w => mkWorld (table w) (stdout w ++ [c]) (stderr w)) ;;
      ret out_char_stdout
  | out_char_buffer ob => ret (out_char_buffer (ob ++ [c]))
  end.

Definition combine_strings (s1 s2 : text) : text := s1 ++ s2.

(** *** readArg

    The cursor must be at the opening brace: no white space is skipped.
    The loop is the loop of [submission2]. *)
Definition readArg (p : text) : run (option text * text) :=
  match p with
  | "{" :: p' =>
      let '(p'', braceDepth, buf) := Submission2.readArg_loop p' 1 false [] in
      if negb (braceDepth =? 0)%Z then fail (shared UnbalancedBracesInArgument)
      else ret (Some buf, p'')
  | _ => ret (None, p)
  end.

(** The [while ( *m )] loop of the user-macro branch: every backslash is
    kept with the character after it. *)
Fixpoint instantiate (m : text) (arg1 : text) : text :=
  match m with
  | [] => []
  | c :: m' =>
      if c =? "\" then
        match m' with
        | [] => ["\"]
        | next :: m'' => "\" :: next :: instantiate m'' arg1
        end
      else if c =? "#" then arg1 ++ instantiate m' arg1
      else c :: instantiate m' arg1
  end.

(** *** The expander *)

Section Files.
Variable fopen : text -> option text.

Definition read_included_file (path : text) : run text :=
  match fopen path with
  | None => fail (shared (CannotOpenFile path))
  | Some bytes => ret (c_str (remove_comments (Copying NUL) bytes))
  end.

(** One call of [expand_text_impl], with [expand] for the calls it makes and
    for the next turn of its [while] loop. *)
Definition expand_text_step (expand : text -> sink -> run sink)
    (input : text) (sk : sink) : run sink :=
  match input with
  | [] => ret sk
  | c :: p =>
    if c =? "\" then
      match p with
      | [] => out_char "\" sk
      | c1 :: p1 =>
        if is_special c1 then
          sk <- out_char c1 sk ;; expand p1 sk
        else if isalnum c1 then
          let '(nameBuf, p) := readMacroName p in
          if streq nameBuf (str "def") then
            '(arg1, p) <- readArg p ;;
            '(arg2, p) <- readArg p ;;
            match arg1 with
            | None | Some [] => fail (shared InvalidNameInDef)
            | Some arg1 =>
                match arg2 with
                | None => fail InvalidValueInDef
                | Some arg2 =>
                    if negb (all_alnum arg1) then fail (shared InvalidNameInDef)
                    else define_macro arg1 arg2 ;; expand p sk
                end
            end
          else if streq nameBuf (str "undef") then
            '(arg1, p) <- readArg p ;;
            match arg1 with
            | None => fail (shared InvalidUndefUsage)
            | Some arg1 => undef_macro arg1 ;; expand p sk
            end
          else if streq nameBuf (str "if") then
            '(condArg, p) <- readArg p ;;
            '(thenArg, p) <- readArg p ;;
            '(elseArg, p) <- readArg p ;;
            match condArg, thenArg, elseArg with
            | Some condArg, Some thenArg, Some elseArg =>
                let branch := match condArg with [] => elseArg | _ => thenArg end in
                sk <- expand branch sk ;;
                expand p sk
            | _, _, _ => fail (shared IfRequires3)
            end
          else if streq nameBuf (str "ifdef") then
            '(nameArg, p) <- readArg p ;;
            '(thenArg, p) <- readArg p ;;
            '(elseArg, p) <- readArg p ;;
            match nameArg, thenArg, elseArg with
            | Some nameArg, Some thenArg, Some elseArg =>
                if negb (all_alnum nameArg) then fail (shared InvalidNameInIfdef)
                else
                  tbl <- gets table ;;
                  let branch :=
                    match lookup_macro tbl nameArg with
                    | Some _ => thenArg
                    | None => elseArg
                    end in
                  sk <- expand branch sk ;;
                  expand p sk
            | _, _, _ => fail (shared IfdefRequires3)
            end
          else if streq nameBuf (str "include") then
            '(pathArg, p) <- readArg p ;;
            match pathArg with
            | None => fail (shared IncludeRequires1)
            | Some pathArg =>
                includedText <- read_included_file pathArg ;;
                let combined := combine_strings includedText p in
                expand combined sk
            end
          else if streq nameBuf (str "expandafter") then
            '(beforeArg, p) <- readArg p ;;
            '(afterArg, p) <- readArg p ;;
            match beforeArg, afterArg with
            | Some beforeArg, Some afterArg =>
                (* expand_text_into_string (table, afterArg) *)
                ob <- expand afterArg (out_char_buffer []) ;;
                let expandedAfter :=
                  match ob with out_char_buffer buf => buf | out_char_stdout => [] end in
                let combined := combine_strings beforeArg expandedAfter in
                let all := combine_strings combined p in
                expand all sk
            | _, _ => fail (shared ExpandafterRequires2)
            end
          else
            tbl <- gets table ;;
            match lookup_macro tbl nameBuf with
            | None => fail (shared (MacroNotDefined nameBuf))
            | Some macroVal =>
                '(arg1, p) <- readArg p ;;
                match arg1 with
                | None => fail (shared (MacroWithoutArgument nameBuf))
                | Some arg1 =>
                    let outBuf := instantiate macroVal arg1 in
                    sk <- expand outBuf sk ;;
                    expand p sk
                end
            end
        else
          sk <- out_char "\" sk ;;
          sk <- out_char c1 sk ;;
          expand p1 sk
      end
    else
      sk <- out_char c sk ;; expand p sk
  end.

(** [expand_text_impl]: every call and every turn of the loop uses one unit
    of [fuel]. *)
Fixpoint expand_text_impl (fuel : nat) (input : text) (sk : sink) : run sink :=
  match fuel with
  | O => diverge
  | S fuel' => expand_text_step (expand_text_impl fuel') input sk
  end.

Definition expand_text_into_string (fuel : nat) (input : text) : run text :=
  ob <- expand_text_impl fuel input (out_char_buffer []) ;;
  ret (match ob with out_char_buffer buf => buf | out_char_stdout => [] end).

Fixpoint read_files (paths : list text) : run text :=
  match paths with
  | [] => ret []
  | path :: paths' =>
      match fopen path with
      | None => fail (shared (CannotOpenFile path))
      | Some bytes =>
          rest <- read_files paths' ;;
          ret (remove_comments (Copying NUL) bytes ++ rest)
      end
  end.

Definition read_all_input_and_remove_comments (argv : list text) (stdin : text)
  : run text :=
  match argv with
  | [] => ret (c_str (remove_comments (Copying NUL) stdin))
  | _ => buffer <- read_files argv ;; ret (c_str buffer)
  end.

Definition parse_and_expand (fuel : nat) (argv : list text) (stdin : text)
  : run unit :=
  input <- read_all_input_and_remove_comments argv stdin ;;
  expand_text_impl fuel input out_char_stdout ;;
  ret tt.

Definition main (fuel : nat) (argv : list text) (stdin : text) : outcome world unit :=
  parse_and_expand fuel argv stdin (mkWorld init_macro_table [] []).
End Files.

End Submission_b.

(** ** Notions used by the further properties *)

(** The text does not start with white space. *)
Definition no_leading_space (q : text) : bool :=
  match q with
  | [] => true
  | c :: _ => negb (isspace c)
  end.

(** A name that [\def] accepts: not empty and alphanumeric. *)
Definition valid_name (nm : text) : bool :=
  match nm with
  | [] => false
  | _ :: _ => all_alnum nm
  end.

(** No backslash of the text starts a macro name: each one is the last
    character or is followed by a character that is not alphanumeric. *)
Fixpoint macro_free (t : text) : bool :=
  match t with
  | [] => true
  | c :: t' =>
      if c =? "\" then
        match t' with
        | [] => true
        | c1 :: t'' => negb (isalnum c1) && macro_free t''
        end
      else macro_free t'
  end.

(** The text with its escapes resolved: a backslash before one of the
    special five is dropped, every other character stays. *)
Fixpoint resolve_escapes (t : text) : text :=
  match t with
  | [] => []
  | c :: t' =>
      if c =? "\" then
        match t' with
        | [] => ["\"]
        | c1 :: t'' =>
            if is_special c1 then c1 :: resolve_escapes t''
            else "\" :: c1 :: resolve_escapes t''
        end
      else c :: resolve_escapes t'
  end.

(** Every [%] of the text comes directly after a backslash; [prev] is the
    character before the text (NUL: none). *)
Fixpoint guarded (prev : ascii) (s : text) : bool :=
  match s with
  | [] => true
  | c :: s' => (negb (c =? "%") || (prev =? "\")) && guarded c s'
  end.

(** The character before what follows [s], when [prev] is the one before [s]. *)
Definition last_char (prev : ascii) (s : text) : ascii := last s prev.

(** A blank or a tab. *)
Definition is_blank (c : ascii) : bool := (c =? " ") || (c =? tab).

(** The text does not start with a blank or a tab. *)
Definition no_leading_blank (s : text) : bool :=
  match s with
  | [] => true
  | c :: _ => negb (is_blank c)
  end.

(** The first path that [fopen] cannot open. *)
Definition first_missing (fopen : text -> option text) (paths : list text)
  : option text :=
  find (fun path => match fopen path with Some _ => false | None => true end) paths.

(** The files of [paths], each with its comments removed, one after the other. *)
Definition stripped_files (fopen : text -> option text) (paths : list text) : text :=
  flat_map (fun path =>
              match fopen path with
              | Some bytes => remove_comments (Copying NUL) bytes
              | None => []
              end) paths.

(** ** Two runs side by side *)

Section SideBySide.
Variable W : Type.

(** From worlds related by [P] the two computations end alike: both return,
    with [Q] between the results and the worlds, both exit with the same
    status and [E] between the worlds, or neither ends. *)
Definition alike {A} (P : W -> W -> Prop) (m1 m2 : M W A)
    (Q : A -> W -> A -> W -> Prop) (E : W -> W -> Prop) : Prop :=
  forall w1 w2, P w1 w2 ->
    match m1 w1, m2 w2 with
    | Returns a1 w1', Returns a2 w2' => Q a1 w1' a2 w2'
    | Exits s1 w1', Exits s2 w2' => s1 = s2 /\ E w1' w2'
    | Diverges, Diverges => True
    | _, _ => False
    end.
End SideBySide.

Arguments alike {W A} P m1 m2 Q E.

(** *** [submission2]: where the output goes

    A run that began with the sink and the world [o] and has put out [out]
    since is at the sink [sk] and the world [w]: nothing was written to the
    error stream; with [putchar] as sink [out] was added to standard
    output, with a buffer as sink it was added to the buffer and standard
    output is as it was. *)
Definition emitted (o : Submission2.sink * Submission2.world) (out : text)
    (sk : Submission2.sink) (w : Submission2.world) : Prop :=
  Submission2.stderr w = Submission2.stderr (snd o) /\
  match fst o with
  | Submission2.out_char_stdout =>
      sk = Submission2.out_char_stdout
      /\ Submission2.stdout w = Submission2.stdout (snd o) ++ out
  | Submission2.out_char_buffer ob =>
      sk = Submission2.out_char_buffer (ob ++ out)
      /\ Submission2.stdout w = Submission2.stdout (snd o)
  end.

(** The same run has exited at the world [w] with the diagnostic [d], after
    it had put out [out]: what went to a buffer is lost. *)
Definition stopped (o : Submission2.sink * Submission2.world) (out : text)
    (d : diagnostic) (w : Submission2.world) : Prop :=
  Submission2.stderr w = Submission2.stderr (snd o) ++ [d] /\
  match fst o with
  | Submission2.out_char_stdout =>
      Submission2.stdout w = Submission2.stdout (snd o) ++ out
  | Submission2.out_char_buffer _ =>
      Submission2.stdout w = Submission2.stdout (snd o)
  end.

(** Two runs that began at [o1] and [o2] have the same table and have put
    out the same text. *)
Definition routed (o1 o2 : Submission2.sink * Submission2.world)
    (sk1 sk2 : Submission2.sink) (w1 w2 : Submission2.world) : Prop :=
  Submission2.table w1 = Submission2.table w2
  /\ exists out, emitted o1 out sk1 w1 /\ emitted o2 out sk2 w2.

Definition stopped_alike (o1 o2 : Submission2.sink * Submission2.world)
    (w1 w2 : Submission2.world) : Prop :=
  Submission2.table w1 = Submission2.table w2
  /\ exists out d, stopped o1 out d w1 /\ stopped o2 out d w2.

(** The two computations give the same result and keep the runs together. *)
Definition same_result {A} (o1 o2 : Submission2.sink * Submission2.world)
    (sk1 sk2 : Submission2.sink) (m1 m2 : Submission2.run A) : Prop :=
  alike (routed o1 o2 sk1 sk2) m1 m2
    (fun a1 w1 a2 w2 => a1 = a2 /\ routed o1 o2 sk1 sk2 w1 w2)
    (stopped_alike o1 o2).

(** The two computations put out the same text, each to its sink. *)
Definition same_output (o1 o2 : Submission2.sink * Submission2.world)
    (sk1 sk2 : Submission2.sink) (m1 m2 : Submission2.run Submission2.sink) : Prop :=
  alike (routed o1 o2 sk1 sk2) m1 m2
    (fun a1 w1 a2 w2 => routed o1 o2 a1 a2 w1 w2)
    (stopped_alike o1 o2).

(** *** [submission]: where the output goes

    Two runs have the same table and the same streams, no error is flagged
    in either, and they have appended the same text to their output buffers
    since these held [b1] and [b2]. *)
Definition appended (b1 b2 : text) (w1 w2 : Submission.world) : Prop :=
  Submission.table w1 = Submission.table w2
  /\ Submission.g_errorOccurred w1 = false
  /\ Submission.g_errorOccurred w2 = false
  /\ Submission.stdout w1 = Submission.stdout w2
  /\ Submission.stderr w1 = Submission.stderr w2
  /\ exists out, Submission.g_outputBuffer w1 = b1 ++ out
                 /\ Submission.g_outputBuffer w2 = b2 ++ out.

(** Two runs have exited with the same table and streams and the error
    flagged; the buffers are not printed any more. *)
Definition exited_alike (w1 w2 : Submission.world) : Prop :=
  Submission.table w1 = Submission.table w2
  /\ Submission.g_errorOccurred w1 = true
  /\ Submission.g_errorOccurred w2 = true
  /\ Submission.stdout w1 = Submission.stdout w2
  /\ Submission.stderr w1 = Submission.stderr w2.

(** The computation gives the same result in the two runs and keeps them
    together. *)
Definition same_run {A} (b1 b2 : text) (m : Submission.run A) : Prop :=
  alike (appended b1 b2) m m
    (fun a1 w1 a2 w2 => a1 = a2 /\ appended b1 b2 w1 w2)
    exited_alike.

(** *** Names of the table *)

(** Every entry of the table is called by a name that [\def] accepts. *)
Definition valid_names (tbl : MacroTable) : bool :=
  forallb (fun m => valid_name (name m)) tbl.

Definition valid1 (w : Submission.world) : Prop :=
  valid_names (Submission.table w) = true.

Definition valid2 (w : Submission2.world) : Prop :=
  valid_names (Submission2.table w) = true.

(** *** What is loaded *)

(** The text the expander is given: standard input when no file is named,
    else the named files, comments removed, up to the first NUL. *)
Definition loaded_input (fopen : text -> option text) (argv : list text)
    (stdin : text) : text :=
  c_str (match argv with
         | [] => remove_comments (Copying NUL) stdin
         | _ :: _ => stripped_files fopen argv
         end).

(** * Properties *)

(** ** Characters and strings *)

Lemma streq_eq (a b : text) : streq a b = true <-> a = b.
Proof.
  revert b; induction a as [|x a IH]; intros [|y b]; simpl; split; intro H;
    try discriminate; try reflexivity.
  - apply andb_true_iff in H as [Hxy Hab].
    apply Ascii.eqb_eq in Hxy. apply IH in Hab. congruence.
  - injection H as -> ->. apply andb_true_iff; split.
    + apply Ascii.eqb_refl.
    + apply IH; reflexivity.
Qed.

Lemma streq_refl (a : text) : streq a a = true.
Proof. apply streq_eq; reflexivity. Qed.

Lemma streq_neq (a b : text) : a <> b -> streq a b = false.
Proof.
  intro H. destruct (streq a b) eqn:E; [|reflexivity].
  apply streq_eq in E. contradiction.
Qed.

Lemma alnum_not_special (c : ascii) : isalnum c = true -> is_special c = false.
Proof.
  destruct c as [[] [] [] [] [] [] [] []]; vm_compute; congruence.
Qed.

Lemma alnum_not_space (c : ascii) : isalnum c = true -> isspace c = false.
Proof.
  destruct c as [[] [] [] [] [] [] [] []]; vm_compute; congruence.
Qed.

(** ** Escapes and brace depth *)

Lemma escaping_snoc (s : text) (c : ascii) (esc : bool) :
  escaping esc (s ++ [c]) = if escaping esc s then false else c =? "\".
Proof.
  revert esc; induction s as [|x s IH]; intro esc; simpl.
  - reflexivity.
  - apply IH.
Qed.

Lemma depth_change_snoc (s : text) (c : ascii) (esc : bool) :
  depth_change esc (s ++ [c])
  = (depth_change esc s + if escaping esc s then 0 else brace_delta c)%Z.
Proof.
  revert esc; induction s as [|x s IH]; intro esc; simpl.
  - lia.
  - rewrite IH. lia.
Qed.

Lemma brace_depth_snoc (s : text) (c : ascii) :
  brace_depth (s ++ [c])
  = (brace_depth s + if escaping false s then 0 else brace_delta c)%Z.
Proof. unfold brace_depth. rewrite depth_change_snoc. lia. Qed.

Lemma firstn_snoc (p : text) (c : ascii) (n : nat) (pre : text) :
  pre ++ firstn (S n) (c :: p) = (pre ++ [c]) ++ firstn n p.
Proof. simpl. rewrite <- app_assoc. reflexivity. Qed.

(** ** The loop of [readArg]

    After the loop has read the text [pre] its variables are
    [brace_depth pre], [escaping false pre] and [pre] itself. *)

Lemma readArg_loop_step (pre : text) (c : ascii) (p : text) :
  (0 < brace_depth pre)%Z ->
  Submission2.readArg_loop (c :: p) (brace_depth pre) (escaping false pre) pre
  = if (0 <? brace_depth (pre ++ [c]))%Z
    then Submission2.readArg_loop p (brace_depth (pre ++ [c]))
           (escaping false (pre ++ [c])) (pre ++ [c])
    else (p, 0%Z, pre).
Proof.
  intro Hpos. rewrite brace_depth_snoc, escaping_snoc. simpl.
  assert (Hgt : (brace_depth pre >? 0)%Z = true) by (apply Z.gtb_lt; lia).
  rewrite Hgt. unfold brace_delta.
  destruct (escaping false pre); simpl.
  - replace (brace_depth pre + 0)%Z with (brace_depth pre) by lia.
    apply Z.ltb_lt in Hpos. rewrite Hpos. reflexivity.
  - destruct (c =? "\") eqn:Eb.
    + apply Ascii.eqb_eq in Eb; subst c. simpl.
      replace (brace_depth pre + 0)%Z with (brace_depth pre) by lia.
      apply Z.ltb_lt in Hpos. rewrite Hpos. reflexivity.
    + destruct (c =? "{") eqn:Eo.
      * assert (H1 : (0 <? brace_depth pre + 1)%Z = true) by (apply Z.ltb_lt; lia).
        rewrite H1. reflexivity.
      * destruct (c =? "}") eqn:Ec.
        -- replace (brace_depth pre + -1)%Z with (brace_depth pre - 1)%Z by lia.
           rewrite Z.gtb_ltb.
           destruct (0 <? brace_depth pre - 1)%Z eqn:E1; [reflexivity|].
           apply Z.ltb_ge in E1.
           replace (brace_depth pre - 1)%Z with 0%Z by lia.
           destruct p; reflexivity.
        -- replace (brace_depth pre + 0)%Z with (brace_depth pre) by lia.
           apply Z.ltb_lt in Hpos. rewrite Hpos. reflexivity.
Qed.

(** The input ends before the depth is back at 0: the loop stops at the end
    of the input with a positive depth. *)
Lemma readArg_loop_open (p pre : text) :
  (forall n, 0 < brace_depth (pre ++ firstn n p))%Z ->
  Submission2.readArg_loop p (brace_depth pre) (escaping false pre) pre
  = ([], brace_depth (pre ++ p), pre ++ p).
Proof.
  revert pre; induction p as [|c p IH]; intros pre H.
  - simpl. rewrite app_nil_r. reflexivity.
  - assert (Hpre : (0 < brace_depth pre)%Z).
    { specialize (H 0%nat). simpl in H. rewrite app_nil_r in H. exact H. }
    rewrite readArg_loop_step by exact Hpre.
    assert (H1 : (0 < brace_depth (pre ++ [c]))%Z) by apply (H 1%nat).
    apply Z.ltb_lt in H1. rewrite H1.
    rewrite IH.
    + rewrite <- app_assoc. reflexivity.
    + intro n. rewrite <- firstn_snoc. apply H.
Qed.

(** A balanced text followed by a closing brace: the loop stops after that
    brace and has copied the text. *)
Lemma readArg_loop_closed (a pre rest : text) :
  (forall n, 0 < brace_depth (pre ++ firstn n a))%Z ->
  brace_depth (pre ++ a) = 1%Z ->
  escaping false (pre ++ a) = false ->
  Submission2.readArg_loop (a ++ "}" :: rest) (brace_depth pre) (escaping false pre) pre
  = (rest, 0%Z, pre ++ a).
Proof.
  revert pre; induction a as [|c a IH]; intros pre H Hd He.
  - simpl app. rewrite app_nil_r in *.
    rewrite readArg_loop_step by lia.
    rewrite brace_depth_snoc, He, Hd. reflexivity.
  - assert (Hpre : (0 < brace_depth pre)%Z).
    { specialize (H 0%nat). simpl in H. rewrite app_nil_r in H. exact H. }
    simpl app. rewrite readArg_loop_step by exact Hpre.
    assert (H1 : (0 < brace_depth (pre ++ [c]))%Z) by apply (H 1%nat).
    apply Z.ltb_lt in H1. rewrite H1.
    replace (pre ++ c :: a) with ((pre ++ [c]) ++ a) in * by (rewrite <- app_assoc; reflexivity).
    apply IH; try assumption.
    intro n. rewrite <- firstn_snoc. apply H.
Qed.

(** What the loop has done when it stops: either the depth is 0, and then it
    has copied a balanced text and stands after the brace that closes it; or
    the input is used up and the brace was never closed. *)
Lemma readArg_loop_inv (p pre : text) (p' : text) (d : Z) (buf : text) :
  (0 < brace_depth pre)%Z ->
  Submission2.readArg_loop p (brace_depth pre) (escaping false pre) pre = (p', d, buf) ->
  (d = 0%Z /\ exists a, p = a ++ "}" :: p' /\ buf = pre ++ a
     /\ (forall n, 0 < brace_depth (pre ++ firstn n a))%Z
     /\ brace_depth (pre ++ a) = 1%Z /\ escaping false (pre ++ a) = false)
  \/ ((0 < d)%Z /\ p' = [] /\ buf = pre ++ p /\ d = brace_depth (pre ++ p)
     /\ (forall n, 0 < brace_depth (pre ++ firstn n p))%Z).
Proof.
  revert pre; induction p as [|c p IH]; intros pre Hpre H.
  - simpl in H. injection H as <- <- <-. right.
    rewrite app_nil_r. repeat split; try assumption.
    intro n. rewrite firstn_nil, app_nil_r. exact Hpre.
  - rewrite readArg_loop_step in H by exact Hpre.
    destruct (0 <? brace_depth (pre ++ [c]))%Z eqn:E.
    + apply Z.ltb_lt in E.
      destruct (IH _ E H) as [(Hd & a & Hp & Hb & Hn & Hd1 & He) | (Hd & Hp & Hb & Hd1 & Hn)].
      * left. split; [exact Hd|]. exists (c :: a).
        rewrite <- app_assoc in Hb, Hd1, He. simpl in Hb, Hd1, He.
        repeat split; try assumption.
        -- simpl. rewrite Hp. reflexivity.
        -- intros [|n]; [simpl; rewrite app_nil_r; exact Hpre|].
           rewrite firstn_snoc. apply Hn.
      * right. rewrite <- app_assoc in Hb, Hd1. simpl in Hb, Hd1.
        repeat split; try assumption.
        intros [|n]; [simpl; rewrite app_nil_r; exact Hpre|].
        rewrite firstn_snoc. apply Hn.
    + injection H as <- <- <-. left. split; [reflexivity|].
      apply Z.ltb_ge in E. rewrite brace_depth_snoc in E.
      exists []. rewrite app_nil_r.
      unfold brace_delta in E.
      destruct (escaping false pre) eqn:Ee; [lia|].
      destruct (c =? "{") eqn:Eo; [lia|].
      destruct (c =? "}") eqn:Ec; [|lia].
      apply Ascii.eqb_eq in Ec; subst c.
      repeat split; try reflexivity; try lia.
      intro n. rewrite firstn_nil, app_nil_r. exact Hpre.
Qed.

(** [submission] counts the backslashes of a run where [submission2] keeps a
    flag; the two loops read the same argument. *)
Lemma readArg_loop_same (p : text) (d bc : Z) (buf : text) :
  (0 <= bc)%Z ->
  Submission.readArg_loop p d bc buf = Submission2.readArg_loop p d (Z.odd bc) buf.
Proof.
  revert d bc buf; induction p as [|c p IH]; intros d bc buf Hbc; [reflexivity|].
  cbn [Submission.readArg_loop Submission2.readArg_loop].
  destruct (d >? 0)%Z eqn:Hd; [|reflexivity].
  assert (Hpos : (0 < d)%Z) by (apply Z.gtb_lt; exact Hd).
  assert (Hodd : (Z.rem bc 2 =? 1)%Z = Z.odd bc).
  { rewrite Z.rem_mod_nonneg by lia. rewrite Zmod_odd.
    destruct (Z.odd bc); reflexivity. }
  rewrite Hodd.
  destruct (c =? "\") eqn:Eb.
  - rewrite IH by lia.
    replace (bc + 1)%Z with (Z.succ bc) by lia. rewrite Z.odd_succ.
    rewrite <- Z.negb_odd.
    destruct (Z.odd bc); reflexivity.
  - destruct (Z.odd bc) eqn:Eo; cbn [negb andb].
    + rewrite !andb_false_r.
      rewrite IH by lia. reflexivity.
    + rewrite !andb_true_r.
      destruct (c =? "{") eqn:E1.
      * assert (H1 : (d + 1 >? 0)%Z = true) by (apply Z.gtb_lt; lia).
        rewrite H1, IH by lia. reflexivity.
      * destruct (c =? "}") eqn:E2.
        -- destruct (d - 1 =? 0)%Z eqn:E0.
           ++ apply Z.eqb_eq in E0. rewrite E0.
              destruct p; reflexivity.
           ++ apply Z.eqb_neq in E0.
              assert (H1 : (d - 1 >? 0)%Z = true) by (apply Z.gtb_lt; lia).
              rewrite H1, IH by lia. reflexivity.
        -- rewrite IH by lia. reflexivity.
Qed.

(** ** Balanced texts *)

Lemma balanced_spec (a : text) :
  balanced a = true <->
  (forall n, 0 < brace_depth (firstn n a))%Z
  /\ brace_depth a = 1%Z /\ escaping false a = false.
Proof.
  unfold balanced. rewrite !andb_true_iff, forallb_forall, Z.eqb_eq, negb_true_iff.
  split.
  - intros [[H Hd] He]. repeat split; try assumption.
    intro n. destruct (Nat.le_gt_cases n (List.length a)) as [Hn|Hn].
    + apply Z.ltb_lt, H, in_seq. lia.
    + rewrite firstn_all2 by lia. lia.
  - intros (H & Hd & He). repeat split; try assumption.
    intros n _. apply Z.ltb_lt, H.
Qed.

Lemma skip_spaces_brace (p : text) : skip_spaces ("{" :: p) = "{" :: p.
Proof. reflexivity. Qed.

(** [readArg] on a balanced argument in braces, in both programs. *)
Lemma readArg2_balanced (a rest : text) (w : Submission2.world) :
  balanced a = true ->
  Submission2.readArg ("{" :: a ++ "}" :: rest) w = Returns (Some a, rest) w.
Proof.
  intro H. apply balanced_spec in H as (Hn & Hd & He).
  unfold Submission2.readArg. rewrite skip_spaces_brace.
  change 1%Z with (brace_depth []). change false with (escaping false []) at 1.
  rewrite readArg_loop_closed by assumption.
  reflexivity.
Qed.

Lemma readArg1_balanced (a rest : text) (w : Submission.world) :
  balanced a = true ->
  Submission.readArg ("{" :: a ++ "}" :: rest) w = Returns (a, rest) w.
Proof.
  intro H. apply balanced_spec in H as (Hn & Hd & He).
  unfold Submission.readArg. rewrite skip_spaces_brace.
  rewrite readArg_loop_same by lia.
  change 1%Z with (brace_depth []). change (Z.odd 0) with (escaping false []).
  rewrite readArg_loop_closed by assumption.
  reflexivity.
Qed.

(** ** Laws of the computations *)

Section RunLaws.
Context {W : Type}.

Lemma refines_refl {A} (m : M W A) : refines m m.
Proof. intros w _. reflexivity. Qed.

Lemma refines_bind {A B} (m m' : M W A) (k k' : A -> M W B) :
  refines m m' -> (forall a, refines (k a) (k' a)) ->
  refines (bind m k) (bind m' k').
Proof.
  intros Hm Hk w H. unfold bind in *.
  destruct (m w) as [a w1|s w1|] eqn:E.
  - rewrite (Hm w), E by (rewrite E; discriminate). apply Hk, H.
  - rewrite (Hm w), E by (rewrite E; discriminate). reflexivity.
  - contradiction.
Qed.

Lemma refines_diverge {A} (m : M W A) : refines diverge m.
Proof. intros w H. contradiction. Qed.

Variable Inv : W -> Prop.
Variable Post : nat -> W -> Prop.

Lemma preserves_ret {A} (a : A) : preserves Inv Post (ret a).
Proof. intros w H. exact H. Qed.

Lemma preserves_gets {A} (f : W -> A) : preserves Inv Post (gets f).
Proof. intros w H. exact H. Qed.

Lemma preserves_diverge {A} : preserves Inv Post (@diverge W A).
Proof. intros w H. exact I. Qed.

Lemma preserves_modify (f : W -> W) :
  (forall w, Inv w -> Inv (f w)) -> preserves Inv Post (modify f).
Proof. intros Hf w H. apply Hf, H. Qed.

Lemma preserves_bind {A B} (m : M W A) (k : A -> M W B) :
  preserves Inv Post m -> (forall a, preserves Inv Post (k a)) ->
  preserves Inv Post (bind m k).
Proof.
  intros Hm Hk w H. unfold bind. specialize (Hm w H).
  destruct (m w) as [a w1|s w1|].
  - apply Hk, Hm.
  - exact Hm.
  - exact I.
Qed.
End RunLaws.

(** Goals [refines m m'] and [preserves Inv Post m] are proved along the
    structure of [m]; [lemmas] closes the calls. *)
Ltac refines_structure lemmas :=
  repeat first
    [ lemmas
    | apply refines_refl
    | apply refines_bind; [|intros]
    | match goal with
      | |- refines (match ?x with _ => _ end) _ => destruct x
      end ].

Ltac preserves_structure lemmas :=
  repeat first
    [ lemmas
    | apply preserves_ret
    | apply preserves_gets
    | apply preserves_bind; [|intros]
    | match goal with
      | |- preserves _ _ (match ?x with _ => _ end) => destruct x
      end ].

(** ** [submission2]: more fuel does not change a run that ends *)

Section Fuel2.
Variable fopen : text -> option text.
Import Submission2.

Lemma expand_text_step2_mono (rec rec' : text -> sink -> run sink) :
  (forall input sk, refines (rec input sk) (rec' input sk)) ->
  forall input sk,
    refines (expand_text_step fopen rec input sk) (expand_text_step fopen rec' input sk).
Proof.
  intros H input sk. unfold expand_text_step.
  refines_structure ltac:(apply H).
Qed.

Lemma expand_text_impl2_mono (fuel fuel' : nat) (input : text) (sk : sink) :
  fuel <= fuel' ->
  refines (expand_text_impl fopen fuel input sk) (expand_text_impl fopen fuel' input sk).
Proof.
  revert fuel' input sk; induction fuel as [|fuel IH]; intros fuel' input sk Hle.
  - apply refines_diverge.
  - destruct fuel' as [|fuel']; [lia|]. simpl.
    apply expand_text_step2_mono. intros. apply IH. lia.
Qed.
End Fuel2.

(** ** [submission]: more fuel does not change a run that ends *)

Section Fuel1.
Variable fopen : text -> option text.
Import Submission.

Lemma expand_string_fully_mono (rec rec' : text -> run unit) :
  (forall input, refines (rec input) (rec' input)) ->
  forall input,
    refines (expand_string_fully_with rec input) (expand_string_fully_with rec' input).
Proof.
  intros H input. unfold expand_string_fully_with.
  refines_structure ltac:(apply H).
Qed.

Lemma expand_text_step1_mono (rec rec' : text -> run unit) :
  (forall input, refines (rec input) (rec' input)) ->
  forall input,
    refines (expand_text_step fopen rec input) (expand_text_step fopen rec' input).
Proof.
  intros H input. unfold expand_text_step.
  refines_structure ltac:(first [apply H | apply expand_string_fully_mono; exact H]).
Qed.

Lemma expand_text_impl1_mono (fuel fuel' : nat) (input : text) :
  fuel <= fuel' ->
  refines (expand_text_impl fopen fuel input) (expand_text_impl fopen fuel' input).
Proof.
  revert fuel' input; induction fuel as [|fuel IH]; intros fuel' input Hle.
  - apply refines_diverge.
  - destruct fuel' as [|fuel']; [lia|]. simpl.
    apply expand_text_step1_mono. intros. apply IH. lia.
Qed.
End Fuel1.

(** ** Runs on loaded text: enough fuel *)

Lemma expand_main2_fuel (k fuel : nat) (input : text) :
  k <= fuel -> ended (Submission2.expand_main k input) ->
  Submission2.expand_main fuel input = Submission2.expand_main k input.
Proof.
  intros Hle H. unfold Submission2.expand_main.
  apply expand_text_impl2_mono; assumption.
Qed.

Lemma expand_main1_fuel (k fuel : nat) (input : text) :
  k <= fuel -> ended (Submission.expand_main k input) ->
  Submission.expand_main fuel input = Submission.expand_main k input.
Proof.
  intros Hle H. unfold Submission.expand_main.
  assert (R : refines (Submission.expand_and_print (fun _ => None) k input)
                      (Submission.expand_and_print (fun _ => None) fuel input)).
  { unfold Submission.expand_and_print.
    refines_structure ltac:(apply expand_text_impl1_mono; exact Hle). }
  apply R, H.
Qed.

(** Closes [expand_main fuel input = o] for fuel of at least [k] by running
    the program on [k]. *)
Ltac run_with k :=
  match goal with
  | |- Submission2.expand_main ?fuel ?input = _ =>
      rewrite (expand_main2_fuel k fuel input);
      [vm_compute; reflexivity | lia | vm_compute; discriminate]
  | |- Submission.expand_main ?fuel ?input = _ =>
      rewrite (expand_main1_fuel k fuel input);
      [vm_compute; reflexivity | lia | vm_compute; discriminate]
  end.

(** ** Escapes *)

(** C8. For each character [c] of the escape alphabet [\ { } # %], expanding
    the two characters backslash, [c] emits [c] and nothing else: the run
    returns, standard output holds exactly [c], no diagnostic is printed and
    the table stays empty.  This holds in both programs. *)
Theorem escape_pair_emits_character (c : ascii) (fuel : nat) :
  In c escape_alphabet -> 2 <= fuel ->
  Submission.expand_main fuel ["\"; c]
    = Returns tt (Submission.mkWorld [] false [c] [c] [])
  /\ Submission2.expand_main fuel ["\"; c]
    = Returns Submission2.out_char_stdout (Submission2.mkWorld [] [c] []).
Proof.
  intros Hc Hfuel.
  repeat (destruct Hc as [<-|Hc]; [split; run_with 2|]).
  destruct Hc.
Qed.

Lemma escape_pair_emits_character_witness :
  Submission.expand_main 2 ["\"; "#"]
    = Returns tt (Submission.mkWorld [] false ["#"] ["#"] [])
  /\ Submission2.expand_main 2 ["\"; "#"]
    = Returns Submission2.out_char_stdout (Submission2.mkWorld [] ["#"] []).
Proof.
  apply (escape_pair_emits_character "#" 2).
  - simpl. right; right; right; left. reflexivity.
  - lia.
Defined.

(** ** Defining macros *)

Lemma bound_lookup (tbl : MacroTable) (nm : text) :
  bound tbl nm = match lookup_macro tbl nm with Some _ => true | None => false end.
Proof.
  induction tbl as [|m tbl IH]; simpl; [reflexivity|].
  destruct (streq (name m) nm); simpl; [reflexivity|exact IH].
Qed.

Lemma bound_In (tbl : MacroTable) (nm : text) :
  bound tbl nm = true <-> In nm (map name tbl).
Proof.
  unfold bound. rewrite existsb_exists, in_map_iff. split.
  - intros (m & Hm & E). apply streq_eq in E. exists m. split; assumption.
  - intros (m & E & Hm). exists m. split; [assumption|]. apply streq_eq, E.
Qed.

Lemma define_macro2_spec (nm val : text) (w : Submission2.world) :
  Submission2.define_macro nm val w =
    if bound (Submission2.table w) nm
    then Exits EXIT_FAILURE
           (Submission2.mkWorld (Submission2.table w) (Submission2.stdout w)
              (Submission2.stderr w ++ [MacroAlreadyDefined nm]))
    else Returns tt
           (Submission2.mkWorld (mkMacro nm val :: Submission2.table w)
              (Submission2.stdout w) (Submission2.stderr w)).
Proof.
  rewrite bound_lookup. unfold Submission2.define_macro, bind, gets.
  destruct (lookup_macro (Submission2.table w) nm); reflexivity.
Qed.

Lemma define_macro1_spec (nm val : text) (w : Submission.world) :
  Submission.g_errorOccurred w = false ->
  Submission.define_macro nm val w =
    if Submission.is_builtin nm then Returns tt w
    else if bound (Submission.table w) nm
    then Exits 0
           (Submission.mkWorld (Submission.table w) true (Submission.g_outputBuffer w)
              (Submission.stdout w) (Submission.stderr w ++ [MacroAlreadyDefined nm]))
    else Returns tt (Submission.set_table (mkMacro nm val :: Submission.table w) w).
Proof.
  intro Hflag. rewrite bound_lookup. unfold Submission.define_macro.
  destruct (Submission.is_builtin nm); [reflexivity|].
  unfold bind, gets.
  destruct (lookup_macro (Submission.table w) nm); [|reflexivity].
  unfold Submission.raise_error, bind, modify, exit. rewrite Hflag. reflexivity.
Qed.

(** C6, as the programs have it.  [define_macro] on a name that is bound
    prints "Macro ... already defined" (a [DuplicateMacro] error) and exits;
    on a name that is not bound it puts the binding at the head of the table,
    except that [submission] returns without adding anything when the name is
    one of the six builtins.  Expanding [\def{A}{1}\def{A}{2}] fails with
    [DuplicateMacro] in both programs. *)
Theorem define_macro_duplicate_or_add (nm val : text)
    (w1 : Submission.world) (w2 : Submission2.world) :
  Submission.g_errorOccurred w1 = false ->
  Submission2.define_macro nm val w2 =
    (if bound (Submission2.table w2) nm
     then Exits EXIT_FAILURE
            (Submission2.mkWorld (Submission2.table w2) (Submission2.stdout w2)
               (Submission2.stderr w2 ++ [MacroAlreadyDefined nm]))
     else Returns tt
            (Submission2.mkWorld (mkMacro nm val :: Submission2.table w2)
               (Submission2.stdout w2) (Submission2.stderr w2)))
  /\ Submission.define_macro nm val w1 =
    (if Submission.is_builtin nm then Returns tt w1
     else if bound (Submission.table w1) nm
     then Exits 0
            (Submission.mkWorld (Submission.table w1) true (Submission.g_outputBuffer w1)
               (Submission.stdout w1) (Submission.stderr w1 ++ [MacroAlreadyDefined nm]))
     else Returns tt (Submission.set_table (mkMacro nm val :: Submission.table w1) w1))
  /\ kind_of (MacroAlreadyDefined nm) = DuplicateMacro
  /\ (forall fuel, 2 <= fuel ->
        Submission2.expand_main fuel (str "\def{A}{1}\def{A}{2}")
        = Exits EXIT_FAILURE
            (Submission2.mkWorld [mkMacro (str "A") (str "1")] []
               [MacroAlreadyDefined (str "A")])
        /\ Submission.expand_main fuel (str "\def{A}{1}\def{A}{2}")
        = Exits 0
            (Submission.mkWorld [mkMacro (str "A") (str "1")] true [] []
               [MacroAlreadyDefined (str "A")])).
Proof.
  intro Hflag. split; [apply define_macro2_spec|].
  split; [apply define_macro1_spec, Hflag|].
  split; [reflexivity|].
  intros fuel Hfuel. split; run_with 2.
Qed.

Lemma define_macro_duplicate_or_add_witness :
  Submission2.define_macro (str "A") (str "2")
    (Submission2.mkWorld [mkMacro (str "A") (str "1")] [] [])
  = Exits EXIT_FAILURE
      (Submission2.mkWorld [mkMacro (str "A") (str "1")] [] [MacroAlreadyDefined (str "A")])
  /\ Submission.define_macro (str "B") (str "2")
       (Submission.mkWorld [mkMacro (str "A") (str "1")] false [] [] [])
  = Returns tt
      (Submission.mkWorld [mkMacro (str "B") (str "2"); mkMacro (str "A") (str "1")]
         false [] [] []).
Proof.
  pose proof (define_macro_duplicate_or_add (str "A") (str "2")
                Submission.initial
                (Submission2.mkWorld [mkMacro (str "A") (str "1")] [] [])
                eq_refl) as (H2 & _).
  pose proof (define_macro_duplicate_or_add (str "B") (str "2")
                (Submission.mkWorld [mkMacro (str "A") (str "1")] false [] [] [])
                (Submission2.mkWorld [] [] [])
                eq_refl) as (_ & H1 & _).
  split; [exact H2 | exact H1].
Defined.

(** Counterexample for C6, which as claimed fails in [submission]: [if] is not bound in the empty table,
    yet defining it adds no binding; after [\def{if}{x}] the name [if] is
    still undefined for [\ifdef]. *)
Lemma define_macro_ignores_builtin :
  bound (Submission.table Submission.initial) (str "if") = false
  /\ Submission.define_macro (str "if") (str "x") Submission.initial
     = Returns tt Submission.initial
  /\ Submission.expand_main 9 (str "\def{if}{x}\ifdef{if}{yes}{no}")
     = Returns tt (Submission.mkWorld [] false (str "no") (str "no") []).
Proof. repeat split. Qed.

(** ** The argument reader *)

Lemma never_closed_depth (body : text) :
  never_closed body -> (0 < brace_depth body)%Z.
Proof.
  intro H. specialize (H (List.length body)). rewrite firstn_all in H. exact H.
Qed.

Lemma readArg2_unbalanced_iff (p body : text) (w : Submission2.world) :
  skip_spaces p = "{" :: body ->
  never_closed body <->
  Submission2.readArg p w
  = Exits EXIT_FAILURE
      (Submission2.mkWorld (Submission2.table w) (Submission2.stdout w)
         (Submission2.stderr w ++ [UnbalancedBracesInArgument])).
Proof.
  intro Hp. unfold Submission2.readArg. rewrite Hp.
  change 1%Z with (brace_depth []). change false with (escaping false []).
  split.
  - intro H. rewrite readArg_loop_open by exact H.
    pose proof (never_closed_depth body H) as Hd.
    change ([] ++ body) with body.
    destruct (brace_depth body =? 0)%Z eqn:E; [apply Z.eqb_eq in E; lia|].
    reflexivity.
  - intro H.
    destruct (Submission2.readArg_loop body (brace_depth []) (escaping false []) [])
      as [[p' d] buf] eqn:E.
    apply readArg_loop_inv in E; [|reflexivity].
    destruct E as [(Hd & _) | (Hd & _ & _ & _ & Hn)].
    + subst d. discriminate H.
    + exact Hn.
Qed.

Lemma readArg1_unbalanced_iff (p body : text) (w : Submission.world) :
  Submission.g_errorOccurred w = false ->
  skip_spaces p = "{" :: body ->
  never_closed body <->
  Submission.readArg p w
  = Exits 0
      (Submission.mkWorld (Submission.table w) true (Submission.g_outputBuffer w)
         (Submission.stdout w) (Submission.stderr w ++ [UnbalancedBracesInArgument])).
Proof.
  intros Hflag Hp. unfold Submission.readArg. rewrite Hp.
  rewrite readArg_loop_same by lia.
  change 1%Z with (brace_depth []). change (Z.odd 0) with (escaping false []).
  split.
  - intro H. rewrite readArg_loop_open by exact H.
    pose proof (never_closed_depth body H) as Hd.
    change ([] ++ body) with body.
    destruct (brace_depth body =? 0)%Z eqn:E; [apply Z.eqb_eq in E; lia|].
    unfold negb, Submission.raise_error, bind, modify, exit. rewrite Hflag. reflexivity.
  - intro H.
    destruct (Submission2.readArg_loop body (brace_depth []) (escaping false []) [])
      as [[p' d] buf] eqn:E.
    apply readArg_loop_inv in E; [|reflexivity].
    destruct E as [(Hd & _) | (Hd & _ & _ & _ & Hn)].
    + subst d. discriminate H.
    + exact Hn.
Qed.

(** C9. When the cursor, after optional white space, stands at an opening
    brace and the input after that brace ends before the brace depth is back
    at 0, [readArg] prints "unbalanced braces in argument" (an
    [UnbalancedBraces] error) and exits, in both programs; and it exits in
    that way only then, so that an argument is returned only when the depth
    came back to 0.  Expanding [\def{A}{x] fails with [UnbalancedBraces]. *)
Theorem readArg_unbalanced (p body : text)
    (w1 : Submission.world) (w2 : Submission2.world) :
  Submission.g_errorOccurred w1 = false ->
  skip_spaces p = "{" :: body ->
  (never_closed body <->
   Submission2.readArg p w2
   = Exits EXIT_FAILURE
       (Submission2.mkWorld (Submission2.table w2) (Submission2.stdout w2)
          (Submission2.stderr w2 ++ [UnbalancedBracesInArgument])))
  /\ (never_closed body <->
      Submission.readArg p w1
      = Exits 0
          (Submission.mkWorld (Submission.table w1) true (Submission.g_outputBuffer w1)
             (Submission.stdout w1) (Submission.stderr w1 ++ [UnbalancedBracesInArgument])))
  /\ kind_of UnbalancedBracesInArgument = UnbalancedBraces
  /\ (forall fuel, 1 <= fuel ->
        Submission2.expand_main fuel (str "\def{A}{x")
        = Exits EXIT_FAILURE (Submission2.mkWorld [] [] [UnbalancedBracesInArgument])
        /\ Submission.expand_main fuel (str "\def{A}{x")
        = Exits 0 (Submission.mkWorld [] true [] [] [UnbalancedBracesInArgument])).
Proof.
  intros Hflag Hp.
  split; [apply readArg2_unbalanced_iff, Hp|].
  split; [apply readArg1_unbalanced_iff; assumption|].
  split; [reflexivity|].
  intros fuel Hfuel. split; run_with 1.
Qed.

Lemma readArg_unbalanced_witness :
  Submission2.readArg (str "  {a{b}\}") (Submission2.mkWorld [] [] [])
  = Exits EXIT_FAILURE (Submission2.mkWorld [] [] [UnbalancedBracesInArgument])
  /\ Submission.readArg (str "  {a{b}\}") Submission.initial
  = Exits 0 (Submission.mkWorld [] true [] [] [UnbalancedBracesInArgument]).
Proof.
  assert (H : never_closed (str "a{b}\}")).
  { intro n. do 7 (destruct n as [|n]; [vm_compute; reflexivity|]).
    vm_compute; reflexivity. }
  pose proof (readArg_unbalanced (str "  {a{b}\}") (str "a{b}\}")
                Submission.initial (Submission2.mkWorld [] [] [])
                eq_refl eq_refl) as (H2 & H1 & _).
  split; [apply H2, H | apply H1, H].
Defined.

(** The loop reads a text inside which the depth stays positive and comes
    out with the depth, the escape state and the copy of that text. *)
Lemma readArg_loop_prefix (a pre post : text) :
  (forall n, 0 < brace_depth (pre ++ firstn n a))%Z ->
  Submission2.readArg_loop (a ++ post) (brace_depth pre) (escaping false pre) pre
  = Submission2.readArg_loop post (brace_depth (pre ++ a))
      (escaping false (pre ++ a)) (pre ++ a).
Proof.
  revert pre; induction a as [|c a IH]; intros pre H.
  - simpl. rewrite app_nil_r. reflexivity.
  - assert (Hpre : (0 < brace_depth pre)%Z).
    { specialize (H 0%nat). simpl in H. rewrite app_nil_r in H. exact H. }
    simpl app. rewrite readArg_loop_step by exact Hpre.
    assert (H1 : (0 < brace_depth (pre ++ [c]))%Z) by apply (H 1%nat).
    apply Z.ltb_lt in H1. rewrite H1.
    rewrite IH.
    + rewrite <- app_assoc. reflexivity.
    + intro n. rewrite <- firstn_snoc. apply H.
Qed.

Lemma readArg2_returns (p arg rest : text) (w w' : Submission2.world) :
  Submission2.readArg p w = Returns (Some arg, rest) w' ->
  skip_spaces p = "{" :: arg ++ "}" :: rest /\ balanced arg = true /\ w' = w.
Proof.
  unfold Submission2.readArg. intro H.
  destruct (skip_spaces p) as [|c body] eqn:Hp; [discriminate H|].
  destruct (c =? "{") eqn:Ec.
  2:{ exfalso. destruct c as [[] [] [] [] [] [] [] []]; try discriminate H.
      discriminate Ec. }
  apply Ascii.eqb_eq in Ec; subst c.
  destruct (Submission2.readArg_loop body 1 false []) as [[p' d] buf] eqn:E.
  change 1%Z with (brace_depth []) in E. change false with (escaping false []) in E.
  apply readArg_loop_inv in E; [|reflexivity].
  destruct E as [(Hd & a & Hb & Hbuf & Hn & Hd1 & He) | (Hd & _)].
  - subst d. simpl in H. injection H as -> -> ->. simpl in Hbuf; subst a.
    split; [rewrite Hb; reflexivity|]. split; [|reflexivity].
    apply balanced_spec. auto.
  - destruct (d =? 0)%Z eqn:E0; [apply Z.eqb_eq in E0; lia|]. discriminate H.
Qed.

Lemma readArg1_returns (p arg rest : text) (w w' : Submission.world) :
  Submission.readArg p w = Returns (arg, rest) w' ->
  skip_spaces p = "{" :: arg ++ "}" :: rest /\ balanced arg = true /\ w' = w.
Proof.
  unfold Submission.readArg. intro H.
  destruct (skip_spaces p) as [|c body] eqn:Hp; [discriminate H|].
  destruct (c =? "{") eqn:Ec.
  2:{ exfalso. destruct c as [[] [] [] [] [] [] [] []]; try discriminate H.
      discriminate Ec. }
  apply Ascii.eqb_eq in Ec; subst c.
  rewrite readArg_loop_same in H by lia.
  destruct (Submission2.readArg_loop body 1 (Z.odd 0) []) as [[p' d] buf] eqn:E.
  change 1%Z with (brace_depth []) in E. change (Z.odd 0) with (escaping false []) in E.
  apply readArg_loop_inv in E; [|reflexivity].
  destruct E as [(Hd & a & Hb & Hbuf & Hn & Hd1 & He) | (Hd & _)].
  - subst d. simpl in H. injection H as -> -> ->. simpl in Hbuf; subst a.
    split; [rewrite Hb; reflexivity|]. split; [|reflexivity].
    apply balanced_spec. auto.
  - destruct (d =? 0)%Z eqn:E0; [apply Z.eqb_eq in E0; lia|]. discriminate H.
Qed.

Lemma firstn_succ_nth (s : text) (n : nat) (c : ascii) :
  nth_error s n = Some c -> firstn (S n) s = firstn n s ++ [c].
Proof.
  revert n; induction s as [|x s IH]; intros [|n] H; simpl in *; try discriminate.
  - injection H as ->. reflexivity.
  - rewrite (IH n H). reflexivity.
Qed.

(** C10. When [readArg] returns an argument, in either program: the argument
    is, character for character, the input between the opening brace and its
    closing brace, so every backslash escape is copied with its backslash;
    the closing brace is consumed and is not part of the argument; the brace
    depth, on which escaped characters do not count, stays positive inside
    the argument and the closing brace is unescaped; after any [n] characters
    the loop holds that depth, that escape state and a copy of those
    characters; and a character that is escaped leaves the depth as it was. *)
Theorem readArg_keeps_escapes (p arg rest : text)
    (w1 w1' : Submission.world) (w2 w2' : Submission2.world) :
  Submission2.readArg p w2 = Returns (Some arg, rest) w2'
  \/ Submission.readArg p w1 = Returns (arg, rest) w1' ->
  skip_spaces p = "{" :: arg ++ "}" :: rest
  /\ (forall n, 0 < brace_depth (firstn n arg))%Z
  /\ brace_depth arg = 1%Z
  /\ escaping false arg = false
  /\ (forall n,
        Submission2.readArg_loop (arg ++ "}" :: rest) 1 false []
        = Submission2.readArg_loop (skipn n arg ++ "}" :: rest)
            (brace_depth (firstn n arg)) (escaping false (firstn n arg)) (firstn n arg)
        /\ Submission.readArg_loop (arg ++ "}" :: rest) 1 0 []
           = Submission2.readArg_loop (skipn n arg ++ "}" :: rest)
               (brace_depth (firstn n arg)) (escaping false (firstn n arg)) (firstn n arg))
  /\ (forall n c, nth_error arg n = Some c ->
        escaping false (firstn n arg) = true ->
        brace_depth (firstn (S n) arg) = brace_depth (firstn n arg)).
Proof.
  intro H.
  assert (Hret : skip_spaces p = "{" :: arg ++ "}" :: rest /\ balanced arg = true).
  { destruct H as [H|H].
    - apply readArg2_returns in H. tauto.
    - apply readArg1_returns in H. tauto. }
  destruct Hret as (Hp & Hb). apply balanced_spec in Hb as (Hn & Hd & He).
  repeat (split; [assumption|]).
  split.
  - intro n.
    assert (E : Submission2.readArg_loop (arg ++ "}" :: rest) 1 false []
                = Submission2.readArg_loop (skipn n arg ++ "}" :: rest)
                    (brace_depth (firstn n arg)) (escaping false (firstn n arg))
                    (firstn n arg)).
    { rewrite <- (firstn_skipn n arg) at 1. rewrite <- app_assoc.
      change 1%Z with (brace_depth []). change false with (escaping false []) at 1.
      rewrite readArg_loop_prefix; [reflexivity|].
      intro m. simpl. rewrite firstn_firstn. apply Hn. }
    split; [exact E|].
    rewrite readArg_loop_same by lia. exact E.
  - intros n c Hc Hesc.
    rewrite (firstn_succ_nth _ _ _ Hc), brace_depth_snoc, Hesc. lia.
Qed.

Lemma readArg_keeps_escapes_witness :
  skip_spaces (str " {a\}\\{b}}c") = "{" :: str "a\}\\{b}" ++ "}" :: str "c"
  /\ brace_depth (str "a\}\\{b}") = 1%Z.
Proof.
  pose proof (readArg_keeps_escapes (str " {a\}\\{b}}c") (str "a\}\\{b}") (str "c")
                Submission.initial Submission.initial
                (Submission2.mkWorld [] [] []) (Submission2.mkWorld [] [] [])
                (or_introl eq_refl)) as (H1 & _ & H2 & _).
  split; [exact H1 | exact H2].
Defined.

(** ** Builtins with balanced arguments *)

Lemma bind_assoc {W A B C} (m : M W A) (f : A -> M W B) (g : B -> M W C) (w : W) :
  bind (bind m f) g w = bind m (fun a => bind (f a) g) w.
Proof. unfold bind. destruct (m w); reflexivity. Qed.

(** One call of the expander on an input that starts with given characters:
    the dispatch is computed, the reads of the arguments and the calls of the
    expander stay. *)
Ltac enter_expand2 fopen fuel :=
  change (Submission2.expand_text_impl fopen (S fuel))
    with (Submission2.expand_text_step fopen (Submission2.expand_text_impl fopen fuel));
  unfold Submission2.expand_text_step;
  cbn [str list_ascii_of_string app];
  lazy -[app Submission2.readArg Submission2.expand_text_impl bind].

Ltac enter_expand1 fopen fuel Hflag :=
  change (Submission.expand_text_impl fopen (S fuel))
    with (Submission.expand_text_step fopen (Submission.expand_text_impl fopen fuel));
  unfold Submission.expand_text_step;
  cbn [str list_ascii_of_string app];
  unfold bind at 1, gets at 1; rewrite Hflag;
  lazy -[app Submission.readArg Submission.expand_text_impl
         Submission.expand_string_fully_with bind].

Ltac read_balanced2 :=
  unfold bind at 1; rewrite readArg2_balanced by assumption.

Ltac read_balanced1 :=
  unfold bind at 1; rewrite readArg1_balanced by assumption.

Section Builtins.
Variable fopen : text -> option text.

Lemma if_expands_branch2 (fuel : nat) (cond thenA elseA rest : text)
    (sk : Submission2.sink) (w : Submission2.world) :
  balanced cond = true -> balanced thenA = true -> balanced elseA = true ->
  Submission2.expand_text_impl fopen (S fuel)
    (str "\if{" ++ cond ++ str "}{" ++ thenA ++ str "}{" ++ elseA ++ "}" :: rest) sk w
  = (sk' <- Submission2.expand_text_impl fopen fuel
              (match cond with [] => elseA | _ => thenA end) sk ;;
     Submission2.expand_text_impl fopen fuel rest sk')%run w.
Proof.
  intros Hc Ht He. enter_expand2 fopen fuel.
  do 3 read_balanced2. reflexivity.
Qed.

Lemma if_expands_branch1 (fuel : nat) (cond thenA elseA rest : text)
    (w : Submission.world) :
  Submission.g_errorOccurred w = false ->
  balanced cond = true -> balanced thenA = true -> balanced elseA = true ->
  Submission.expand_text_impl fopen (S fuel)
    (str "\if{" ++ cond ++ str "}{" ++ thenA ++ str "}{" ++ elseA ++ "}" :: rest) w
  = (Submission.expand_text_impl fopen fuel
       (match cond with [] => elseA | _ => thenA end) ;;
     Submission.expand_text_impl fopen fuel rest)%run w.
Proof.
  intros Hflag Hc Ht He. enter_expand1 fopen fuel Hflag.
  do 3 read_balanced1. reflexivity.
Qed.

Lemma expandafter_after_first2 (fuel : nat) (before after rest : text)
    (sk : Submission2.sink) (w : Submission2.world) :
  balanced before = true -> balanced after = true ->
  Submission2.expand_text_impl fopen (S fuel)
    (str "\expandafter{" ++ before ++ str "}{" ++ after ++ "}" :: rest) sk w
  = (S <- Submission2.expand_text_into_string fopen fuel after ;;
     sk' <- Submission2.expand_text_impl fopen fuel (before ++ S) sk ;;
     Submission2.expand_text_impl fopen fuel rest sk')%run w.
Proof.
  intros Hb Ha. enter_expand2 fopen fuel.
  do 2 read_balanced2.
  unfold bind. destruct (Submission2.expand_text_impl fopen fuel after _ w); reflexivity.
Qed.

Lemma expandafter_after_first1 (fuel : nat) (before after rest : text)
    (w : Submission.world) :
  Submission.g_errorOccurred w = false ->
  balanced before = true -> balanced after = true ->
  Submission.expand_text_impl fopen (S fuel)
    (str "\expandafter{" ++ before ++ str "}{" ++ after ++ "}" :: rest) w
  = (S <- Submission.expand_string_fully fopen fuel after ;;
     B <- Submission.expand_string_fully fopen fuel before ;;
     Submission.expand_text_impl fopen fuel (B ++ S) ;;
     Submission.expand_text_impl fopen fuel rest)%run w.
Proof.
  intros Hflag Hb Ha. enter_expand1 fopen fuel Hflag.
  do 2 read_balanced1. reflexivity.
Qed.
End Builtins.

(** ** [\if] *)

(** C7. For balanced [COND], [THEN] and [ELSE], one call of the expander on
    [\if{COND}{THEN}{ELSE}] followed by a continuation expands [ELSE] when
    [COND] is empty and [THEN] otherwise, into the current output, and then
    expands the continuation; [COND] is only tested for emptiness, it is
    never expanded (an undefined macro in it is no error).  Both programs do
    so.  [\if{}{T}{E}] yields [E] and [\if{x}{T}{E}] yields [T]. *)
Theorem if_branches_on_raw_condition (fopen : text -> option text) (fuel : nat)
    (cond thenA elseA rest : text)
    (w1 : Submission.world) (sk : Submission2.sink) (w2 : Submission2.world) :
  balanced cond = true -> balanced thenA = true -> balanced elseA = true ->
  Submission.g_errorOccurred w1 = false ->
  Submission.expand_text_impl fopen (S fuel)
    (str "\if{" ++ cond ++ str "}{" ++ thenA ++ str "}{" ++ elseA ++ "}" :: rest) w1
  = (Submission.expand_text_impl fopen fuel
       (match cond with [] => elseA | _ => thenA end) ;;
     Submission.expand_text_impl fopen fuel rest)%run w1
  /\ Submission2.expand_text_impl fopen (S fuel)
       (str "\if{" ++ cond ++ str "}{" ++ thenA ++ str "}{" ++ elseA ++ "}" :: rest) sk w2
     = (sk' <- Submission2.expand_text_impl fopen fuel
                 (match cond with [] => elseA | _ => thenA end) sk ;;
        Submission2.expand_text_impl fopen fuel rest sk')%run w2
  /\ (forall n, 3 <= n ->
        Submission.expand_main n (str "\if{}{T}{E}")
        = Returns tt (Submission.mkWorld [] false (str "E") (str "E") [])
        /\ Submission2.expand_main n (str "\if{}{T}{E}")
           = Returns Submission2.out_char_stdout (Submission2.mkWorld [] (str "E") [])
        /\ Submission.expand_main n (str "\if{x}{T}{E}")
           = Returns tt (Submission.mkWorld [] false (str "T") (str "T") [])
        /\ Submission2.expand_main n (str "\if{x}{T}{E}")
           = Returns Submission2.out_char_stdout (Submission2.mkWorld [] (str "T") [])
        /\ Submission.expand_main n (str "\if{\undefined{x}}{T}{E}")
           = Returns tt (Submission.mkWorld [] false (str "T") (str "T") [])
        /\ Submission2.expand_main n (str "\if{\undefined{x}}{T}{E}")
           = Returns Submission2.out_char_stdout (Submission2.mkWorld [] (str "T") [])).
Proof.
  intros Hc Ht He Hflag.
  split; [apply if_expands_branch1; assumption|].
  split; [apply if_expands_branch2; assumption|].
  intros n Hn. repeat split; run_with 3.
Qed.

Lemma if_branches_on_raw_condition_witness :
  Submission2.expand_text_impl (fun _ => None) 4 (str "\if{\a{}}{\\}{E}.") 
    Submission2.out_char_stdout (Submission2.mkWorld [] [] [])
  = Returns Submission2.out_char_stdout (Submission2.mkWorld [] (str "\.") []).
Proof.
  pose proof (if_branches_on_raw_condition (fun _ => None) 3
                (str "\a{}") (str "\\") (str "E") (str ".")
                Submission.initial Submission2.out_char_stdout
                (Submission2.mkWorld [] [] [])
                eq_refl eq_refl eq_refl eq_refl) as (_ & H & _).
  etransitivity; [exact H|]. vm_compute. reflexivity.
Defined.

(** ** [\expandafter] *)

(** C1, as the programs have it.  For balanced [BEFORE] and [AFTER], one
    call of the expander on [\expandafter{BEFORE}{AFTER}] followed by a
    continuation first expands [AFTER] alone into a buffer of its own, with
    the table the run has at that point, giving [S].  [submission2] then
    expands the unexpanded [BEFORE] followed by [S] into the current output;
    [submission] first expands [BEFORE] alone into a second buffer, giving
    [B], and then expands [B] followed by [S].  Both expand the continuation
    last. *)
Theorem expandafter_expands_after_first (fopen : text -> option text) (fuel : nat)
    (before after rest : text)
    (w1 : Submission.world) (sk : Submission2.sink) (w2 : Submission2.world) :
  balanced before = true -> balanced after = true ->
  Submission.g_errorOccurred w1 = false ->
  Submission2.expand_text_impl fopen (S fuel)
    (str "\expandafter{" ++ before ++ str "}{" ++ after ++ "}" :: rest) sk w2
  = (S <- Submission2.expand_text_into_string fopen fuel after ;;
     sk' <- Submission2.expand_text_impl fopen fuel (before ++ S) sk ;;
     Submission2.expand_text_impl fopen fuel rest sk')%run w2
  /\ Submission.expand_text_impl fopen (S fuel)
       (str "\expandafter{" ++ before ++ str "}{" ++ after ++ "}" :: rest) w1
     = (S <- Submission.expand_string_fully fopen fuel after ;;
        B <- Submission.expand_string_fully fopen fuel before ;;
        Submission.expand_text_impl fopen fuel (B ++ S) ;;
        Submission.expand_text_impl fopen fuel rest)%run w1.
Proof.
  intros Hb Ha Hflag. split.
  - apply expandafter_after_first2; assumption.
  - apply expandafter_after_first1; assumption.
Qed.

Lemma expandafter_expands_after_first_witness :
  Submission2.expand_text_impl (fun _ => None) 9
    (str "\expandafter{\def{B}}{{x}}\B{}")
    Submission2.out_char_stdout (Submission2.mkWorld [] [] [])
  = Returns Submission2.out_char_stdout
      (Submission2.mkWorld [mkMacro (str "B") (str "x")] (str "x") []).
Proof.
  pose proof (expandafter_expands_after_first (fun _ => None) 8
                (str "\def{B}") (str "{x}") (str "\B{}")
                Submission.initial Submission2.out_char_stdout
                (Submission2.mkWorld [] [] [])
                eq_refl eq_refl eq_refl) as (H & _).
  etransitivity; [exact H|]. vm_compute. reflexivity.
Defined.

(** Counterexample for C1, which as claimed fails in [submission]: on [\expandafter{\\\\}{}] the claim
    asks for the expansion of the unexpanded [BEFORE], two backslashes, but
    the program expands [BEFORE] twice and prints one. *)
Lemma expandafter_expands_before_twice :
  Submission.expand_text_impl (fun _ => None) 5 (str "\expandafter{\\\\}{}")
    Submission.initial
  = Returns tt (Submission.mkWorld [] false (str "\") [] [])
  /\ expandafter_as_specified (fun _ => None) 4 (str "\\\\") [] []
       Submission.initial
     = Returns tt (Submission.mkWorld [] false (str "\\") [] [])
  /\ Submission.expand_main 5 (str "\expandafter{\\\\}{}")
     = Returns tt (Submission.mkWorld [] false (str "\") (str "\") []).
Proof. repeat split; vm_compute; reflexivity. Qed.

(** ** A name that no brace follows *)

Lemma readMacroName_app (nm rest : text) :
  all_alnum nm = true -> ends_name rest = true ->
  readMacroName (nm ++ rest) = (nm, rest).
Proof.
  intros Hn Hr. induction nm as [|c nm IH]; cbn [readMacroName app].
  - destruct rest as [|c rest]; [reflexivity|].
    cbn [ends_name] in Hr. apply negb_true_iff in Hr.
    cbn [readMacroName]. rewrite Hr. reflexivity.
  - cbn [all_alnum forallb] in Hn. apply andb_true_iff in Hn as [Hc Hn].
    rewrite Hc, (IH Hn). reflexivity.
Qed.

Lemma skip_spaces_idem (p : text) : skip_spaces (skip_spaces p) = skip_spaces p.
Proof.
  induction p as [|c p IH]; cbn [skip_spaces]; [reflexivity|].
  destruct (isspace c) eqn:E; [exact IH|]. cbn [skip_spaces]. rewrite E. reflexivity.
Qed.

Lemma no_brace_cases (p : text) :
  starts_with_brace p = false ->
  p = [] \/ exists c p', p = c :: p' /\ (c =? "{") = false.
Proof.
  destruct p as [|c p']; [left; reflexivity|].
  intro H. right. exists c, p'. split; [reflexivity|exact H].
Qed.

Lemma readArg2_none (p : text) (w : Submission2.world) :
  starts_with_brace (skip_spaces p) = false ->
  Submission2.readArg p w = Returns (None, skip_spaces p) w.
Proof.
  intro H. unfold Submission2.readArg.
  destruct (no_brace_cases _ H) as [-> | (c & p' & -> & Hc)]; [reflexivity|].
  destruct c as [[] [] [] [] [] [] [] []]; try reflexivity. discriminate Hc.
Qed.

Section NoBrace.
Variable fopen : text -> option text.

Lemma name_without_brace2 (fuel : nat) (c1 : ascii) (nm' rest : text)
    (sk : Submission2.sink) (w : Submission2.world) :
  all_alnum (c1 :: nm') = true -> ends_name rest = true ->
  starts_with_brace (skip_spaces rest) = false ->
  Submission2.expand_text_impl fopen (S fuel) ("\" :: (c1 :: nm') ++ rest) sk w
  = Exits EXIT_FAILURE
      (Submission2.mkWorld (Submission2.table w) (Submission2.stdout w)
         (Submission2.stderr w
            ++ [diagnostic_without_brace (Submission2.table w) (c1 :: nm')])).
Proof.
  intros Hn Hr Hb.
  assert (Hc1 : isalnum c1 = true)
    by (cbn [all_alnum forallb] in Hn; apply andb_true_iff in Hn; tauto).
  change (Submission2.expand_text_impl fopen (S fuel))
    with (Submission2.expand_text_step fopen (Submission2.expand_text_impl fopen fuel)).
  unfold Submission2.expand_text_step.
  cbn [app]. change ("\" =? "\") with true. cbv iota.
  rewrite (alnum_not_special c1 Hc1), Hc1.
  change (c1 :: nm' ++ rest) with ((c1 :: nm') ++ rest).
  rewrite (readMacroName_app _ _ Hn Hr).
  unfold diagnostic_without_brace.
  assert (Hb' : starts_with_brace (skip_spaces (skip_spaces rest)) = false)
    by (rewrite skip_spaces_idem; exact Hb).
  assert (Hb'' : starts_with_brace (skip_spaces (skip_spaces (skip_spaces rest))) = false)
    by (rewrite skip_spaces_idem; exact Hb').
  repeat match goal with
  | |- context [if streq ?a ?b then _ else _] => destruct (streq a b)
  end;
  unfold bind;
  repeat first [ rewrite (readArg2_none _ _ Hb) | rewrite (readArg2_none _ _ Hb')
               | rewrite (readArg2_none _ _ Hb'') ];
  try reflexivity.
  unfold gets. destruct (lookup_macro (Submission2.table w) (c1 :: nm')); [|reflexivity].
  rewrite (readArg2_none _ _ Hb). reflexivity.
Qed.
End NoBrace.

Lemma append_char_to_output_spec (c : ascii) (w : Submission.world) :
  Submission.g_errorOccurred w = false ->
  Submission.append_char_to_output c w
  = Returns tt (Submission.set_outputBuffer (Submission.g_outputBuffer w ++ [c]) w).
Proof.
  intro H. unfold Submission.append_char_to_output, modify. rewrite H. reflexivity.
Qed.

Lemma append_string_to_output_spec (s : text) (w : Submission.world) :
  Submission.g_errorOccurred w = false ->
  Submission.append_string_to_output s w
  = Returns tt (Submission.set_outputBuffer (Submission.g_outputBuffer w ++ s) w).
Proof.
  revert w; induction s as [|c s IH]; intros w H.
  - simpl. rewrite app_nil_r. destruct w; reflexivity.
  - cbn [Submission.append_string_to_output]. unfold bind.
    rewrite append_char_to_output_spec by exact H.
    rewrite IH by exact H.
    destruct w; unfold Submission.set_outputBuffer; simpl.
    rewrite <- app_assoc. reflexivity.
Qed.

Section NoBrace1.
Variable fopen : text -> option text.

Lemma name_without_brace1 (fuel : nat) (c1 : ascii) (nm' rest : text)
    (w : Submission.world) :
  Submission.g_errorOccurred w = false ->
  all_alnum (c1 :: nm') = true -> ends_name rest = true ->
  starts_with_brace (skip_spaces rest) = false ->
  Submission.expand_text_impl fopen (S fuel) ("\" :: (c1 :: nm') ++ rest) w
  = Submission.expand_text_impl fopen fuel (skip_spaces rest)
      (Submission.set_outputBuffer
         (Submission.g_outputBuffer w ++ "\" :: c1 :: nm') w).
Proof.
  intros Hflag Hn Hr Hb.
  assert (Hc1 : isalnum c1 = true)
    by (cbn [all_alnum forallb] in Hn; apply andb_true_iff in Hn; tauto).
  change (Submission.expand_text_impl fopen (S fuel))
    with (Submission.expand_text_step fopen (Submission.expand_text_impl fopen fuel)).
  unfold Submission.expand_text_step.
  unfold bind at 1, gets at 1. rewrite Hflag.
  cbn [app]. change ("\" =? "\") with true. cbv iota.
  rewrite (alnum_not_special c1 Hc1), Hc1.
  change (c1 :: nm' ++ rest) with ((c1 :: nm') ++ rest).
  rewrite (readMacroName_app _ _ Hn Hr).
  destruct (no_brace_cases _ Hb) as [Hq | (c & p' & Hq & Hc)]; rewrite Hq.
  - unfold bind. rewrite append_char_to_output_spec by exact Hflag.
    rewrite append_string_to_output_spec by exact Hflag.
    destruct w; unfold Submission.set_outputBuffer; simpl.
    rewrite <- app_assoc. reflexivity.
  - destruct c as [[] [] [] [] [] [] [] []]; try discriminate Hc;
      (unfold bind; rewrite append_char_to_output_spec by exact Hflag;
       rewrite append_string_to_output_spec by exact Hflag;
       destruct w; unfold Submission.set_outputBuffer; simpl;
       rewrite <- app_assoc; reflexivity).
Qed.
End NoBrace1.

(** White space between a name and the opening brace is skipped. *)
Lemma skip_spaces_gap (gap more : text) :
  forallb isspace gap = true -> skip_spaces (gap ++ "{" :: more) = "{" :: more.
Proof.
  induction gap as [|c gap IH]; intro H; [reflexivity|].
  cbn [forallb] in H. apply andb_true_iff in H as [Hc H].
  cbn [app skip_spaces]. rewrite Hc. apply IH, H.
Qed.

Lemma ends_name_gap (gap more : text) :
  forallb isspace gap = true -> ends_name (gap ++ "{" :: more) = true.
Proof.
  destruct gap as [|c gap]; intro H; [reflexivity|].
  cbn [forallb] in H. apply andb_true_iff in H as [Hc _].
  cbn [app ends_name]. apply negb_true_iff.
  destruct (isalnum c) eqn:E; [|reflexivity].
  apply alnum_not_space in E. congruence.
Qed.

Lemma readArg2_gap (gap more : text) :
  forallb isspace gap = true ->
  Submission2.readArg (gap ++ "{" :: more) = Submission2.readArg ("{" :: more).
Proof.
  intro H. unfold Submission2.readArg.
  rewrite (skip_spaces_gap _ _ H). reflexivity.
Qed.

Section Gap.
Variable fopen : text -> option text.

Lemma gap_before_brace2 (fuel : nat) (c1 : ascii) (nm' gap more : text)
    (sk : Submission2.sink) (w : Submission2.world) :
  all_alnum (c1 :: nm') = true -> forallb isspace gap = true ->
  Submission2.expand_text_impl fopen (S fuel)
    ("\" :: (c1 :: nm') ++ gap ++ "{" :: more) sk w
  = Submission2.expand_text_impl fopen (S fuel)
      ("\" :: (c1 :: nm') ++ "{" :: more) sk w.
Proof.
  intros Hn Hg.
  assert (Hc1 : isalnum c1 = true)
    by (cbn [all_alnum forallb] in Hn; apply andb_true_iff in Hn; tauto).
  change (Submission2.expand_text_impl fopen (S fuel))
    with (Submission2.expand_text_step fopen (Submission2.expand_text_impl fopen fuel)).
  unfold Submission2.expand_text_step.
  cbn [app]. change ("\" =? "\") with true. cbv iota.
  rewrite (alnum_not_special c1 Hc1), Hc1.
  change (c1 :: nm' ++ gap ++ "{" :: more) with ((c1 :: nm') ++ gap ++ "{" :: more).
  change (c1 :: nm' ++ "{" :: more) with ((c1 :: nm') ++ "{" :: more).
  rewrite (readMacroName_app _ _ Hn (ends_name_gap gap more Hg)).
  rewrite (readMacroName_app _ ("{" :: more) Hn eq_refl).
  rewrite (readArg2_gap _ _ Hg). reflexivity.
Qed.

Lemma gap_before_brace1 (fuel : nat) (c1 : ascii) (nm' gap more : text)
    (w : Submission.world) :
  all_alnum (c1 :: nm') = true -> forallb isspace gap = true ->
  Submission.expand_text_impl fopen (S fuel)
    ("\" :: (c1 :: nm') ++ gap ++ "{" :: more) w
  = Submission.expand_text_impl fopen (S fuel)
      ("\" :: (c1 :: nm') ++ "{" :: more) w.
Proof.
  intros Hn Hg.
  assert (Hc1 : isalnum c1 = true)
    by (cbn [all_alnum forallb] in Hn; apply andb_true_iff in Hn; tauto).
  change (Submission.expand_text_impl fopen (S fuel))
    with (Submission.expand_text_step fopen (Submission.expand_text_impl fopen fuel)).
  unfold Submission.expand_text_step.
  cbn [app]. change ("\" =? "\") with true. cbv iota.
  rewrite (alnum_not_special c1 Hc1), Hc1.
  change (c1 :: nm' ++ gap ++ "{" :: more) with ((c1 :: nm') ++ gap ++ "{" :: more).
  change (c1 :: nm' ++ "{" :: more) with ((c1 :: nm') ++ "{" :: more).
  rewrite (readMacroName_app _ _ Hn (ends_name_gap gap more Hg)).
  rewrite (readMacroName_app _ ("{" :: more) Hn eq_refl).
  rewrite (skip_spaces_gap _ _ Hg). reflexivity.
Qed.
End Gap.

(** C4, as the programs have it.  At a backslash followed by a maximal
    alphanumeric run [name]:
    - when the first character after the run that is not white space is not
      an opening brace (or there is none), [submission] puts [\name] into its
      output and goes on at that character, so the white space after the name
      is dropped; it does so for builtin and for defined names alike.
      [submission2] has no such rule: it prints nothing and exits with the
      diagnostic of the branch the name takes;
    - when only white space stands between the run and an opening brace,
      both programs go on as if the brace followed the name at once. *)
Theorem name_without_brace (fopen : text -> option text) (fuel : nat)
    (c1 : ascii) (nm' rest gap more : text)
    (w1 : Submission.world) (sk : Submission2.sink) (w2 : Submission2.world) :
  all_alnum (c1 :: nm') = true -> ends_name rest = true ->
  starts_with_brace (skip_spaces rest) = false ->
  forallb isspace gap = true ->
  Submission.g_errorOccurred w1 = false ->
  Submission.expand_text_impl fopen (S fuel) ("\" :: (c1 :: nm') ++ rest) w1
  = Submission.expand_text_impl fopen fuel (skip_spaces rest)
      (Submission.set_outputBuffer
         (Submission.g_outputBuffer w1 ++ "\" :: c1 :: nm') w1)
  /\ Submission2.expand_text_impl fopen (S fuel) ("\" :: (c1 :: nm') ++ rest) sk w2
     = Exits EXIT_FAILURE
         (Submission2.mkWorld (Submission2.table w2) (Submission2.stdout w2)
            (Submission2.stderr w2
               ++ [diagnostic_without_brace (Submission2.table w2) (c1 :: nm')]))
  /\ Submission.expand_text_impl fopen (S fuel)
       ("\" :: (c1 :: nm') ++ gap ++ "{" :: more) w1
     = Submission.expand_text_impl fopen (S fuel)
         ("\" :: (c1 :: nm') ++ "{" :: more) w1
  /\ Submission2.expand_text_impl fopen (S fuel)
       ("\" :: (c1 :: nm') ++ gap ++ "{" :: more) sk w2
     = Submission2.expand_text_impl fopen (S fuel)
         ("\" :: (c1 :: nm') ++ "{" :: more) sk w2.
Proof.
  intros Hn Hr Hb Hg Hflag.
  split; [apply name_without_brace1; assumption|].
  split; [apply name_without_brace2; assumption|].
  split; [apply gap_before_brace1; assumption|].
  apply gap_before_brace2; assumption.
Qed.

Lemma name_without_brace_witness :
  Submission.expand_text_impl (fun _ => None) 5 (str "\if  x") Submission.initial
  = Returns tt (Submission.mkWorld [] false (str "\ifx") [] [])
  /\ Submission2.expand_text_impl (fun _ => None) 5 (str "\if  x")
       Submission2.out_char_stdout (Submission2.mkWorld [] [] [])
     = Exits EXIT_FAILURE (Submission2.mkWorld [] [] [IfRequires3]).
Proof.
  pose proof (name_without_brace (fun _ => None) 4 "i" (str "f") (str "  x")
                (str " ") [] Submission.initial Submission2.out_char_stdout
                (Submission2.mkWorld [] [] [])
                eq_refl eq_refl eq_refl eq_refl eq_refl) as (H1 & H2 & _).
  split.
  - etransitivity; [exact H1|]. vm_compute. reflexivity.
  - etransitivity; [exact H2|]. vm_compute. reflexivity.
Defined.

(** Counterexample for C4, which as claimed fails in both programs.  On [\foo bar] the claim asks for
    [\foo bar]; [submission] prints [\foobar] and [submission2] reports that
    [foo] is not defined.  On [\foo {x}], where the brace does not follow the
    name at once, the claim asks for [\foo {x}]; both programs take it for an
    invocation of the undefined macro [foo]. *)
Lemma name_without_brace_drops_space :
  Submission.expand_main 10 (str "\foo bar")
  = Returns tt (Submission.mkWorld [] false (str "\foobar") (str "\foobar") [])
  /\ Submission2.expand_main 10 (str "\foo bar")
     = Exits EXIT_FAILURE (Submission2.mkWorld [] [] [MacroNotDefined (str "foo")])
  /\ Submission.expand_main 10 (str "\foo {x}")
     = Exits 0 (Submission.mkWorld [] true [] [] [MacroNotDefined (str "foo")])
  /\ Submission2.expand_main 10 (str "\foo {x}")
     = Exits EXIT_FAILURE (Submission2.mkWorld [] [] [MacroNotDefined (str "foo")]).
Proof. repeat split; vm_compute; reflexivity. Qed.

(** ** Invariants of the runs of [submission2] *)

Section Invariant2.
Import Submission2.
Variable fopen : text -> option text.
Variable Inv : world -> Prop.
Variable Post : nat -> world -> Prop.

(** What the parts that touch the world must keep. *)
Hypothesis out_char_keeps : forall c sk, preserves Inv Post (out_char c sk).
Hypothesis fail_keeps : forall A d, preserves Inv Post (@fail A d).
Hypothesis define_macro_keeps : forall nm val, preserves Inv Post (define_macro nm val).
Hypothesis undef_macro_keeps : forall nm, preserves Inv Post (undef_macro nm).

Lemma readArg2_keeps (p : text) : preserves Inv Post (readArg p).
Proof. unfold readArg. preserves_structure ltac:(apply fail_keeps). Qed.

Lemma read_included_file2_keeps (path : text) :
  preserves Inv Post (read_included_file fopen path).
Proof. unfold read_included_file. preserves_structure ltac:(apply fail_keeps). Qed.

Lemma expand_text_step2_keeps (rec : text -> sink -> run sink) :
  (forall input sk, preserves Inv Post (rec input sk)) ->
  forall input sk, preserves Inv Post (expand_text_step fopen rec input sk).
Proof.
  intros H input sk. unfold expand_text_step.
  preserves_structure
    ltac:(first [ apply H | apply out_char_keeps | apply fail_keeps
                | apply define_macro_keeps | apply undef_macro_keeps
                | apply readArg2_keeps | apply read_included_file2_keeps ]).
Qed.

Lemma expand_text_impl2_keeps (fuel : nat) (input : text) (sk : sink) :
  preserves Inv Post (expand_text_impl fopen fuel input sk).
Proof.
  revert input sk; induction fuel as [|fuel IH]; intros input sk.
  - apply preserves_diverge.
  - apply expand_text_step2_keeps, IH.
Qed.

Lemma read_files2_keeps (paths : list text) :
  preserves Inv Post (read_files fopen paths).
Proof.
  induction paths as [|path paths IH]; cbn [read_files].
  - apply preserves_ret.
  - preserves_structure ltac:(first [apply fail_keeps | apply IH]).
Qed.

Lemma parse_and_expand2_keeps (fuel : nat) (argv : list text) (stdin : text) :
  preserves Inv Post (parse_and_expand fopen fuel argv stdin).
Proof.
  unfold parse_and_expand, read_all_input_and_remove_comments.
  preserves_structure
    ltac:(first [apply expand_text_impl2_keeps | apply read_files2_keeps]).
Qed.
End Invariant2.

(** ** Invariants of the runs of [submission] *)

Section Invariant1.
Import Submission.
Variable fopen : text -> option text.
Variable Inv : world -> Prop.
Variable Post : nat -> world -> Prop.

Hypothesis buffer_keeps : forall w b, Inv w -> Inv (set_outputBuffer b w).
Hypothesis restore_keeps : forall w0 w, Inv w0 -> Inv w ->
  Inv (mkWorld (table w) (g_errorOccurred w0) (g_outputBuffer w0) (stdout w) (stderr w)).
Hypothesis raise_error_keeps : forall A d, preserves Inv Post (@raise_error A d).
Hypothesis define_macro_keeps : forall nm val, preserves Inv Post (define_macro nm val).
Hypothesis undef_macro_keeps : forall nm, preserves Inv Post (undef_macro nm).

Lemma append_char_keeps (c : ascii) : preserves Inv Post (append_char_to_output c).
Proof.
  apply preserves_modify. intros w H.
  destruct (g_errorOccurred w); [exact H | apply buffer_keeps, H].
Qed.

Lemma append_string_keeps (s : text) : preserves Inv Post (append_string_to_output s).
Proof.
  induction s as [|c s IH]; cbn [append_string_to_output].
  - apply preserves_ret.
  - apply preserves_bind; [apply append_char_keeps | intros _; exact IH].
Qed.

Lemma readArg1_keeps (p : text) : preserves Inv Post (readArg p).
Proof. unfold readArg. preserves_structure ltac:(apply raise_error_keeps). Qed.

Lemma read_included_file1_keeps (path : text) :
  preserves Inv Post (read_included_file fopen path).
Proof. unfold read_included_file. preserves_structure ltac:(apply raise_error_keeps). Qed.

Lemma expand_string_fully_keeps (rec : text -> run unit) (input : text) :
  preserves Inv Post (rec input) ->
  preserves Inv Post (expand_string_fully_with rec input).
Proof.
  intros H w0 H0. unfold expand_string_fully_with, bind, gets, modify.
  specialize (H (set_outputBuffer [] w0) (buffer_keeps _ _ H0)).
  destruct (rec input (set_outputBuffer [] w0)) as [[] w|s w|]; try exact H.
  destruct (g_errorOccurred w); cbn; apply restore_keeps; assumption.
Qed.

Lemma expand_text_step1_keeps (rec : text -> run unit) :
  (forall input, preserves Inv Post (rec input)) ->
  forall input, preserves Inv Post (expand_text_step fopen rec input).
Proof.
  intros H input. unfold expand_text_step.
  preserves_structure
    ltac:(first [ apply H | apply append_char_keeps | apply append_string_keeps
                | apply raise_error_keeps
                | apply define_macro_keeps | apply undef_macro_keeps
                | apply readArg1_keeps | apply read_included_file1_keeps
                | apply expand_string_fully_keeps; apply H ]).
Qed.

Lemma expand_text_impl1_keeps (fuel : nat) (input : text) :
  preserves Inv Post (expand_text_impl fopen fuel input).
Proof.
  revert input; induction fuel as [|fuel IH]; intros input.
  - apply preserves_diverge.
  - apply expand_text_step1_keeps, IH.
Qed.

Lemma read_files1_keeps (paths : list text) :
  preserves Inv Post (read_files fopen paths).
Proof.
  induction paths as [|path paths IH]; cbn [read_files].
  - apply preserves_ret.
  - preserves_structure ltac:(first [apply raise_error_keeps | apply IH]).
Qed.
End Invariant1.

(** ** Failing runs *)

Lemma fail_reports (A : Type) (d : diagnostic) :
  preserves quiet2 reported2 (@Submission2.fail A d).
Proof.
  intros w H. unfold Submission2.fail, bind, modify, exit. cbn.
  split; [reflexivity|]. exists d. unfold quiet2 in H. rewrite H. reflexivity.
Qed.

Lemma out_char_quiet (c : ascii) (sk : Submission2.sink) :
  preserves quiet2 reported2 (Submission2.out_char c sk).
Proof. intros w H. destruct sk; exact H. Qed.

Lemma define_macro2_quiet (nm val : text) :
  preserves quiet2 reported2 (Submission2.define_macro nm val).
Proof.
  unfold Submission2.define_macro.
  preserves_structure ltac:(apply fail_reports).
  apply preserves_modify. intros w H. exact H.
Qed.

Lemma undef_macro2_quiet (nm : text) :
  preserves quiet2 reported2 (Submission2.undef_macro nm).
Proof.
  unfold Submission2.undef_macro.
  preserves_structure ltac:(apply fail_reports).
  apply preserves_modify. intros w H. exact H.
Qed.

Lemma raise_error_reports (A : Type) (d : diagnostic) :
  preserves quiet1 reported1 (@Submission.raise_error A d).
Proof.
  intros w (Hflag & Hout & Herr).
  unfold Submission.raise_error, bind, modify, exit. rewrite Hflag. cbn.
  split; [reflexivity|]. split; [exact Hout|]. exists d. rewrite Herr. reflexivity.
Qed.

Lemma define_macro1_quiet (nm val : text) :
  preserves quiet1 reported1 (Submission.define_macro nm val).
Proof.
  unfold Submission.define_macro.
  preserves_structure ltac:(apply raise_error_reports).
  apply preserves_modify. intros w H. exact H.
Qed.

Lemma undef_macro1_quiet (nm : text) :
  preserves quiet1 reported1 (Submission.undef_macro nm).
Proof.
  unfold Submission.undef_macro.
  preserves_structure ltac:(apply raise_error_reports).
  apply preserves_modify. intros w H. exact H.
Qed.

Lemma main2_reports (fopen : text -> option text) (fuel : nat)
    (argv : list text) (stdin : text) :
  match Submission2.main fopen fuel argv stdin with
  | Returns _ w => Submission2.stderr w = []
  | Exits status w => reported2 status w
  | Diverges => True
  end.
Proof.
  apply (parse_and_expand2_keeps fopen quiet2 reported2
           out_char_quiet fail_reports define_macro2_quiet undef_macro2_quiet).
  reflexivity.
Qed.

Lemma main1_reports (fopen : text -> option text) (fuel : nat)
    (argv : list text) (stdin : text) :
  match Submission.main fopen fuel argv stdin with
  | Returns _ w => Submission.stderr w = []
  | Exits status w => reported1 status w
  | Diverges => True
  end.
Proof.
  assert (Hbuf : forall w b, quiet1 w -> quiet1 (Submission.set_outputBuffer b w))
    by (intros w b H; exact H).
  assert (Hres : forall w0 w, quiet1 w0 -> quiet1 w ->
            quiet1 (Submission.mkWorld (Submission.table w) (Submission.g_errorOccurred w0)
                      (Submission.g_outputBuffer w0) (Submission.stdout w)
                      (Submission.stderr w))).
  { intros w0 w (H0 & _) (_ & H1 & H2). repeat split; assumption. }
  assert (Hread : preserves quiet1 reported1
            (Submission.read_all_input_and_remove_comments fopen argv stdin)).
  { unfold Submission.read_all_input_and_remove_comments.
    preserves_structure
      ltac:(apply (read_files1_keeps fopen quiet1 reported1 raise_error_reports)). }
  unfold Submission.main, Submission.parse_and_expand, bind.
  specialize (Hread Submission.initial).
  destruct (Submission.read_all_input_and_remove_comments fopen argv stdin
              Submission.initial) as [input w|s w|]; [|apply Hread; repeat split|exact I].
  assert (Hw : quiet1 w) by (apply Hread; repeat split).
  unfold Submission.expand_and_print, Submission.init_global_output, bind, modify.
  pose proof (expand_text_impl1_keeps fopen quiet1 reported1 Hbuf Hres
                raise_error_reports define_macro1_quiet undef_macro1_quiet
                fuel input (Submission.set_outputBuffer [] w) (Hbuf _ _ Hw)) as He.
  destruct (Submission.expand_text_impl fopen fuel input (Submission.set_outputBuffer [] w))
    as [[] w'|s w'|]; [|exact He|exact I].
  unfold gets. destruct He as (Hf & Ho & Hs). rewrite Hf. exact Hs.
Qed.

(** [submission2] prints text without backslashes as it reads it. *)
Lemma plain_text_printed (fopen : text -> option text) (pre rest : text) (fuel : nat)
    (w : Submission2.world) :
  forallb (fun c => negb (c =? "\")) pre = true ->
  Submission2.expand_text_impl fopen (List.length pre + fuel) (pre ++ rest)
    Submission2.out_char_stdout w
  = Submission2.expand_text_impl fopen fuel rest Submission2.out_char_stdout
      (Submission2.mkWorld (Submission2.table w) (Submission2.stdout w ++ pre)
         (Submission2.stderr w)).
Proof.
  revert w; induction pre as [|c pre IH]; intros w H.
  - cbn [List.length app Nat.add]. rewrite app_nil_r. destruct w; reflexivity.
  - cbn [forallb] in H. apply andb_true_iff in H as [Hc H].
    apply negb_true_iff in Hc.
    cbn [List.length app Nat.add].
    change (Submission2.expand_text_impl fopen (S (List.length pre + fuel)))
      with (Submission2.expand_text_step fopen
              (Submission2.expand_text_impl fopen (List.length pre + fuel))).
    unfold Submission2.expand_text_step. rewrite Hc.
    unfold bind at 1. unfold Submission2.out_char, bind, modify, ret.
    rewrite (IH _ H). cbn [Submission2.table Submission2.stdout Submission2.stderr].
    rewrite <- app_assoc. reflexivity.
Qed.

(** C2, as the programs have it.  Whatever files and standard input a run is
    given, when it fails it has printed exactly one diagnostic to the error
    stream and has exited at once; a run that returns has printed none.
    [submission] exits with status 0 and standard output is empty, since the
    expansion is printed only after it has ended without error.  [submission2]
    exits with [EXIT_FAILURE] and prints as it expands: text without
    backslashes is on standard output before the rest of the input, where
    the error may be, is looked at. *)
Theorem failing_run_reports_once (fopen : text -> option text) (fuel : nat)
    (argv : list text) (stdin : text) (pre rest : text) (w2 : Submission2.world) :
  forallb (fun c => negb (c =? "\")) pre = true ->
  match Submission.main fopen fuel argv stdin with
  | Returns _ w => Submission.stderr w = []
  | Exits status w =>
      status = 0 /\ Submission.stdout w = [] /\ exists d, Submission.stderr w = [d]
  | Diverges => True
  end
  /\ match Submission2.main fopen fuel argv stdin with
     | Returns _ w => Submission2.stderr w = []
     | Exits status w => status = EXIT_FAILURE /\ exists d, Submission2.stderr w = [d]
     | Diverges => True
     end
  /\ Submission2.expand_text_impl fopen (List.length pre + fuel) (pre ++ rest)
       Submission2.out_char_stdout w2
     = Submission2.expand_text_impl fopen fuel rest Submission2.out_char_stdout
         (Submission2.mkWorld (Submission2.table w2) (Submission2.stdout w2 ++ pre)
            (Submission2.stderr w2)).
Proof.
  intro Hpre.
  split; [apply main1_reports|].
  split; [apply main2_reports|].
  apply plain_text_printed, Hpre.
Qed.

Lemma failing_run_reports_once_witness :
  Submission2.expand_text_impl (fun _ => None) 4 (str "abc\undef{X}")
    Submission2.out_char_stdout (Submission2.mkWorld [] [] [])
  = Exits EXIT_FAILURE (Submission2.mkWorld [] (str "abc") [CannotUndefine (str "X")]).
Proof.
  pose proof (failing_run_reports_once (fun _ => None) 1 [] [] (str "abc")
                (str "\undef{X}") (Submission2.mkWorld [] [] []) eq_refl)
    as (_ & _ & H).
  etransitivity; [exact H|]. vm_compute. reflexivity.
Defined.

(** Counterexample for C2, which as claimed fails in [submission2]: on the input [a\undef{X}] the run
    fails, and the [a] expanded before the error is on standard output. *)
Lemma partial_output_before_error :
  Submission2.main (fun _ => None) 3 [] (str "a\undef{X}")
  = Exits EXIT_FAILURE
      (Submission2.mkWorld [] (str "a") [CannotUndefine (str "X")])
  /\ Submission.main (fun _ => None) 3 [] (str "a\undef{X}")
     = Exits 0 (Submission.mkWorld [] true (str "a") [] [CannotUndefine (str "X")]).
Proof. split; vm_compute; reflexivity. Qed.

(** ** The table *)

Lemma unlink_macro_names (tbl tbl' : MacroTable) (nm : text) :
  unlink_macro tbl nm = Some tbl' ->
  (forall x, In x (map name tbl') -> In x (map name tbl))
  /\ (NoDup (map name tbl) -> NoDup (map name tbl')).
Proof.
  revert tbl'; induction tbl as [|m tbl IH]; intros tbl' H; [discriminate|].
  cbn [unlink_macro] in H. destruct (streq (name m) nm).
  - injection H as <-. split.
    + intros x Hx. right. exact Hx.
    + intro Hnd. inversion Hnd; assumption.
  - destruct (unlink_macro tbl nm) as [next'|]; [|discriminate].
    injection H as <-. destruct (IH next' eq_refl) as [Hin Hnd]. split.
    + intros x [Hx|Hx]; [left; exact Hx | right; apply Hin, Hx].
    + cbn [map]. intro H. inversion H as [|? ? Hn Hd]; subst.
      constructor; [intro Hx; apply Hn, Hin, Hx | apply Hnd, Hd].
Qed.

Lemma bound_false_not_In (tbl : MacroTable) (nm : text) :
  bound tbl nm = false <-> ~ In nm (map name tbl).
Proof.
  rewrite <- bound_In. destruct (bound tbl nm); split; congruence.
Qed.

Lemma define_macro2_returns (nm val : text) (w w' : Submission2.world) :
  Submission2.define_macro nm val w = Returns tt w' ->
  bound (Submission2.table w) nm = false
  /\ Submission2.table w' = mkMacro nm val :: Submission2.table w.
Proof.
  rewrite define_macro2_spec.
  destruct (bound (Submission2.table w) nm); [discriminate|].
  intro H. injection H as <-. split; reflexivity.
Qed.

Lemma undef_macro2_returns (nm : text) (w w' : Submission2.world) :
  Submission2.undef_macro nm w = Returns tt w' ->
  unlink_macro (Submission2.table w) nm = Some (Submission2.table w').
Proof.
  unfold Submission2.undef_macro, bind, gets.
  destruct (unlink_macro (Submission2.table w) nm); [|discriminate].
  intro H. injection H as <-. reflexivity.
Qed.

Lemma define_macro1_returns (nm val : text) (w w' : Submission.world) :
  Submission.define_macro nm val w = Returns tt w' ->
  Submission.table w' = Submission.table w
  \/ (Submission.is_builtin nm = false /\ bound (Submission.table w) nm = false
      /\ Submission.table w' = mkMacro nm val :: Submission.table w).
Proof.
  unfold Submission.define_macro.
  destruct (Submission.is_builtin nm) eqn:Eb.
  - intro H. injection H as <-. left. reflexivity.
  - unfold bind, gets. rewrite bound_lookup.
    destruct (lookup_macro (Submission.table w) nm); [discriminate|].
    intro H. injection H as <-. right. repeat split.
Qed.

Lemma undef_macro1_returns (nm : text) (w w' : Submission.world) :
  Submission.undef_macro nm w = Returns tt w' ->
  unlink_macro (Submission.table w) nm = Some (Submission.table w').
Proof.
  unfold Submission.undef_macro, bind, gets.
  destruct (unlink_macro (Submission.table w) nm); [|discriminate].
  intro H. injection H as <-. reflexivity.
Qed.

Lemma reachable2_unique (tbl : MacroTable) : reachable2 tbl -> unique_names tbl.
Proof.
  unfold unique_names. induction 1 as [|nm val w w' _ IH H|nm w w' _ IH H].
  - constructor.
  - apply define_macro2_returns in H as [Hb ->]. cbn [map name].
    constructor; [apply bound_false_not_In, Hb | exact IH].
  - apply undef_macro2_returns, unlink_macro_names in H as [_ H]. apply H, IH.
Qed.

Lemma reachable1_unique (tbl : MacroTable) :
  reachable1 tbl -> unique_names tbl /\ no_builtin_entry tbl.
Proof.
  unfold unique_names, no_builtin_entry.
  induction 1 as [|nm val w w' _ [IH1 IH2] H|nm w w' _ [IH1 IH2] H].
  - split; [constructor | reflexivity].
  - apply define_macro1_returns in H as [-> | (Hb & Hn & ->)]; [split; assumption|].
    split.
    + cbn [map name]. constructor; [apply bound_false_not_In, Hn | exact IH1].
    + intros b Hin. unfold bound. cbn [existsb name].
      fold (bound (Submission.table w) b). rewrite (IH2 b Hin), orb_false_r.
      unfold Submission.is_builtin in Hb.
      destruct (streq nm b) eqn:E; [|reflexivity].
      assert (existsb (fun b0 => streq nm b0) Submission.builtins = true)
        by (apply existsb_exists; exists b; split; assumption).
      congruence.
  - apply undef_macro1_returns, unlink_macro_names in H as [Hin Hnd].
    split; [apply Hnd, IH1|].
    intros b Hb. apply bound_false_not_In. intro Hx.
    apply Hin in Hx. apply (proj1 (bound_false_not_In _ _) (IH2 b Hb)), Hx.
Qed.

(** Runs only build tables that [define_macro] and [undef_macro] reach. *)
Lemma expand_reachable2 (fopen : text -> option text) (fuel : nat) (input : text)
    (sk : Submission2.sink) :
  preserves (fun w => reachable2 (Submission2.table w))
            (fun _ w => reachable2 (Submission2.table w))
            (Submission2.expand_text_impl fopen fuel input sk).
Proof.
  apply expand_text_impl2_keeps.
  - intros c [|ob] w H; exact H.
  - intros A d w H. exact H.
  - intros nm val w H.
    destruct (Submission2.define_macro nm val w) as [[] w'|s w'|] eqn:E; [| |exact I].
    + exact (reachable2_define nm val w w' H E).
    + rewrite define_macro2_spec in E.
      destruct (bound (Submission2.table w) nm); [|discriminate].
      injection E as _ <-. exact H.
  - intros nm w H.
    destruct (Submission2.undef_macro nm w) as [[] w'|s w'|] eqn:E; [| |exact I].
    + exact (reachable2_undef nm w w' H E).
    + unfold Submission2.undef_macro, bind, gets in E.
      destruct (unlink_macro (Submission2.table w) nm); [discriminate|].
      unfold Submission2.fail, bind, modify, exit in E.
      injection E as _ <-. exact H.
Qed.

Lemma raise_error_table (A : Type) (d : diagnostic) (w : Submission.world) :
  exists w', @Submission.raise_error A d w = Exits 0 w'
             /\ Submission.table w' = Submission.table w.
Proof.
  unfold Submission.raise_error, bind, modify, exit.
  destruct (Submission.g_errorOccurred w); eexists; split; reflexivity.
Qed.

Lemma expand_reachable1 (fopen : text -> option text) (fuel : nat) (input : text) :
  preserves (fun w => reachable1 (Submission.table w))
            (fun _ w => reachable1 (Submission.table w))
            (Submission.expand_text_impl fopen fuel input).
Proof.
  apply expand_text_impl1_keeps.
  - intros w b H. exact H.
  - intros w0 w _ H. exact H.
  - intros A d w H.
    destruct (raise_error_table A d w) as (w' & -> & Ht). rewrite Ht. exact H.
  - intros nm val w H.
    destruct (Submission.define_macro nm val w) as [[] w'|s w'|] eqn:E; [| |exact I].
    + exact (reachable1_define nm val w w' H E).
    + unfold Submission.define_macro in E.
      destruct (Submission.is_builtin nm); [discriminate|].
      unfold bind, gets in E.
      destruct (lookup_macro (Submission.table w) nm); [|discriminate].
      destruct (raise_error_table unit (MacroAlreadyDefined nm) w) as (w'' & E' & Ht).
      rewrite E' in E. injection E as _ <-. rewrite Ht. exact H.
  - intros nm w H.
    destruct (Submission.undef_macro nm w) as [[] w'|s w'|] eqn:E; [| |exact I].
    + exact (reachable1_undef nm w w' H E).
    + unfold Submission.undef_macro, bind, gets in E.
      destruct (unlink_macro (Submission.table w) nm); [discriminate|].
      destruct (raise_error_table unit (CannotUndefine nm) w) as (w'' & E' & Ht).
      rewrite E' in E. injection E as _ <-. rewrite Ht. exact H.
Qed.

(** C5, as the programs have it.  In every table that defines and undefines
    can build from the empty one, each name has at most one entry; in
    [submission] none of the six builtin names has an entry ([submission2]
    stores them like any name); and a run of the expander that starts with
    such a table has such a table whenever it ends. *)
Theorem table_names_unique (fopen : text -> option text) (fuel : nat) (input : text)
    (w1 : Submission.world) (sk : Submission2.sink) (w2 : Submission2.world) :
  reachable1 (Submission.table w1) -> reachable2 (Submission2.table w2) ->
  unique_names (Submission.table w1)
  /\ no_builtin_entry (Submission.table w1)
  /\ unique_names (Submission2.table w2)
  /\ match final_world (Submission.expand_text_impl fopen fuel input w1) with
     | Some w => reachable1 (Submission.table w)
     | None => True
     end
  /\ match final_world (Submission2.expand_text_impl fopen fuel input sk w2) with
     | Some w => reachable2 (Submission2.table w)
     | None => True
     end.
Proof.
  intros H1 H2.
  destruct (reachable1_unique _ H1) as [Hu Hb].
  repeat (split; [assumption|]).
  split; [exact (reachable2_unique _ H2)|].
  split.
  - pose proof (expand_reachable1 fopen fuel input w1 H1) as H.
    destruct (Submission.expand_text_impl fopen fuel input w1); exact H.
  - pose proof (expand_reachable2 fopen fuel input sk w2 H2) as H.
    destruct (Submission2.expand_text_impl fopen fuel input sk w2); exact H.
Qed.

Lemma table_names_unique_witness :
  unique_names [mkMacro (str "B") (str "2"); mkMacro (str "A") (str "1")]
  /\ no_builtin_entry [mkMacro (str "B") (str "2"); mkMacro (str "A") (str "1")].
Proof.
  assert (R1 : reachable1 [mkMacro (str "B") (str "2"); mkMacro (str "A") (str "1")]).
  { apply (reachable1_define (str "B") (str "2")
             (Submission.mkWorld [mkMacro (str "A") (str "1")] false [] [] [])
             (Submission.mkWorld [mkMacro (str "B") (str "2"); mkMacro (str "A") (str "1")]
                false [] [] []));
      [|reflexivity].
    apply (reachable1_define (str "A") (str "1") Submission.initial
             (Submission.mkWorld [mkMacro (str "A") (str "1")] false [] [] []));
      [|reflexivity].
    apply reachable1_init. }
  pose proof (table_names_unique (fun _ => None) 0 []
                (Submission.mkWorld [mkMacro (str "B") (str "2"); mkMacro (str "A") (str "1")]
                   false [] [] [])
                Submission2.out_char_stdout (Submission2.mkWorld [] [] [])
                R1 reachable2_init) as (Hu & Hb & _).
  split; [exact Hu | exact Hb].
Defined.

(** Counterexample for C5, which as claimed fails in [submission2]: [\def{def}{x}] stores the builtin
    name [def] in the table, where [\ifdef] finds it. *)
Lemma builtin_name_stored :
  reachable2 [mkMacro (str "def") (str "x")]
  /\ In (str "def") Submission.builtins
  /\ bound [mkMacro (str "def") (str "x")] (str "def") = true
  /\ Submission2.expand_main 9 (str "\def{def}{x}\ifdef{def}{yes}{no}")
     = Returns Submission2.out_char_stdout
         (Submission2.mkWorld [mkMacro (str "def") (str "x")] (str "yes") []).
Proof.
  split.
  - apply (reachable2_define (str "def") (str "x") (Submission2.mkWorld [] [] [])
             (Submission2.mkWorld [mkMacro (str "def") (str "x")] [] []));
      [apply reachable2_init | reflexivity].
  - split; [left; reflexivity|]. split; vm_compute; reflexivity.
Qed.

(** ** A macro that invokes itself *)

Lemma alnum_plain (c : ascii) :
  isalnum c = true -> (c =? "\") = false /\ (c =? "#") = false.
Proof.
  destruct c as [[] [] [] [] [] [] [] []]; vm_compute; split; congruence.
Qed.

Lemma instantiate_alnum (s t arg : text) :
  all_alnum s = true -> instantiate (s ++ t) arg = s ++ instantiate t arg.
Proof.
  induction s as [|c s IH]; intro H; [reflexivity|].
  cbn [all_alnum forallb] in H. apply andb_true_iff in H as [Hc H].
  destruct (alnum_plain c Hc) as [Hb Hh].
  cbn [app instantiate]. rewrite Hb, Hh. f_equal. apply IH, H.
Qed.

(** The value [\name{#}] with the argument [arg] is the call [\name{arg}]. *)
Lemma instantiate_self (c1 : ascii) (nm' arg : text) :
  all_alnum (c1 :: nm') = true ->
  instantiate ("\" :: (c1 :: nm') ++ str "{#}") arg
  = "\" :: (c1 :: nm') ++ "{" :: arg ++ ["}"].
Proof.
  intro H. pose proof H as H'.
  cbn [all_alnum forallb] in H'. apply andb_true_iff in H' as [Hc Hn].
  cbn [app instantiate]. change ("\" =? "\") with true. cbv iota.
  rewrite (alnum_not_special c1 Hc). f_equal. f_equal.
  rewrite (instantiate_alnum nm' _ arg Hn). reflexivity.
Qed.

Lemma not_builtin (nm : text) :
  Submission.is_builtin nm = false ->
  streq nm (str "def") = false /\ streq nm (str "undef") = false
  /\ streq nm (str "if") = false /\ streq nm (str "ifdef") = false
  /\ streq nm (str "include") = false /\ streq nm (str "expandafter") = false.
Proof.
  unfold Submission.is_builtin, Submission.builtins. cbn [existsb].
  rewrite !orb_false_iff. tauto.
Qed.

Section SelfCall.
Variable fopen : text -> option text.

Lemma self_call_diverges2 (fuel : nat) (c1 : ascii) (nm' arg rest : text)
    (sk : Submission2.sink) (w : Submission2.world) :
  all_alnum (c1 :: nm') = true ->
  Submission.is_builtin (c1 :: nm') = false ->
  lookup_macro (Submission2.table w) (c1 :: nm')
    = Some ("\" :: (c1 :: nm') ++ str "{#}") ->
  balanced arg = true ->
  Submission2.expand_text_impl fopen fuel
    ("\" :: (c1 :: nm') ++ "{" :: arg ++ "}" :: rest) sk w = Diverges.
Proof.
  intros Hn Hb Hl Ha. revert arg rest Ha.
  induction fuel as [|fuel IH]; intros arg rest Ha; [reflexivity|].
  assert (Hc1 : isalnum c1 = true)
    by (cbn [all_alnum forallb] in Hn; apply andb_true_iff in Hn; tauto).
  destruct (not_builtin _ Hb) as (B1 & B2 & B3 & B4 & B5 & B6).
  change (Submission2.expand_text_impl fopen (S fuel))
    with (Submission2.expand_text_step fopen (Submission2.expand_text_impl fopen fuel)).
  unfold Submission2.expand_text_step.
  cbn [app]. change ("\" =? "\") with true. cbv iota.
  rewrite (alnum_not_special c1 Hc1), Hc1.
  change (c1 :: nm' ++ "{" :: arg ++ "}" :: rest)
    with ((c1 :: nm') ++ "{" :: arg ++ "}" :: rest).
  rewrite (readMacroName_app _ ("{" :: arg ++ "}" :: rest) Hn eq_refl).
  rewrite B1, B2, B3, B4, B5, B6.
  unfold bind at 1, gets at 1. rewrite Hl.
  unfold bind at 1. rewrite (readArg2_balanced _ _ _ Ha).
  rewrite (instantiate_self _ _ _ Hn).
  unfold bind. rewrite (IH arg [] Ha). reflexivity.
Qed.

Lemma self_call_diverges1 (fuel : nat) (c1 : ascii) (nm' arg rest : text)
    (w : Submission.world) :
  Submission.g_errorOccurred w = false ->
  all_alnum (c1 :: nm') = true ->
  Submission.is_builtin (c1 :: nm') = false ->
  lookup_macro (Submission.table w) (c1 :: nm')
    = Some ("\" :: (c1 :: nm') ++ str "{#}") ->
  balanced arg = true ->
  Submission.expand_text_impl fopen fuel
    ("\" :: (c1 :: nm') ++ "{" :: arg ++ "}" :: rest) w = Diverges.
Proof.
  intros Hflag Hn Hb Hl Ha. revert arg rest Ha.
  induction fuel as [|fuel IH]; intros arg rest Ha; [reflexivity|].
  assert (Hc1 : isalnum c1 = true)
    by (cbn [all_alnum forallb] in Hn; apply andb_true_iff in Hn; tauto).
  destruct (not_builtin _ Hb) as (B1 & B2 & B3 & B4 & B5 & B6).
  change (Submission.expand_text_impl fopen (S fuel))
    with (Submission.expand_text_step fopen (Submission.expand_text_impl fopen fuel)).
  unfold Submission.expand_text_step.
  unfold bind at 1, gets at 1. rewrite Hflag.
  cbn [app]. change ("\" =? "\") with true. cbv iota.
  rewrite (alnum_not_special c1 Hc1), Hc1.
  change (c1 :: nm' ++ "{" :: arg ++ "}" :: rest)
    with ((c1 :: nm') ++ "{" :: arg ++ "}" :: rest).
  rewrite (readMacroName_app _ ("{" :: arg ++ "}" :: rest) Hn eq_refl).
  rewrite skip_spaces_brace. cbv iota beta.
  change ("{" =? "{") with true.
  rewrite B1, B2, B3, B4, B5, B6.
  unfold bind at 1, gets at 1. rewrite Hl.
  unfold bind at 1. rewrite (readArg1_balanced _ _ _ Ha).
  rewrite (instantiate_self _ _ _ Hn).
  unfold bind. rewrite (IH arg [] Ha). reflexivity.
Qed.
End SelfCall.

(** C3, as the programs have it.  Neither program bounds or watches the depth
    of its recursion, and none of their diagnostics reports exhaustion.  A
    macro whose value invokes the macro itself makes the expander call itself
    without end: for a name that is no builtin and is bound to [\name{#}],
    the call [\name{arg}] does not return and does not exit, whatever the
    fuel; no diagnostic is printed. *)
Theorem self_invoking_macro_never_ends (fopen : text -> option text) (fuel : nat)
    (c1 : ascii) (nm' arg rest : text)
    (w1 : Submission.world) (sk : Submission2.sink) (w2 : Submission2.world) :
  all_alnum (c1 :: nm') = true ->
  Submission.is_builtin (c1 :: nm') = false ->
  balanced arg = true ->
  Submission.g_errorOccurred w1 = false ->
  lookup_macro (Submission.table w1) (c1 :: nm')
    = Some ("\" :: (c1 :: nm') ++ str "{#}") ->
  lookup_macro (Submission2.table w2) (c1 :: nm')
    = Some ("\" :: (c1 :: nm') ++ str "{#}") ->
  Submission.expand_text_impl fopen fuel
    ("\" :: (c1 :: nm') ++ "{" :: arg ++ "}" :: rest) w1 = Diverges
  /\ Submission2.expand_text_impl fopen fuel
       ("\" :: (c1 :: nm') ++ "{" :: arg ++ "}" :: rest) sk w2 = Diverges.
Proof.
  intros Hn Hb Ha Hflag Hl1 Hl2. split.
  - apply self_call_diverges1; assumption.
  - apply self_call_diverges2; assumption.
Qed.

Lemma self_invoking_macro_never_ends_witness :
  Submission.expand_text_impl (fun _ => None) 1000 (str "\loop{x}y")
    (Submission.mkWorld [mkMacro (str "loop") (str "\loop{#}")] false [] [] [])
  = Diverges
  /\ Submission2.expand_text_impl (fun _ => None) 1000 (str "\loop{x}y")
       Submission2.out_char_stdout
       (Submission2.mkWorld [mkMacro (str "loop") (str "\loop{#}")] [] [])
     = Diverges.
Proof.
  apply (self_invoking_macro_never_ends (fun _ => None) 1000 "l" (str "oop")
           (str "x") (str "y")
           (Submission.mkWorld [mkMacro (str "loop") (str "\loop{#}")] false [] [] [])
           Submission2.out_char_stdout
           (Submission2.mkWorld [mkMacro (str "loop") (str "\loop{#}")] [] []));
    reflexivity.
Defined.

(** Counterexample for C3, which as claimed fails in both programs: the run on [\def{A}{\A{#}}\A{}]
    neither returns nor exits with a diagnostic, whatever the fuel. *)
Lemma unbounded_recursion_unreported :
  ~ (exists fuel, ended (Submission.expand_main fuel (str "\def{A}{\A{#}}\A{}")))
  /\ ~ (exists fuel, ended (Submission2.expand_main fuel (str "\def{A}{\A{#}}\A{}"))).
Proof.
  split; intros [fuel H]; apply H; clear H.
  - destruct fuel as [|fuel]; [reflexivity|].
    unfold Submission.expand_main, Submission.expand_and_print,
      Submission.init_global_output, bind, modify.
    replace (Submission.expand_text_impl (fun _ => None) (S fuel)
               (str "\def{A}{\A{#}}\A{}")
               (Submission.set_outputBuffer [] Submission.initial))
      with (Submission.expand_text_impl (fun _ => None) fuel (str "\A{}")
              (Submission.mkWorld [mkMacro (str "A") (str "\A{#}")] false [] [] []))
      by reflexivity.
    rewrite (self_call_diverges1 (fun _ => None) fuel "A" [] [] []); reflexivity.
  - destruct fuel as [|fuel]; [reflexivity|].
    unfold Submission2.expand_main.
    replace (Submission2.expand_text_impl (fun _ => None) (S fuel)
               (str "\def{A}{\A{#}}\A{}") Submission2.out_char_stdout
               (Submission2.mkWorld init_macro_table [] []))
      with (Submission2.expand_text_impl (fun _ => None) fuel (str "\A{}")
              Submission2.out_char_stdout
              (Submission2.mkWorld [mkMacro (str "A") (str "\A{#}")] [] []))
      by reflexivity.
    apply (self_call_diverges2 (fun _ => None) fuel "A" [] [] []); reflexivity.
Qed.

(** * Further properties of the two programs *)

(** ** The table: define, undefine, look up *)

Lemma streq_false_neq (a b : text) : streq a b = false -> a <> b.
Proof.
  intros H E. subst b. rewrite streq_refl in H. discriminate.
Qed.

Lemma lookup_cons_other (m : Macro) (tbl : MacroTable) (other : text) :
  other <> name m -> lookup_macro (m :: tbl) other = lookup_macro tbl other.
Proof.
  intro H. cbn [lookup_macro]. rewrite streq_neq; [reflexivity|].
  intro E. apply H. symmetry. exact E.
Qed.

Lemma lookup_not_In (tbl : MacroTable) (nm : text) :
  ~ In nm (map name tbl) -> lookup_macro tbl nm = None.
Proof.
  intro H. apply bound_false_not_In in H. rewrite bound_lookup in H.
  destruct (lookup_macro tbl nm); [discriminate|reflexivity].
Qed.

Lemma unlink_macro_lookup (tbl tbl' : MacroTable) (nm : text) :
  unlink_macro tbl nm = Some tbl' ->
  bound tbl nm = true
  /\ (forall other, other <> nm -> lookup_macro tbl' other = lookup_macro tbl other)
  /\ (NoDup (map name tbl) -> lookup_macro tbl' nm = None).
Proof.
  revert tbl'; induction tbl as [|m tbl IH]; intros tbl' H; [discriminate|].
  cbn [unlink_macro] in H. unfold bound. cbn [existsb].
  destruct (streq (name m) nm) eqn:E.
  - injection H as <-. apply streq_eq in E. split; [reflexivity|]. split.
    + intros other Ho. rewrite lookup_cons_other; [reflexivity|congruence].
    + cbn [map]. intro Hnd. inversion Hnd as [|? ? Hn _]; subst.
      apply lookup_not_In, Hn.
  - destruct (unlink_macro tbl nm) as [next'|]; [|discriminate].
    injection H as <-. destruct (IH next' eq_refl) as (Hb & Ho & Hn).
    split; [exact Hb|]. split.
    + intros other Hne. cbn [lookup_macro].
      destruct (streq (name m) other); [reflexivity | apply Ho, Hne].
    + cbn [map lookup_macro]. intro Hnd. inversion Hnd; subst.
      rewrite E. apply Hn. assumption.
Qed.

Lemma unlink_macro_none (tbl : MacroTable) (nm : text) :
  unlink_macro tbl nm = None <-> bound tbl nm = false.
Proof.
  unfold bound. induction tbl as [|m tbl IH]; cbn [unlink_macro existsb].
  - split; reflexivity.
  - destruct (streq (name m) nm); cbn [orb].
    + split; discriminate.
    + rewrite <- IH. destruct (unlink_macro tbl nm); split; congruence.
Qed.

(** X1. When [define_macro] returns, looking the name up gives the value
    just defined and every other name is looked up as before; when it exits,
    the name was bound and the table is untouched.  In [submission] a builtin
    name leaves the table as it was. *)
Theorem lookup_after_define (nm val : text)
    (w1 : Submission.world) (w2 : Submission2.world) :
  match Submission2.define_macro nm val w2 with
  | Returns _ w' =>
      lookup_macro (Submission2.table w') nm = Some val
      /\ (forall other, other <> nm ->
            lookup_macro (Submission2.table w') other
            = lookup_macro (Submission2.table w2) other)
  | Exits _ w' =>
      bound (Submission2.table w2) nm = true
      /\ Submission2.table w' = Submission2.table w2
  | Diverges => False
  end
  /\ match Submission.define_macro nm val w1 with
     | Returns _ w' =>
         if Submission.is_builtin nm
         then Submission.table w' = Submission.table w1
         else lookup_macro (Submission.table w') nm = Some val
              /\ (forall other, other <> nm ->
                    lookup_macro (Submission.table w') other
                    = lookup_macro (Submission.table w1) other)
     | Exits _ w' =>
         Submission.is_builtin nm = false
         /\ bound (Submission.table w1) nm = true
         /\ Submission.table w' = Submission.table w1
     | Diverges => False
     end.
Proof.
  split.
  - rewrite define_macro2_spec.
    destruct (bound (Submission2.table w2) nm) eqn:Hb.
    + split; reflexivity.
    + cbn [Submission2.table]. split.
      * cbn [lookup_macro name value]. rewrite streq_refl. reflexivity.
      * intros other Ho. apply lookup_cons_other. exact Ho.
  - unfold Submission.define_macro.
    destruct (Submission.is_builtin nm) eqn:Eb; [reflexivity|].
    unfold bind, gets. rewrite bound_lookup.
    destruct (lookup_macro (Submission.table w1) nm) eqn:El.
    + destruct (raise_error_table unit (MacroAlreadyDefined nm) w1) as (w' & -> & Ht).
      repeat split. exact Ht.
    + cbn. rewrite streq_refl. split; [reflexivity|].
      intros other Ho. rewrite streq_neq by congruence. reflexivity.
Qed.

(** X2. When [undef_macro] returns, the name was bound and every other name
    is looked up as before; in a table where names are unique the name is
    no longer bound.  When it exits, the name was not bound, the table is
    untouched and the diagnostic is "Cannot undefine". *)
Theorem lookup_after_undef (nm : text)
    (w1 : Submission.world) (w2 : Submission2.world) :
  unique_names (Submission.table w1) -> unique_names (Submission2.table w2) ->
  Submission.g_errorOccurred w1 = false ->
  match Submission2.undef_macro nm w2 with
  | Returns _ w' =>
      bound (Submission2.table w2) nm = true
      /\ lookup_macro (Submission2.table w') nm = None
      /\ (forall other, other <> nm ->
            lookup_macro (Submission2.table w') other
            = lookup_macro (Submission2.table w2) other)
  | Exits status w' =>
      bound (Submission2.table w2) nm = false
      /\ status = EXIT_FAILURE
      /\ w' = Submission2.mkWorld (Submission2.table w2) (Submission2.stdout w2)
                (Submission2.stderr w2 ++ [CannotUndefine nm])
  | Diverges => False
  end
  /\ match Submission.undef_macro nm w1 with
     | Returns _ w' =>
         bound (Submission.table w1) nm = true
         /\ lookup_macro (Submission.table w') nm = None
         /\ (forall other, other <> nm ->
               lookup_macro (Submission.table w') other
               = lookup_macro (Submission.table w1) other)
     | Exits status w' =>
         bound (Submission.table w1) nm = false
         /\ status = 0
         /\ w' = Submission.mkWorld (Submission.table w1) true
                   (Submission.g_outputBuffer w1) (Submission.stdout w1)
                   (Submission.stderr w1 ++ [CannotUndefine nm])
     | Diverges => False
     end.
Proof.
  intros U1 U2 Hflag. split.
  - unfold Submission2.undef_macro, bind, gets.
    destruct (unlink_macro (Submission2.table w2) nm) as [tbl'|] eqn:E.
    + cbn. destruct (unlink_macro_lookup _ _ _ E) as (Hb & Ho & Hn).
      repeat split; auto.
    + apply unlink_macro_none in E. repeat split. exact E.
  - unfold Submission.undef_macro, bind, gets.
    destruct (unlink_macro (Submission.table w1) nm) as [tbl'|] eqn:E.
    + cbn. destruct (unlink_macro_lookup _ _ _ E) as (Hb & Ho & Hn).
      repeat split; auto.
    + apply unlink_macro_none in E.
      unfold Submission.raise_error, bind, modify, exit. rewrite Hflag.
      repeat split. exact E.
Qed.

Lemma lookup_after_undef_witness :
  lookup_macro [mkMacro (str "A") (str "1")] (str "B") = None
  /\ lookup_macro [mkMacro (str "A") (str "1")] (str "A") = Some (str "1").
Proof.
  assert (U : unique_names [mkMacro (str "B") (str "2"); mkMacro (str "A") (str "1")]).
  { unfold unique_names. cbn [map name].
    repeat constructor; cbn [In]; intuition discriminate. }
  pose proof (lookup_after_undef (str "B")
                (Submission.mkWorld [mkMacro (str "B") (str "2"); mkMacro (str "A") (str "1")]
                   false [] [] [])
                (Submission2.mkWorld [mkMacro (str "B") (str "2"); mkMacro (str "A") (str "1")]
                   [] [])
                U U eq_refl) as (H2 & _).
  hnf in H2. destruct H2 as (_ & Hn & Ho).
  split; [exact Hn|]. exact (Ho (str "A") ltac:(discriminate)).
Defined.

(** X3. Defining a name that is not bound and undefining it at once leaves
    the whole state of the run as it was, in both programs (in [submission]
    for a name that is no builtin). *)
Theorem define_then_undef (nm val : text)
    (w1 : Submission.world) (w2 : Submission2.world) :
  bound (Submission.table w1) nm = false ->
  bound (Submission2.table w2) nm = false ->
  Submission.is_builtin nm = false ->
  bind (Submission2.define_macro nm val) (fun _ => Submission2.undef_macro nm) w2
  = Returns tt w2
  /\ bind (Submission.define_macro nm val) (fun _ => Submission.undef_macro nm) w1
     = Returns tt w1.
Proof.
  intros B1 B2 Hb. split.
  - unfold bind at 1. rewrite define_macro2_spec, B2.
    unfold Submission2.undef_macro, bind, gets. cbn [Submission2.table unlink_macro name].
    rewrite streq_refl. destruct w2; reflexivity.
  - unfold bind at 1. unfold Submission.define_macro. rewrite Hb.
    unfold bind at 1, gets at 1. rewrite bound_lookup in B1.
    destruct (lookup_macro (Submission.table w1) nm); [discriminate|].
    unfold modify, Submission.undef_macro, bind, gets.
    cbn [Submission.table Submission.set_table unlink_macro name].
    rewrite streq_refl. destruct w1; reflexivity.
Qed.

Lemma define_then_undef_witness :
  bind (Submission2.define_macro (str "B") (str "2"))
       (fun _ => Submission2.undef_macro (str "B"))
       (Submission2.mkWorld [mkMacro (str "A") (str "1")] (str "out") [])
  = Returns tt (Submission2.mkWorld [mkMacro (str "A") (str "1")] (str "out") []).
Proof.
  apply (define_then_undef (str "B") (str "2") Submission.initial
           (Submission2.mkWorld [mkMacro (str "A") (str "1")] (str "out") []));
    reflexivity.
Defined.

(** ** The scanning helpers *)

Lemma readMacroName_split (p : text) :
  fst (readMacroName p) ++ snd (readMacroName p) = p
  /\ all_alnum (fst (readMacroName p)) = true
  /\ ends_name (snd (readMacroName p)) = true.
Proof.
  induction p as [|c p (IH1 & IH2 & IH3)]; [repeat split|].
  cbn [readMacroName]. destruct (isalnum c) eqn:E.
  - destruct (readMacroName p) as [nm rest]. cbn [fst snd] in *.
    repeat split.
    + cbn [app]. rewrite IH1. reflexivity.
    + cbn [all_alnum forallb]. rewrite E. exact IH2.
    + exact IH3.
  - cbn [fst snd app ends_name]. rewrite E. repeat split.
Qed.

(** X4. [readMacroName] cuts the input after its longest alphanumeric
    prefix: it returns [(nm, rest)] exactly when the input is [nm] followed
    by [rest], [nm] is alphanumeric and [rest] is empty or starts with a
    character that is not alphanumeric. *)
Theorem readMacroName_longest (p nm rest : text) :
  readMacroName p = (nm, rest)
  <-> p = nm ++ rest /\ all_alnum nm = true /\ ends_name rest = true.
Proof.
  split.
  - intro H. pose proof (readMacroName_split p) as (H1 & H2 & H3).
    rewrite H in H1, H2, H3. cbn [fst snd] in *. auto.
  - intros (-> & H2 & H3). apply readMacroName_app; assumption.
Qed.

Lemma skip_spaces_split (p : text) :
  exists gap, p = gap ++ skip_spaces p /\ forallb isspace gap = true.
Proof.
  induction p as [|c p (gap & IH1 & IH2)]; [exists []; split; reflexivity|].
  cbn [skip_spaces]. destruct (isspace c) eqn:E.
  - exists (c :: gap). cbn [app forallb]. rewrite E, <- IH1. split; [reflexivity|exact IH2].
  - exists []. split; reflexivity.
Qed.

Lemma skip_spaces_app (gap q : text) :
  forallb isspace gap = true -> skip_spaces (gap ++ q) = skip_spaces q.
Proof.
  induction gap as [|c gap IH]; intro H; [reflexivity|].
  cbn [forallb] in H. apply andb_true_iff in H as [Hc H].
  cbn [app skip_spaces]. rewrite Hc. apply IH, H.
Qed.

Lemma skip_spaces_fixed (q : text) : no_leading_space q = true -> skip_spaces q = q.
Proof.
  destruct q as [|c q]; [reflexivity|]. cbn [no_leading_space skip_spaces].
  intro H. apply negb_true_iff in H. rewrite H. reflexivity.
Qed.

Lemma skip_spaces_no_leading (p : text) : no_leading_space (skip_spaces p) = true.
Proof.
  induction p as [|c p IH]; [reflexivity|].
  cbn [skip_spaces]. destruct (isspace c) eqn:E; [exact IH|].
  cbn [no_leading_space]. rewrite E. reflexivity.
Qed.

(** X5. [skip_spaces] drops the longest prefix of white space: it returns
    [q] exactly when the input is white space followed by [q] and [q] does
    not start with white space. *)
Theorem skip_spaces_longest (p q : text) :
  skip_spaces p = q
  <-> (exists gap, p = gap ++ q /\ forallb isspace gap = true)
      /\ no_leading_space q = true.
Proof.
  split.
  - intros <-. split; [apply skip_spaces_split | apply skip_spaces_no_leading].
  - intros [(gap & -> & Hg) Hq].
    rewrite skip_spaces_app by exact Hg. apply skip_spaces_fixed, Hq.
Qed.

(** ** The argument reader: no brace, white space, and the two programs *)

Lemma readArg1_none (p : text) (w : Submission.world) :
  starts_with_brace (skip_spaces p) = false ->
  Submission.readArg p w = Submission.raise_error ExpectedBrace w.
Proof.
  intro H. unfold Submission.readArg.
  destruct (no_brace_cases _ H) as [-> | (c & p' & -> & Hc)]; [reflexivity|].
  destruct c as [[] [] [] [] [] [] [] []]; try reflexivity. discriminate Hc.
Qed.

Lemma raise_error_spec (A : Type) (d : diagnostic) (w : Submission.world) :
  Submission.g_errorOccurred w = false ->
  @Submission.raise_error A d w
  = Exits 0 (Submission.mkWorld (Submission.table w) true (Submission.g_outputBuffer w)
               (Submission.stdout w) (Submission.stderr w ++ [d])).
Proof.
  intro H. unfold Submission.raise_error, bind, modify, exit. rewrite H. reflexivity.
Qed.

(** X6. When the first character that is not white space is not an opening
    brace, or the input ends, [readArg] of [submission2] returns [NULL] and
    leaves the cursor after the white space, printing nothing; [readArg] of
    [submission] prints "expected '{' at start of macro argument" and
    exits with status 0. *)
Theorem readArg_without_brace (p : text)
    (w1 : Submission.world) (w2 : Submission2.world) :
  starts_with_brace (skip_spaces p) = false ->
  Submission.g_errorOccurred w1 = false ->
  Submission2.readArg p w2 = Returns (None, skip_spaces p) w2
  /\ Submission.readArg p w1
     = Exits 0 (Submission.mkWorld (Submission.table w1) true
                  (Submission.g_outputBuffer w1) (Submission.stdout w1)
                  (Submission.stderr w1 ++ [ExpectedBrace])).
Proof.
  intros H Hflag. split.
  - apply readArg2_none, H.
  - rewrite readArg1_none by exact H. apply raise_error_spec, Hflag.
Qed.

Lemma readArg_without_brace_witness :
  Submission2.readArg (str "  x{a}") (Submission2.mkWorld [] [] [])
  = Returns (None, str "x{a}") (Submission2.mkWorld [] [] [])
  /\ Submission.readArg (str "  x{a}") Submission.initial
     = Exits 0 (Submission.mkWorld [] true [] [] [ExpectedBrace]).
Proof.
  apply (readArg_without_brace (str "  x{a}") Submission.initial
           (Submission2.mkWorld [] [] [])); reflexivity.
Defined.

Lemma readArg1_gap (gap more : text) :
  forallb isspace gap = true ->
  Submission.readArg (gap ++ "{" :: more) = Submission.readArg ("{" :: more).
Proof.
  intro H. unfold Submission.readArg.
  rewrite (skip_spaces_gap _ _ H). reflexivity.
Qed.

(** X7. Reading gives back what was wrapped: for white space [gap] and a
    balanced text [a], [readArg] on [gap], an opening brace, [a], a closing
    brace and [rest] returns [a] and leaves the cursor at [rest], without
    changing anything else, in both programs. *)
Theorem readArg_reads_back (gap a rest : text)
    (w1 : Submission.world) (w2 : Submission2.world) :
  forallb isspace gap = true -> balanced a = true ->
  Submission2.readArg (gap ++ "{" :: a ++ "}" :: rest) w2 = Returns (Some a, rest) w2
  /\ Submission.readArg (gap ++ "{" :: a ++ "}" :: rest) w1 = Returns (a, rest) w1.
Proof.
  intros Hg Ha. split.
  - rewrite (readArg2_gap _ _ Hg). apply readArg2_balanced, Ha.
  - rewrite (readArg1_gap _ _ Hg). apply readArg1_balanced, Ha.
Qed.

Lemma readArg_reads_back_witness :
  Submission2.readArg (str " {a{\}}b}c") (Submission2.mkWorld [] [] [])
  = Returns (Some (str "a{\}}b"), str "c") (Submission2.mkWorld [] [] []).
Proof.
  apply (readArg_reads_back (str " ") (str "a{\}}b") (str "c") Submission.initial
           (Submission2.mkWorld [] [] [])); reflexivity.
Defined.

(** X8. The two argument readers agree.  [submission] counts the
    backslashes before a brace and [submission2] keeps an escape flag, yet on
    every input: where [submission2] returns an argument, [submission]
    returns the same argument and cursor; where [submission2] reports
    unbalanced braces, so does [submission]; and where [submission2] returns
    [NULL], [submission] reports that a brace was expected. *)
Theorem readArg_programs_agree (p : text)
    (w1 : Submission.world) (w2 : Submission2.world) :
  Submission.g_errorOccurred w1 = false ->
  match Submission2.readArg p w2 with
  | Returns (Some a, rest) w' =>
      w' = w2 /\ Submission.readArg p w1 = Returns (a, rest) w1
  | Returns (None, rest) w' =>
      w' = w2 /\ rest = skip_spaces p
      /\ Submission.readArg p w1
         = Exits 0 (Submission.mkWorld (Submission.table w1) true
                      (Submission.g_outputBuffer w1) (Submission.stdout w1)
                      (Submission.stderr w1 ++ [ExpectedBrace]))
  | Exits status w' =>
      status = EXIT_FAILURE
      /\ w' = Submission2.mkWorld (Submission2.table w2) (Submission2.stdout w2)
                (Submission2.stderr w2 ++ [UnbalancedBracesInArgument])
      /\ Submission.readArg p w1
         = Exits 0 (Submission.mkWorld (Submission.table w1) true
                      (Submission.g_outputBuffer w1) (Submission.stdout w1)
                      (Submission.stderr w1 ++ [UnbalancedBracesInArgument]))
  | Diverges => False
  end.
Proof.
  intro Hflag.
  destruct (starts_with_brace (skip_spaces p)) eqn:Hb.
  - destruct (skip_spaces p) as [|c body] eqn:Hp; [discriminate Hb|].
    cbn [starts_with_brace] in Hb. apply Ascii.eqb_eq in Hb; subst c.
    unfold Submission2.readArg, Submission.readArg. rewrite Hp.
    rewrite readArg_loop_same by lia. change (Z.odd 0) with false.
    destruct (Submission2.readArg_loop body 1 false []) as [[p' d] buf].
    destruct (d =? 0)%Z; cbn [negb].
    + split; reflexivity.
    + rewrite raise_error_spec by exact Hflag. repeat split.
  - rewrite readArg2_none by exact Hb.
    rewrite readArg1_none by exact Hb.
    rewrite raise_error_spec by exact Hflag. repeat split.
Qed.

Lemma readArg_programs_agree_witness :
  Submission.readArg (str "{a\\}b") Submission.initial
  = Returns (str "a\\", str "b") Submission.initial.
Proof.
  pose proof (readArg_programs_agree (str "{a\\}b") Submission.initial
                (Submission2.mkWorld [] [] []) eq_refl) as H.
  hnf in H. destruct H as [_ H]. exact H.
Defined.

(** ** The builtins [\def], [\undef], [\ifdef] and [\include] *)

(** As [enter_expand2] and [enter_expand1], with the parts that act on the
    table, the files and the streams left folded. *)
Ltac enter_call2 fopen fuel :=
  change (Submission2.expand_text_impl fopen (S fuel))
    with (Submission2.expand_text_step fopen (Submission2.expand_text_impl fopen fuel));
  unfold Submission2.expand_text_step;
  cbn [str list_ascii_of_string app];
  lazy -[app Submission2.readArg Submission2.expand_text_impl bind gets
         all_alnum valid_name bound lookup_macro
         Submission2.define_macro Submission2.undef_macro Submission2.fail
         Submission2.read_included_file Submission2.table].

Ltac enter_call1 fopen fuel Hflag :=
  change (Submission.expand_text_impl fopen (S fuel))
    with (Submission.expand_text_step fopen (Submission.expand_text_impl fopen fuel));
  unfold Submission.expand_text_step;
  cbn [str list_ascii_of_string app];
  unfold bind at 1, gets at 1; rewrite Hflag;
  lazy -[app Submission.readArg Submission.expand_text_impl
         Submission.expand_string_fully_with bind gets
         all_alnum valid_name bound lookup_macro
         Submission.define_macro Submission.undef_macro Submission.raise_error
         Submission.read_included_file Submission.table].

Section MoreBuiltins.
Variable fopen : text -> option text.

Lemma def_defines2 (fuel : nat) (n v rest : text)
    (sk : Submission2.sink) (w : Submission2.world) :
  balanced n = true -> balanced v = true ->
  Submission2.expand_text_impl fopen (S fuel)
    (str "\def{" ++ n ++ str "}{" ++ v ++ "}" :: rest) sk w
  = if valid_name n
    then (Submission2.define_macro n v ;;
          Submission2.expand_text_impl fopen fuel rest sk)%run w
    else Submission2.fail InvalidNameInDef w.
Proof.
  intros Hn Hv. enter_call2 fopen fuel.
  do 2 read_balanced2.
  destruct n as [|a n']; [reflexivity|].
  unfold valid_name. destruct (all_alnum (a :: n')); reflexivity.
Qed.

Lemma def_defines1 (fuel : nat) (n v rest : text) (w : Submission.world) :
  Submission.g_errorOccurred w = false ->
  balanced n = true -> balanced v = true ->
  Submission.expand_text_impl fopen (S fuel)
    (str "\def{" ++ n ++ str "}{" ++ v ++ "}" :: rest) w
  = if valid_name n
    then (Submission.define_macro n v ;;
          Submission.expand_text_impl fopen fuel rest)%run w
    else Submission.raise_error InvalidNameInDef w.
Proof.
  intros Hflag Hn Hv. enter_call1 fopen fuel Hflag.
  do 2 read_balanced1.
  destruct n as [|a n']; [reflexivity|].
  unfold valid_name. destruct (all_alnum (a :: n')); reflexivity.
Qed.

Lemma def_without_value2 (fuel : nat) (n rest : text)
    (sk : Submission2.sink) (w : Submission2.world) :
  balanced n = true -> starts_with_brace (skip_spaces rest) = false ->
  Submission2.expand_text_impl fopen (S fuel) (str "\def{" ++ n ++ "}" :: rest) sk w
  = if valid_name n
    then (Submission2.define_macro n [] ;;
          Submission2.expand_text_impl fopen fuel (skip_spaces rest) sk)%run w
    else Submission2.fail InvalidNameInDef w.
Proof.
  intros Hn Hb. enter_call2 fopen fuel.
  read_balanced2. unfold bind at 1. rewrite (readArg2_none _ _ Hb).
  destruct n as [|a n']; [reflexivity|].
  unfold valid_name. destruct (all_alnum (a :: n')); reflexivity.
Qed.

Lemma def_without_value1 (fuel : nat) (n rest : text) (w : Submission.world) :
  Submission.g_errorOccurred w = false ->
  balanced n = true -> starts_with_brace (skip_spaces rest) = false ->
  Submission.expand_text_impl fopen (S fuel) (str "\def{" ++ n ++ "}" :: rest) w
  = Submission.raise_error ExpectedBrace w.
Proof.
  intros Hflag Hn Hb. enter_call1 fopen fuel Hflag.
  read_balanced1. unfold bind at 1. rewrite (readArg1_none _ _ Hb).
  unfold Submission.raise_error, bind, modify, exit. reflexivity.
Qed.

Lemma undef_undefines2 (fuel : nat) (n rest : text)
    (sk : Submission2.sink) (w : Submission2.world) :
  balanced n = true ->
  Submission2.expand_text_impl fopen (S fuel) (str "\undef{" ++ n ++ "}" :: rest) sk w
  = (Submission2.undef_macro n ;;
     Submission2.expand_text_impl fopen fuel rest sk)%run w.
Proof.
  intros Hn. enter_call2 fopen fuel. read_balanced2. reflexivity.
Qed.

Lemma undef_undefines1 (fuel : nat) (n rest : text) (w : Submission.world) :
  Submission.g_errorOccurred w = false ->
  balanced n = true ->
  Submission.expand_text_impl fopen (S fuel) (str "\undef{" ++ n ++ "}" :: rest) w
  = (Submission.undef_macro n ;;
     Submission.expand_text_impl fopen fuel rest)%run w.
Proof.
  intros Hflag Hn. enter_call1 fopen fuel Hflag. read_balanced1. reflexivity.
Qed.

Lemma ifdef_branches2 (fuel : nat) (n thenA elseA rest : text)
    (sk : Submission2.sink) (w : Submission2.world) :
  balanced n = true -> balanced thenA = true -> balanced elseA = true ->
  Submission2.expand_text_impl fopen (S fuel)
    (str "\ifdef{" ++ n ++ str "}{" ++ thenA ++ str "}{" ++ elseA ++ "}" :: rest) sk w
  = if all_alnum n
    then (sk' <- Submission2.expand_text_impl fopen fuel
                   (if bound (Submission2.table w) n then thenA else elseA) sk ;;
          Submission2.expand_text_impl fopen fuel rest sk')%run w
    else Submission2.fail InvalidNameInIfdef w.
Proof.
  intros Hn Ht He. enter_call2 fopen fuel.
  do 3 read_balanced2.
  destruct (all_alnum n); [|reflexivity]. cbn [negb].
  unfold bind at 1, gets at 1. rewrite bound_lookup.
  destruct (lookup_macro (Submission2.table w) n); reflexivity.
Qed.

Lemma ifdef_branches1 (fuel : nat) (n thenA elseA rest : text) (w : Submission.world) :
  Submission.g_errorOccurred w = false ->
  balanced n = true -> balanced thenA = true -> balanced elseA = true ->
  Submission.expand_text_impl fopen (S fuel)
    (str "\ifdef{" ++ n ++ str "}{" ++ thenA ++ str "}{" ++ elseA ++ "}" :: rest) w
  = if all_alnum n
    then (Submission.expand_text_impl fopen fuel
            (if bound (Submission.table w) n then thenA else elseA) ;;
          Submission.expand_text_impl fopen fuel rest)%run w
    else Submission.raise_error InvalidNameInIfdef w.
Proof.
  intros Hflag Hn Ht He. enter_call1 fopen fuel Hflag.
  do 3 read_balanced1.
  destruct (all_alnum n); [|reflexivity]. cbn [negb].
  unfold bind at 1, gets at 1. rewrite bound_lookup.
  destruct (lookup_macro (Submission.table w) n); reflexivity.
Qed.

Lemma include_expands_file2 (fuel : nat) (path rest : text)
    (sk : Submission2.sink) (w : Submission2.world) :
  balanced path = true ->
  Submission2.expand_text_impl fopen (S fuel)
    (str "\include{" ++ path ++ "}" :: rest) sk w
  = match fopen path with
    | Some bytes =>
        (sk' <- Submission2.expand_text_impl fopen fuel
                  (c_str (remove_comments (Copying NUL) bytes)) sk ;;
         Submission2.expand_text_impl fopen fuel rest sk')%run w
    | None => Submission2.fail (CannotOpenFile path) w
    end.
Proof.
  intros Hp. enter_call2 fopen fuel. read_balanced2.
  unfold bind at 1, Submission2.read_included_file.
  destruct (fopen path); reflexivity.
Qed.

Lemma include_expands_file1 (fuel : nat) (path rest : text) (w : Submission.world) :
  Submission.g_errorOccurred w = false ->
  balanced path = true ->
  Submission.expand_text_impl fopen (S fuel)
    (str "\include{" ++ path ++ "}" :: rest) w
  = match fopen path with
    | Some bytes =>
        (Submission.expand_text_impl fopen fuel
           (c_str (remove_comments (Copying NUL) bytes)) ;;
         Submission.expand_text_impl fopen fuel rest)%run w
    | None => Submission.raise_error (CannotOpenFile path) w
    end.
Proof.
  intros Hflag Hp. enter_call1 fopen fuel Hflag. read_balanced1.
  unfold bind at 1, Submission.read_included_file.
  destruct (fopen path); [reflexivity|].
  unfold Submission.raise_error, bind, modify, exit. reflexivity.
Qed.
End MoreBuiltins.

(** ** User macros *)

Section UserMacros.
Variable fopen : text -> option text.

Lemma macro_call2 (fuel : nat) (c1 : ascii) (nm' arg rest : text)
    (sk : Submission2.sink) (w : Submission2.world) :
  all_alnum (c1 :: nm') = true ->
  Submission.is_builtin (c1 :: nm') = false ->
  balanced arg = true ->
  Submission2.expand_text_impl fopen (S fuel)
    ("\" :: (c1 :: nm') ++ "{" :: arg ++ "}" :: rest) sk w
  = match lookup_macro (Submission2.table w) (c1 :: nm') with
    | Some macroVal =>
        (sk' <- Submission2.expand_text_impl fopen fuel (instantiate macroVal arg) sk ;;
         Submission2.expand_text_impl fopen fuel rest sk')%run w
    | None => Submission2.fail (MacroNotDefined (c1 :: nm')) w
    end.
Proof.
  intros Hn Hb Ha.
  assert (Hc1 : isalnum c1 = true)
    by (cbn [all_alnum forallb] in Hn; apply andb_true_iff in Hn; tauto).
  destruct (not_builtin _ Hb) as (B1 & B2 & B3 & B4 & B5 & B6).
  change (Submission2.expand_text_impl fopen (S fuel))
    with (Submission2.expand_text_step fopen (Submission2.expand_text_impl fopen fuel)).
  unfold Submission2.expand_text_step.
  cbn [app]. change ("\" =? "\") with true. cbv iota.
  rewrite (alnum_not_special c1 Hc1), Hc1.
  change (c1 :: nm' ++ "{" :: arg ++ "}" :: rest)
    with ((c1 :: nm') ++ "{" :: arg ++ "}" :: rest).
  rewrite (readMacroName_app _ ("{" :: arg ++ "}" :: rest) Hn eq_refl).
  rewrite B1, B2, B3, B4, B5, B6.
  unfold bind at 1, gets at 1.
  destruct (lookup_macro (Submission2.table w) (c1 :: nm')); [|reflexivity].
  unfold bind at 1. rewrite (readArg2_balanced _ _ _ Ha). reflexivity.
Qed.

Lemma macro_call1 (fuel : nat) (c1 : ascii) (nm' arg rest : text)
    (w : Submission.world) :
  Submission.g_errorOccurred w = false ->
  all_alnum (c1 :: nm') = true ->
  Submission.is_builtin (c1 :: nm') = false ->
  balanced arg = true ->
  Submission.expand_text_impl fopen (S fuel)
    ("\" :: (c1 :: nm') ++ "{" :: arg ++ "}" :: rest) w
  = match lookup_macro (Submission.table w) (c1 :: nm') with
    | Some macroVal =>
        (Submission.expand_text_impl fopen fuel (instantiate macroVal arg) ;;
         Submission.expand_text_impl fopen fuel rest)%run w
    | None => Submission.raise_error (MacroNotDefined (c1 :: nm')) w
    end.
Proof.
  intros Hflag Hn Hb Ha.
  assert (Hc1 : isalnum c1 = true)
    by (cbn [all_alnum forallb] in Hn; apply andb_true_iff in Hn; tauto).
  destruct (not_builtin _ Hb) as (B1 & B2 & B3 & B4 & B5 & B6).
  change (Submission.expand_text_impl fopen (S fuel))
    with (Submission.expand_text_step fopen (Submission.expand_text_impl fopen fuel)).
  unfold Submission.expand_text_step.
  unfold bind at 1, gets at 1. rewrite Hflag.
  cbn [app]. change ("\" =? "\") with true. cbv iota.
  rewrite (alnum_not_special c1 Hc1), Hc1.
  change (c1 :: nm' ++ "{" :: arg ++ "}" :: rest)
    with ((c1 :: nm') ++ "{" :: arg ++ "}" :: rest).
  rewrite (readMacroName_app _ ("{" :: arg ++ "}" :: rest) Hn eq_refl).
  rewrite skip_spaces_brace. cbv iota beta.
  change ("{" =? "{") with true.
  rewrite B1, B2, B3, B4, B5, B6.
  unfold bind at 1, gets at 1.
  destruct (lookup_macro (Submission.table w) (c1 :: nm')); [|reflexivity].
  unfold bind at 1. rewrite (readArg1_balanced _ _ _ Ha). reflexivity.
Qed.

(** In [submission2] the name is looked up before anything after it is
    read: an unknown name is an error whatever follows it. *)
Lemma unknown_macro2 (fuel : nat) (c1 : ascii) (nm' rest : text)
    (sk : Submission2.sink) (w : Submission2.world) :
  all_alnum (c1 :: nm') = true -> ends_name rest = true ->
  Submission.is_builtin (c1 :: nm') = false ->
  lookup_macro (Submission2.table w) (c1 :: nm') = None ->
  Submission2.expand_text_impl fopen (S fuel) ("\" :: (c1 :: nm') ++ rest) sk w
  = Submission2.fail (MacroNotDefined (c1 :: nm')) w.
Proof.
  intros Hn Hr Hb Hl.
  assert (Hc1 : isalnum c1 = true)
    by (cbn [all_alnum forallb] in Hn; apply andb_true_iff in Hn; tauto).
  destruct (not_builtin _ Hb) as (B1 & B2 & B3 & B4 & B5 & B6).
  change (Submission2.expand_text_impl fopen (S fuel))
    with (Submission2.expand_text_step fopen (Submission2.expand_text_impl fopen fuel)).
  unfold Submission2.expand_text_step.
  cbn [app]. change ("\" =? "\") with true. cbv iota.
  rewrite (alnum_not_special c1 Hc1), Hc1.
  change (c1 :: nm' ++ rest) with ((c1 :: nm') ++ rest).
  rewrite (readMacroName_app _ _ Hn Hr).
  rewrite B1, B2, B3, B4, B5, B6.
  unfold bind at 1, gets at 1. rewrite Hl. reflexivity.
Qed.
End UserMacros.

Lemma fail_spec (A : Type) (d : diagnostic) (w : Submission2.world) :
  @Submission2.fail A d w
  = Exits EXIT_FAILURE
      (Submission2.mkWorld (Submission2.table w) (Submission2.stdout w)
         (Submission2.stderr w ++ [d])).
Proof. reflexivity. Qed.

(** X9. [\def{NAME}{VALUE}] with balanced arguments prints nothing.  When
    [NAME] is empty or not alphanumeric the run exits with "invalid macro
    name in \def"; when [NAME] is bound it exits with "already defined";
    otherwise the continuation is expanded with [NAME] bound to the
    unexpanded [VALUE].  [submission] ignores a builtin [NAME] and goes on
    with the table as it was. *)
Theorem def_binds_raw_value (fopen : text -> option text) (fuel : nat)
    (n v rest : text)
    (w1 : Submission.world) (sk : Submission2.sink) (w2 : Submission2.world) :
  balanced n = true -> balanced v = true ->
  Submission.g_errorOccurred w1 = false ->
  Submission2.expand_text_impl fopen (S fuel)
    (str "\def{" ++ n ++ str "}{" ++ v ++ "}" :: rest) sk w2
  = (if valid_name n
     then if bound (Submission2.table w2) n
          then Exits EXIT_FAILURE
                 (Submission2.mkWorld (Submission2.table w2) (Submission2.stdout w2)
                    (Submission2.stderr w2 ++ [MacroAlreadyDefined n]))
          else Submission2.expand_text_impl fopen fuel rest sk
                 (Submission2.mkWorld (mkMacro n v :: Submission2.table w2)
                    (Submission2.stdout w2) (Submission2.stderr w2))
     else Exits EXIT_FAILURE
            (Submission2.mkWorld (Submission2.table w2) (Submission2.stdout w2)
               (Submission2.stderr w2 ++ [InvalidNameInDef])))
  /\ Submission.expand_text_impl fopen (S fuel)
       (str "\def{" ++ n ++ str "}{" ++ v ++ "}" :: rest) w1
     = (if valid_name n
        then if Submission.is_builtin n
             then Submission.expand_text_impl fopen fuel rest w1
             else if bound (Submission.table w1) n
             then Exits 0
                    (Submission.mkWorld (Submission.table w1) true
                       (Submission.g_outputBuffer w1) (Submission.stdout w1)
                       (Submission.stderr w1 ++ [MacroAlreadyDefined n]))
             else Submission.expand_text_impl fopen fuel rest
                    (Submission.set_table (mkMacro n v :: Submission.table w1) w1)
        else Exits 0
               (Submission.mkWorld (Submission.table w1) true
                  (Submission.g_outputBuffer w1) (Submission.stdout w1)
                  (Submission.stderr w1 ++ [InvalidNameInDef]))).
Proof.
  intros Hn Hv Hflag. split.
  - rewrite def_defines2 by assumption.
    destruct (valid_name n); [|reflexivity].
    unfold bind. rewrite define_macro2_spec.
    destruct (bound (Submission2.table w2) n); reflexivity.
  - rewrite def_defines1 by assumption.
    destruct (valid_name n); [|apply raise_error_spec, Hflag].
    unfold bind. rewrite define_macro1_spec by exact Hflag.
    destruct (Submission.is_builtin n); [reflexivity|].
    destruct (bound (Submission.table w1) n); reflexivity.
Qed.

Lemma def_binds_raw_value_witness :
  Submission2.expand_text_impl (fun _ => None) 9 (str "\def{A}{\B{#}}\ifdef{A}{y}{n}")
    Submission2.out_char_stdout (Submission2.mkWorld [] [] [])
  = Returns Submission2.out_char_stdout
      (Submission2.mkWorld [mkMacro (str "A") (str "\B{#}")] (str "y") []).
Proof.
  pose proof (def_binds_raw_value (fun _ => None) 8 (str "A") (str "\B{#}")
                (str "\ifdef{A}{y}{n}") Submission.initial
                Submission2.out_char_stdout (Submission2.mkWorld [] [] [])
                eq_refl eq_refl eq_refl) as (H & _).
  etransitivity; [exact H|]. vm_compute. reflexivity.
Defined.

(** X10. [\def{NAME}] with no second argument: when what follows [NAME]'s
    closing brace is not, after white space, an opening brace, [submission2]
    binds a valid [NAME] to the empty value and goes on after the white
    space, while [submission] exits with "expected '{' at start of macro
    argument". *)
Theorem def_without_value (fopen : text -> option text) (fuel : nat)
    (n rest : text)
    (w1 : Submission.world) (sk : Submission2.sink) (w2 : Submission2.world) :
  balanced n = true -> valid_name n = true ->
  starts_with_brace (skip_spaces rest) = false ->
  bound (Submission2.table w2) n = false ->
  Submission.g_errorOccurred w1 = false ->
  Submission2.expand_text_impl fopen (S fuel) (str "\def{" ++ n ++ "}" :: rest) sk w2
  = Submission2.expand_text_impl fopen fuel (skip_spaces rest) sk
      (Submission2.mkWorld (mkMacro n [] :: Submission2.table w2)
         (Submission2.stdout w2) (Submission2.stderr w2))
  /\ Submission.expand_text_impl fopen (S fuel) (str "\def{" ++ n ++ "}" :: rest) w1
     = Exits 0
         (Submission.mkWorld (Submission.table w1) true
            (Submission.g_outputBuffer w1) (Submission.stdout w1)
            (Submission.stderr w1 ++ [ExpectedBrace])).
Proof.
  intros Hn Hv Hb Hu Hflag. split.
  - rewrite def_without_value2 by assumption. rewrite Hv.
    unfold bind. rewrite define_macro2_spec, Hu. reflexivity.
  - rewrite def_without_value1 by assumption. apply raise_error_spec, Hflag.
Qed.

Lemma def_without_value_witness :
  Submission2.expand_text_impl (fun _ => None) 9 (str "\def{A} x\A{}.")
    Submission2.out_char_stdout (Submission2.mkWorld [] [] [])
  = Returns Submission2.out_char_stdout
      (Submission2.mkWorld [mkMacro (str "A") []] (str "x.") [])
  /\ Submission.expand_text_impl (fun _ => None) 9 (str "\def{A} x\A{}.")
       Submission.initial
     = Exits 0 (Submission.mkWorld [] true [] [] [ExpectedBrace]).
Proof.
  pose proof (def_without_value (fun _ => None) 8 (str "A") (str " x\A{}.")
                Submission.initial Submission2.out_char_stdout
                (Submission2.mkWorld [] [] [])
                eq_refl eq_refl eq_refl eq_refl eq_refl) as (H2 & H1).
  split.
  - etransitivity; [exact H2|]. vm_compute. reflexivity.
  - exact H1.
Defined.

(** X11. [\undef{NAME}] with a balanced argument prints nothing and does
    not check that [NAME] is alphanumeric: when [NAME] is bound its first
    entry is unlinked and the continuation is expanded, otherwise the run
    exits with "Cannot undefine". *)
Theorem undef_unbinds (fopen : text -> option text) (fuel : nat)
    (n rest : text)
    (w1 : Submission.world) (sk : Submission2.sink) (w2 : Submission2.world) :
  balanced n = true ->
  Submission.g_errorOccurred w1 = false ->
  Submission2.expand_text_impl fopen (S fuel) (str "\undef{" ++ n ++ "}" :: rest) sk w2
  = match unlink_macro (Submission2.table w2) n with
    | Some tbl =>
        Submission2.expand_text_impl fopen fuel rest sk
          (Submission2.mkWorld tbl (Submission2.stdout w2) (Submission2.stderr w2))
    | None =>
        Exits EXIT_FAILURE
          (Submission2.mkWorld (Submission2.table w2) (Submission2.stdout w2)
             (Submission2.stderr w2 ++ [CannotUndefine n]))
    end
  /\ Submission.expand_text_impl fopen (S fuel) (str "\undef{" ++ n ++ "}" :: rest) w1
     = match unlink_macro (Submission.table w1) n with
       | Some tbl =>
           Submission.expand_text_impl fopen fuel rest (Submission.set_table tbl w1)
       | None =>
           Exits 0
             (Submission.mkWorld (Submission.table w1) true
                (Submission.g_outputBuffer w1) (Submission.stdout w1)
                (Submission.stderr w1 ++ [CannotUndefine n]))
       end.
Proof.
  intros Hn Hflag. split.
  - rewrite undef_undefines2 by assumption.
    unfold bind at 1, Submission2.undef_macro, bind, gets.
    destruct (unlink_macro (Submission2.table w2) n); reflexivity.
  - rewrite undef_undefines1 by assumption.
    unfold bind at 1, Submission.undef_macro, bind, gets.
    destruct (unlink_macro (Submission.table w1) n); [reflexivity|].
    rewrite raise_error_spec by exact Hflag. reflexivity.
Qed.

Lemma undef_unbinds_witness :
  Submission2.expand_text_impl (fun _ => None) 9 (str "\undef{A}\ifdef{A}{y}{n}")
    Submission2.out_char_stdout
    (Submission2.mkWorld [mkMacro (str "A") (str "1")] [] [])
  = Returns Submission2.out_char_stdout (Submission2.mkWorld [] (str "n") [])
  /\ Submission.expand_text_impl (fun _ => None) 9 (str "\undef{a b}") Submission.initial
     = Exits 0 (Submission.mkWorld [] true [] [] [CannotUndefine (str "a b")]).
Proof.
  pose proof (undef_unbinds (fun _ => None) 8 (str "A") (str "\ifdef{A}{y}{n}")
                Submission.initial Submission2.out_char_stdout
                (Submission2.mkWorld [mkMacro (str "A") (str "1")] [] [])
                eq_refl eq_refl) as (H2 & _).
  pose proof (undef_unbinds (fun _ => None) 8 (str "a b") []
                Submission.initial Submission2.out_char_stdout
                (Submission2.mkWorld [] [] [])
                eq_refl eq_refl) as (_ & H1).
  split.
  - etransitivity; [exact H2|]. vm_compute. reflexivity.
  - exact H1.
Defined.

(** X12. [\ifdef{NAME}{THEN}{ELSE}] with balanced arguments: when [NAME] is
    not alphanumeric the run exits with "invalid macro name in \ifdef";
    otherwise [THEN] is expanded when [NAME] is bound and [ELSE] when it is
    not (an empty [NAME] is accepted), and the continuation is expanded
    after it. *)
Theorem ifdef_branches_on_binding (fopen : text -> option text) (fuel : nat)
    (n thenA elseA rest : text)
    (w1 : Submission.world) (sk : Submission2.sink) (w2 : Submission2.world) :
  balanced n = true -> balanced thenA = true -> balanced elseA = true ->
  Submission.g_errorOccurred w1 = false ->
  Submission2.expand_text_impl fopen (S fuel)
    (str "\ifdef{" ++ n ++ str "}{" ++ thenA ++ str "}{" ++ elseA ++ "}" :: rest) sk w2
  = (if all_alnum n
     then (sk' <- Submission2.expand_text_impl fopen fuel
                    (if bound (Submission2.table w2) n then thenA else elseA) sk ;;
           Submission2.expand_text_impl fopen fuel rest sk')%run w2
     else Exits EXIT_FAILURE
            (Submission2.mkWorld (Submission2.table w2) (Submission2.stdout w2)
               (Submission2.stderr w2 ++ [InvalidNameInIfdef])))
  /\ Submission.expand_text_impl fopen (S fuel)
       (str "\ifdef{" ++ n ++ str "}{" ++ thenA ++ str "}{" ++ elseA ++ "}" :: rest) w1
     = (if all_alnum n
        then (Submission.expand_text_impl fopen fuel
                (if bound (Submission.table w1) n then thenA else elseA) ;;
              Submission.expand_text_impl fopen fuel rest)%run w1
        else Exits 0
               (Submission.mkWorld (Submission.table w1) true
                  (Submission.g_outputBuffer w1) (Submission.stdout w1)
                  (Submission.stderr w1 ++ [InvalidNameInIfdef]))).
Proof.
  intros Hn Ht He Hflag. split.
  - rewrite ifdef_branches2 by assumption. reflexivity.
  - rewrite ifdef_branches1 by assumption.
    destruct (all_alnum n); [reflexivity | apply raise_error_spec, Hflag].
Qed.

Lemma ifdef_branches_on_binding_witness :
  Submission.expand_text_impl (fun _ => None) 9 (str "\ifdef{}{y}{n}\ifdef{A}{y}{n}")
    (Submission.mkWorld [mkMacro (str "A") (str "1")] false [] [] [])
  = Returns tt (Submission.mkWorld [mkMacro (str "A") (str "1")] false (str "ny") [] []).
Proof.
  pose proof (ifdef_branches_on_binding (fun _ => None) 8 [] (str "y") (str "n")
                (str "\ifdef{A}{y}{n}")
                (Submission.mkWorld [mkMacro (str "A") (str "1")] false [] [] [])
                Submission2.out_char_stdout (Submission2.mkWorld [] [] [])
                eq_refl eq_refl eq_refl eq_refl) as (_ & H).
  etransitivity; [exact H|]. vm_compute. reflexivity.
Defined.

(** X13. [\include{PATH}] with a balanced argument takes [PATH] as it is
    written.  When the file cannot be opened the run exits with "Cannot
    open file"; otherwise the file, with its comments removed and cut at its
    first NUL, is expanded into the current output with the table of the
    run, and the continuation is expanded after it. *)
Theorem include_expands_file (fopen : text -> option text) (fuel : nat)
    (path rest : text)
    (w1 : Submission.world) (sk : Submission2.sink) (w2 : Submission2.world) :
  balanced path = true ->
  Submission.g_errorOccurred w1 = false ->
  Submission2.expand_text_impl fopen (S fuel)
    (str "\include{" ++ path ++ "}" :: rest) sk w2
  = match fopen path with
    | Some bytes =>
        (sk' <- Submission2.expand_text_impl fopen fuel
                  (c_str (remove_comments (Copying NUL) bytes)) sk ;;
         Submission2.expand_text_impl fopen fuel rest sk')%run w2
    | None =>
        Exits EXIT_FAILURE
          (Submission2.mkWorld (Submission2.table w2) (Submission2.stdout w2)
             (Submission2.stderr w2 ++ [CannotOpenFile path]))
    end
  /\ Submission.expand_text_impl fopen (S fuel)
       (str "\include{" ++ path ++ "}" :: rest) w1
     = match fopen path with
       | Some bytes =>
           (Submission.expand_text_impl fopen fuel
              (c_str (remove_comments (Copying NUL) bytes)) ;;
            Submission.expand_text_impl fopen fuel rest)%run w1
       | None =>
           Exits 0
             (Submission.mkWorld (Submission.table w1) true
                (Submission.g_outputBuffer w1) (Submission.stdout w1)
                (Submission.stderr w1 ++ [CannotOpenFile path]))
       end.
Proof.
  intros Hp Hflag. split.
  - rewrite include_expands_file2 by assumption. reflexivity.
  - rewrite include_expands_file1 by assumption.
    destruct (fopen path); [reflexivity | apply raise_error_spec, Hflag].
Qed.

Lemma include_expands_file_witness :
  Submission2.expand_text_impl
    (fun path => if streq path (str "f") then Some (str "\def{A}{<#>}% note") else None)
    12 (str "\include{f}\A{x}")
    Submission2.out_char_stdout (Submission2.mkWorld [] [] [])
  = Returns Submission2.out_char_stdout
      (Submission2.mkWorld [mkMacro (str "A") (str "<#>")] (str "<x>") []).
Proof.
  pose proof (include_expands_file
                (fun path => if streq path (str "f") then Some (str "\def{A}{<#>}% note")
                             else None)
                11 (str "f") (str "\A{x}") Submission.initial
                Submission2.out_char_stdout (Submission2.mkWorld [] [] [])
                eq_refl eq_refl) as (H & _).
  etransitivity; [exact H|]. vm_compute. reflexivity.
Defined.

(** X14. A call [\name{ARG}] of a name that is no builtin, with a balanced
    argument: when the name is not bound the run exits with "Macro ... not
    defined"; otherwise the value of the macro is instantiated with the
    unexpanded argument, the result is expanded into the current output, and
    the continuation is expanded after it. *)
Theorem macro_call_expands_instance (fopen : text -> option text) (fuel : nat)
    (c1 : ascii) (nm' arg rest : text)
    (w1 : Submission.world) (sk : Submission2.sink) (w2 : Submission2.world) :
  all_alnum (c1 :: nm') = true ->
  Submission.is_builtin (c1 :: nm') = false ->
  balanced arg = true ->
  Submission.g_errorOccurred w1 = false ->
  Submission2.expand_text_impl fopen (S fuel)
    ("\" :: (c1 :: nm') ++ "{" :: arg ++ "}" :: rest) sk w2
  = match lookup_macro (Submission2.table w2) (c1 :: nm') with
    | Some macroVal =>
        (sk' <- Submission2.expand_text_impl fopen fuel (instantiate macroVal arg) sk ;;
         Submission2.expand_text_impl fopen fuel rest sk')%run w2
    | None =>
        Exits EXIT_FAILURE
          (Submission2.mkWorld (Submission2.table w2) (Submission2.stdout w2)
             (Submission2.stderr w2 ++ [MacroNotDefined (c1 :: nm')]))
    end
  /\ Submission.expand_text_impl fopen (S fuel)
       ("\" :: (c1 :: nm') ++ "{" :: arg ++ "}" :: rest) w1
     = match lookup_macro (Submission.table w1) (c1 :: nm') with
       | Some macroVal =>
           (Submission.expand_text_impl fopen fuel (instantiate macroVal arg) ;;
            Submission.expand_text_impl fopen fuel rest)%run w1
       | None =>
           Exits 0
             (Submission.mkWorld (Submission.table w1) true
                (Submission.g_outputBuffer w1) (Submission.stdout w1)
                (Submission.stderr w1 ++ [MacroNotDefined (c1 :: nm')]))
       end.
Proof.
  intros Hn Hb Ha Hflag. split.
  - rewrite macro_call2 by assumption. reflexivity.
  - rewrite macro_call1 by assumption.
    destruct (lookup_macro (Submission.table w1) (c1 :: nm'));
      [reflexivity | apply raise_error_spec, Hflag].
Qed.

Lemma macro_call_expands_instance_witness :
  Submission2.expand_text_impl (fun _ => None) 20 (str "\A{X}!")
    Submission2.out_char_stdout
    (Submission2.mkWorld [mkMacro (str "A") (str "hello-#-world")] [] [])
  = Returns Submission2.out_char_stdout
      (Submission2.mkWorld [mkMacro (str "A") (str "hello-#-world")]
         (str "hello-X-world!") [])
  /\ Submission.expand_text_impl (fun _ => None) 20 (str "\Unknown{x}")
       Submission.initial
     = Exits 0 (Submission.mkWorld [] true [] [] [MacroNotDefined (str "Unknown")]).
Proof.
  pose proof (macro_call_expands_instance (fun _ => None) 19 "A" [] (str "X") (str "!")
                Submission.initial Submission2.out_char_stdout
                (Submission2.mkWorld [mkMacro (str "A") (str "hello-#-world")] [] [])
                eq_refl eq_refl eq_refl eq_refl) as (H2 & _).
  pose proof (macro_call_expands_instance (fun _ => None) 19 "U" (str "nknown")
                (str "x") [] Submission.initial Submission2.out_char_stdout
                (Submission2.mkWorld [] [] [])
                eq_refl eq_refl eq_refl eq_refl) as (_ & H1).
  split.
  - etransitivity; [exact H2|]. vm_compute. reflexivity.
  - exact H1.
Defined.

(** ** Instantiating a macro value *)

Lemma instantiate_app_bounded (n : nat) (a b arg : text) :
  List.length a <= n -> escaping false a = false ->
  instantiate (a ++ b) arg = instantiate a arg ++ instantiate b arg.
Proof.
  revert a; induction n as [|n IH]; intros a Hlen He.
  - destruct a; [reflexivity | cbn in Hlen; lia].
  - destruct a as [|c a]; [reflexivity|].
    cbn [List.length] in Hlen. cbn [escaping] in He.
    cbn [app instantiate]. destruct (c =? "\") eqn:Ec.
    + destruct a as [|c1 a]; [discriminate He|].
      cbn [escaping] in He. cbn [app List.length] in *.
      rewrite (IH a) by (lia || exact He).
      destruct (is_special c1); reflexivity.
    + rewrite (IH a) by (lia || exact He).
      destruct (c =? "#"); [rewrite app_assoc|]; reflexivity.
Qed.

(** X15. Instantiation works piece by piece.  When the first piece [a] of
    a macro value does not end in a backslash that would escape what
    follows, the instance of [a] followed by [b] is the instance of [a]
    followed by the instance of [b]; an unescaped [#] between them becomes
    the argument, copied as it is (a [#] or a backslash inside the argument
    is not looked at again), and an escaped one, [\#], becomes a plain [#]. *)
Theorem instantiate_piecewise (a b arg : text) :
  escaping false a = false ->
  instantiate (a ++ b) arg = instantiate a arg ++ instantiate b arg
  /\ instantiate (a ++ "#" :: b) arg = instantiate a arg ++ arg ++ instantiate b arg
  /\ instantiate (a ++ "\" :: "#" :: b) arg
     = instantiate a arg ++ "#" :: instantiate b arg.
Proof.
  intro He. repeat split.
  - apply (instantiate_app_bounded (List.length a)); [lia | exact He].
  - rewrite (instantiate_app_bounded (List.length a)) by (lia || exact He).
    reflexivity.
  - rewrite (instantiate_app_bounded (List.length a)) by (lia || exact He).
    reflexivity.
Qed.

Lemma instantiate_piecewise_witness :
  instantiate (str "a\\#b" ++ "#" :: str "c") (str "#\")
  = instantiate (str "a\\#b") (str "#\") ++ str "#\" ++ instantiate (str "c") (str "#\").
Proof.
  apply (instantiate_piecewise (str "a\\#b") (str "c") (str "#\")). reflexivity.
Defined.

(** ** Text without macro calls *)

Lemma no_backslash_macro_free (t : text) :
  forallb (fun c => negb (c =? "\")) t = true ->
  macro_free t = true /\ resolve_escapes t = t.
Proof.
  induction t as [|c t IH]; intro H; [split; reflexivity|].
  cbn [forallb] in H. apply andb_true_iff in H as [Hc H].
  apply negb_true_iff in Hc. cbn [macro_free resolve_escapes]. rewrite Hc.
  destruct (IH H) as [-> ->]. split; reflexivity.
Qed.

Section Literal.
Variable fopen : text -> option text.

Lemma literal_text2_bounded (n : nat) (t : text) (fuel : nat) (w : Submission2.world) :
  List.length t <= n -> macro_free t = true -> List.length t < fuel ->
  Submission2.expand_text_impl fopen fuel t Submission2.out_char_stdout w
  = Returns Submission2.out_char_stdout
      (Submission2.mkWorld (Submission2.table w)
         (Submission2.stdout w ++ resolve_escapes t) (Submission2.stderr w))
  /\ forall ob,
       Submission2.expand_text_impl fopen fuel t (Submission2.out_char_buffer ob) w
       = Returns (Submission2.out_char_buffer (ob ++ resolve_escapes t)) w.
Proof.
  revert t fuel w; induction n as [|n IH]; intros t fuel w Hlen Hm Hfuel.
  - destruct t; [|cbn in Hlen; lia]. destruct fuel; [cbn in Hfuel; lia|].
    cbn. rewrite app_nil_r. split; [destruct w; reflexivity|].
    intro ob. rewrite app_nil_r. reflexivity.
  - destruct t as [|c t].
    { destruct fuel; [cbn in Hfuel; lia|].
      cbn. rewrite app_nil_r. split; [destruct w; reflexivity|].
      intro ob. rewrite app_nil_r. reflexivity. }
    destruct fuel as [|fuel]; [cbn in Hfuel; lia|].
    cbn [List.length] in Hlen, Hfuel. cbn [macro_free] in Hm.
    cbn [resolve_escapes].
    change (Submission2.expand_text_impl fopen (S fuel))
      with (Submission2.expand_text_step fopen (Submission2.expand_text_impl fopen fuel)).
    unfold Submission2.expand_text_step.
    destruct (c =? "\") eqn:Ec.
    + destruct t as [|c1 t].
      * cbn. split; [reflexivity|]. intro ob. reflexivity.
      * apply andb_true_iff in Hm as [Hc1 Hm]. apply negb_true_iff in Hc1.
        cbn [List.length] in Hlen, Hfuel.
        destruct (is_special c1) eqn:Es.
        -- split.
           ++ unfold Submission2.out_char, bind, modify, ret.
              rewrite (proj1 (IH t fuel _ ltac:(lia) Hm ltac:(lia))).
              cbn. rewrite <- app_assoc. reflexivity.
           ++ intro ob. unfold Submission2.out_char, bind, ret.
              rewrite (proj2 (IH t fuel _ ltac:(lia) Hm ltac:(lia))).
              rewrite <- app_assoc. reflexivity.
        -- rewrite Hc1. split.
           ++ unfold Submission2.out_char, bind, modify, ret.
              rewrite (proj1 (IH t fuel _ ltac:(lia) Hm ltac:(lia))).
              cbn. rewrite <- !app_assoc. reflexivity.
           ++ intro ob. unfold Submission2.out_char, bind, ret.
              rewrite (proj2 (IH t fuel _ ltac:(lia) Hm ltac:(lia))).
              rewrite <- !app_assoc. reflexivity.
    + split.
      * unfold Submission2.out_char, bind, modify, ret.
        rewrite (proj1 (IH t fuel _ ltac:(lia) Hm ltac:(lia))).
        cbn. rewrite <- app_assoc. reflexivity.
      * intro ob. unfold Submission2.out_char, bind, ret.
        rewrite (proj2 (IH t fuel _ ltac:(lia) Hm ltac:(lia))).
        rewrite <- app_assoc. reflexivity.
Qed.

Lemma literal_text1_bounded (n : nat) (t : text) (fuel : nat) (w : Submission.world) :
  List.length t <= n -> macro_free t = true -> List.length t < fuel ->
  Submission.g_errorOccurred w = false ->
  Submission.expand_text_impl fopen fuel t w
  = Returns tt (Submission.set_outputBuffer
                  (Submission.g_outputBuffer w ++ resolve_escapes t) w).
Proof.
  revert t fuel w; induction n as [|n IH]; intros t fuel w Hlen Hm Hfuel Hflag.
  - destruct t; [|cbn in Hlen; lia]. destruct fuel; [cbn in Hfuel; lia|].
    cbn. rewrite app_nil_r. destruct w; reflexivity.
  - destruct t as [|c t].
    { destruct fuel; [cbn in Hfuel; lia|].
      cbn. rewrite app_nil_r. destruct w; reflexivity. }
    destruct fuel as [|fuel]; [cbn in Hfuel; lia|].
    cbn [List.length] in Hlen, Hfuel. cbn [macro_free] in Hm.
    cbn [resolve_escapes].
    change (Submission.expand_text_impl fopen (S fuel))
      with (Submission.expand_text_step fopen (Submission.expand_text_impl fopen fuel)).
    unfold Submission.expand_text_step.
    unfold bind at 1, gets at 1. rewrite Hflag.
    destruct (c =? "\") eqn:Ec.
    + destruct t as [|c1 t].
      * rewrite append_char_to_output_spec by exact Hflag. reflexivity.
      * apply andb_true_iff in Hm as [Hc1 Hm]. apply negb_true_iff in Hc1.
        cbn [List.length] in Hlen, Hfuel.
        destruct (is_special c1) eqn:Es.
        -- unfold bind. rewrite append_char_to_output_spec by exact Hflag.
           rewrite (IH t fuel _ ltac:(lia) Hm ltac:(lia)) by exact Hflag.
           destruct w; unfold Submission.set_outputBuffer; cbn.
           rewrite <- app_assoc. reflexivity.
        -- rewrite Hc1. unfold bind.
           rewrite !append_char_to_output_spec by exact Hflag.
           rewrite (IH t fuel _ ltac:(lia) Hm ltac:(lia)) by exact Hflag.
           destruct w; unfold Submission.set_outputBuffer; cbn.
           rewrite <- !app_assoc. reflexivity.
    + unfold bind. rewrite append_char_to_output_spec by exact Hflag.
      rewrite (IH t fuel _ ltac:(lia) Hm ltac:(lia)) by exact Hflag.
      destruct w; unfold Submission.set_outputBuffer; cbn.
      rewrite <- app_assoc. reflexivity.
Qed.
End Literal.

(** X16. Text in which no backslash starts a macro name is expanded to
    itself with its escapes resolved: a backslash before one of [\ { } # %]
    is dropped and every other character, a backslash before any other
    character included, is copied.  The run returns with fuel beyond the
    length of the text, changes neither the table nor the error stream, and
    appends to whichever output is current.  In particular text without a
    backslash is returned unchanged. *)
Theorem literal_text_resolves_escapes (fopen : text -> option text)
    (t : text) (fuel : nat)
    (w1 : Submission.world) (ob : text) (w2 : Submission2.world) :
  macro_free t = true -> List.length t < fuel ->
  Submission.g_errorOccurred w1 = false ->
  Submission2.expand_text_impl fopen fuel t Submission2.out_char_stdout w2
  = Returns Submission2.out_char_stdout
      (Submission2.mkWorld (Submission2.table w2)
         (Submission2.stdout w2 ++ resolve_escapes t) (Submission2.stderr w2))
  /\ Submission2.expand_text_impl fopen fuel t (Submission2.out_char_buffer ob) w2
     = Returns (Submission2.out_char_buffer (ob ++ resolve_escapes t)) w2
  /\ Submission.expand_text_impl fopen fuel t w1
     = Returns tt (Submission.set_outputBuffer
                     (Submission.g_outputBuffer w1 ++ resolve_escapes t) w1)
  /\ (forallb (fun c => negb (c =? "\")) t = true -> resolve_escapes t = t).
Proof.
  intros Hm Hfuel Hflag.
  destruct (literal_text2_bounded fopen (List.length t) t fuel w2
              (Nat.le_refl _) Hm Hfuel) as [H2 H2'].
  split; [exact H2|]. split; [apply H2'|].
  split; [apply (literal_text1_bounded fopen (List.length t)); auto|].
  intro H. apply no_backslash_macro_free, H.
Qed.

Lemma literal_text_resolves_escapes_witness :
  Submission2.expand_text_impl (fun _ => None) 20 (str "a\{b\\c\ d\")
    Submission2.out_char_stdout (Submission2.mkWorld [] [] [])
  = Returns Submission2.out_char_stdout
      (Submission2.mkWorld [] (str "a{b\c\ d\") []).
Proof.
  apply (literal_text_resolves_escapes (fun _ => None) (str "a\{b\\c\ d\") 20
           Submission.initial [] (Submission2.mkWorld [] [] []));
    [reflexivity | cbn; lia | reflexivity].
Defined.

(** ** Removing comments *)

Lemma remove_comments_guarded (prev : ascii) (s : text) :
  guarded prev s = true -> remove_comments (Copying prev) s = s.
Proof.
  revert prev; induction s as [|c s IH]; intros prev H; [reflexivity|].
  cbn [guarded] in H. apply andb_true_iff in H as [Hc H].
  cbn [remove_comments].
  destruct ((c =? "%") && negb (prev =? "\")) eqn:E.
  - apply andb_true_iff in E as [E1 E2]. rewrite E1 in Hc.
    apply negb_true_iff in E2. rewrite E2 in Hc. discriminate.
  - rewrite (IH c H). reflexivity.
Qed.

Lemma remove_comments_output_guarded (s : text) (st : reader) :
  match st with
  | Copying prev => guarded prev (remove_comments st s) = true
  | _ => forall prev, guarded prev (remove_comments st s) = true
  end.
Proof.
  revert st; induction s as [|c s IH]; intros [prev| |]; try reflexivity;
    cbn [remove_comments].
  - destruct ((c =? "%") && negb (prev =? "\")) eqn:E.
    + apply (IH InComment).
    + cbn [guarded]. rewrite (IH (Copying c)), andb_true_r.
      destruct (c =? "%"); [|reflexivity]. cbn [andb] in E.
      apply negb_false_iff in E. rewrite E. reflexivity.
  - destruct (c =? newline); [apply (IH AfterComment) | apply (IH InComment)].
  - intro prev. destruct ((c =? " ") || (c =? tab)); [apply (IH AfterComment)|].
    destruct (c =? "%") eqn:E; [apply (IH InComment)|].
    cbn [guarded]. rewrite E, (IH (Copying c)). reflexivity.
Qed.

(** X17. Comment removal leaves a text as it is exactly when every [%] of
    the text comes directly after a backslash; its result is always such a
    text, so removing comments a second time changes nothing. *)
Theorem remove_comments_fixed_point (s : text) :
  (remove_comments (Copying NUL) s = s <-> guarded NUL s = true)
  /\ guarded NUL (remove_comments (Copying NUL) s) = true
  /\ remove_comments (Copying NUL) (remove_comments (Copying NUL) s)
     = remove_comments (Copying NUL) s.
Proof.
  pose proof (remove_comments_output_guarded s (Copying NUL)) as G.
  split; [|split].
  - split.
    + intro H. rewrite <- H. exact G.
    + apply remove_comments_guarded.
  - exact G.
  - apply remove_comments_guarded, G.
Qed.

Lemma last_cons (pre : text) (c prev : ascii) :
  last (c :: pre) prev = last pre c.
Proof.
  revert c prev; induction pre as [|a pre IH]; intros c prev; [reflexivity|].
  change (last (c :: a :: pre) prev) with (last (a :: pre) prev).
  rewrite (IH a prev), (IH a c). reflexivity.
Qed.

Lemma remove_comments_app (pre s : text) (prev : ascii) :
  guarded prev pre = true ->
  remove_comments (Copying prev) (pre ++ s)
  = pre ++ remove_comments (Copying (last_char prev pre)) s.
Proof.
  revert prev; induction pre as [|c pre IH]; intros prev H; [reflexivity|].
  cbn [guarded] in H. apply andb_true_iff in H as [Hc H].
  cbn [app remove_comments].
  destruct ((c =? "%") && negb (prev =? "\")) eqn:E.
  - apply andb_true_iff in E as [E1 E2]. rewrite E1 in Hc.
    apply negb_true_iff in E2. rewrite E2 in Hc. discriminate.
  - rewrite (IH c H). unfold last_char. rewrite last_cons. reflexivity.
Qed.

Lemma remove_comments_in_comment (body s : text) :
  forallb (fun c => negb (c =? newline)) body = true ->
  remove_comments InComment (body ++ s) = remove_comments InComment s.
Proof.
  induction body as [|c body IH]; intro H; [reflexivity|].
  cbn [forallb] in H. apply andb_true_iff in H as [Hc H].
  apply negb_true_iff in Hc. cbn [app remove_comments]. rewrite Hc. apply IH, H.
Qed.

Lemma remove_comments_blanks (blanks s : text) :
  forallb is_blank blanks = true ->
  remove_comments AfterComment (blanks ++ s) = remove_comments AfterComment s.
Proof.
  induction blanks as [|c blanks IH]; intro H; [reflexivity|].
  cbn [forallb] in H. apply andb_true_iff in H as [Hc H].
  unfold is_blank in Hc. cbn [app remove_comments]. rewrite Hc. apply IH, H.
Qed.

Lemma remove_comments_after (rest : text) :
  no_leading_blank rest = true ->
  remove_comments AfterComment rest = remove_comments (Copying NUL) rest.
Proof.
  destruct rest as [|c rest]; [reflexivity|].
  cbn [no_leading_blank]. unfold is_blank. intro H. apply negb_true_iff in H.
  cbn [remove_comments]. rewrite H.
  change (NUL =? "\") with false. cbn [negb]. rewrite andb_true_r.
  destruct (c =? "%"); reflexivity.
Qed.

(** X18. How far a comment reaches.  After a text [pre] that comment
    removal keeps and that does not end in a backslash, a [%] starts a
    comment: the comment takes the rest of its line, the newline and the
    blanks and tabs that open the next line, and removal goes on behind
    them as at the start of a file; a comment that the end of the file cuts
    short is dropped whole. *)
Theorem comment_reaches_next_line (pre body blanks rest : text) :
  guarded NUL pre = true -> (last_char NUL pre =? "\") = false ->
  forallb (fun c => negb (c =? newline)) body = true ->
  forallb is_blank blanks = true -> no_leading_blank rest = true ->
  remove_comments (Copying NUL) (pre ++ "%" :: body ++ newline :: blanks ++ rest)
  = pre ++ remove_comments (Copying NUL) rest
  /\ remove_comments (Copying NUL) (pre ++ "%" :: body) = pre.
Proof.
  intros Hg Hl Hb Hbl Hr. split.
  - rewrite remove_comments_app by exact Hg. f_equal.
    cbn [remove_comments]. rewrite Hl. cbn [negb andb].
    change ("%" =? "%") with true. cbv iota.
    rewrite remove_comments_in_comment by exact Hb.
    cbn [remove_comments]. change (newline =? newline) with true. cbv iota.
    rewrite remove_comments_blanks by exact Hbl.
    apply remove_comments_after, Hr.
  - rewrite remove_comments_app by exact Hg.
    cbn [remove_comments]. rewrite Hl. cbn [negb andb].
    change ("%" =? "%") with true. cbv iota.
    rewrite <- (app_nil_r body), remove_comments_in_comment by exact Hb.
    cbn [remove_comments]. apply app_nil_r.
Qed.

Lemma comment_reaches_next_line_witness :
  remove_comments (Copying NUL)
    (str "a\%b" ++ "%" :: str " note % more" ++ newline :: [" "; tab] ++ str "c d")
  = str "a\%b" ++ remove_comments (Copying NUL) (str "c d").
Proof.
  apply (comment_reaches_next_line (str "a\%b") (str " note % more") [" "; tab] (str "c d"));
    reflexivity.
Defined.

(** ** Reading the input *)

Lemma first_missing_cons (fopen : text -> option text) (path : text)
    (paths : list text) :
  first_missing fopen (path :: paths)
  = match fopen path with
    | Some _ => first_missing fopen paths
    | None => Some path
    end.
Proof. unfold first_missing. cbn [find]. destruct (fopen path); reflexivity. Qed.

Lemma read_files2_spec (fopen : text -> option text) (paths : list text)
    (w : Submission2.world) :
  Submission2.read_files fopen paths w
  = match first_missing fopen paths with
    | Some path => Submission2.fail (CannotOpenFile path) w
    | None => Returns (stripped_files fopen paths) w
    end.
Proof.
  induction paths as [|path paths IH]; [reflexivity|].
  cbn [Submission2.read_files]. rewrite first_missing_cons.
  unfold stripped_files. cbn [flat_map].
  destruct (fopen path) as [bytes|]; [|reflexivity].
  unfold bind. rewrite IH.
  destruct (first_missing fopen paths); reflexivity.
Qed.

Lemma read_files1_spec (fopen : text -> option text) (paths : list text)
    (w : Submission.world) :
  Submission.read_files fopen paths w
  = match first_missing fopen paths with
    | Some path => Submission.raise_error (CannotOpenFile path) w
    | None => Returns (stripped_files fopen paths) w
    end.
Proof.
  induction paths as [|path paths IH]; [reflexivity|].
  cbn [Submission.read_files]. rewrite first_missing_cons.
  unfold stripped_files. cbn [flat_map].
  destruct (fopen path) as [bytes|]; [|reflexivity].
  unfold bind. rewrite IH.
  destruct (first_missing fopen paths); [|reflexivity].
  unfold Submission.raise_error, bind, modify, exit. reflexivity.
Qed.

(** X19. What the programs expand.  With no file named it is standard
    input; otherwise it is the named files one after the other in the order
    given.  Comments are removed from each source on its own, so a comment
    never runs from one file into the next, and the whole is cut at its
    first NUL.  The first file that cannot be opened ends the run with
    "Cannot open file" before anything is expanded, whether or not files
    before it could be read. *)
Theorem input_is_files_in_order (fopen : text -> option text)
    (argv : list text) (stdin : text)
    (w1 : Submission.world) (w2 : Submission2.world) :
  Submission.g_errorOccurred w1 = false ->
  Submission2.read_all_input_and_remove_comments fopen argv stdin w2
  = match argv with
    | [] => Returns (c_str (remove_comments (Copying NUL) stdin)) w2
    | _ :: _ =>
        match first_missing fopen argv with
        | Some path =>
            Exits EXIT_FAILURE
              (Submission2.mkWorld (Submission2.table w2) (Submission2.stdout w2)
                 (Submission2.stderr w2 ++ [CannotOpenFile path]))
        | None => Returns (c_str (stripped_files fopen argv)) w2
        end
    end
  /\ Submission.read_all_input_and_remove_comments fopen argv stdin w1
     = match argv with
       | [] => Returns (c_str (remove_comments (Copying NUL) stdin)) w1
       | _ :: _ =>
           match first_missing fopen argv with
           | Some path =>
               Exits 0
                 (Submission.mkWorld (Submission.table w1) true
                    (Submission.g_outputBuffer w1) (Submission.stdout w1)
                    (Submission.stderr w1 ++ [CannotOpenFile path]))
           | None => Returns (c_str (stripped_files fopen argv)) w1
           end
       end.
Proof.
  intro Hflag. split.
  - destruct argv as [|path paths]; [reflexivity|].
    unfold Submission2.read_all_input_and_remove_comments, bind.
    rewrite read_files2_spec.
    destruct (first_missing fopen (path :: paths)); reflexivity.
  - destruct argv as [|path paths]; [reflexivity|].
    unfold Submission.read_all_input_and_remove_comments, bind.
    rewrite read_files1_spec.
    destruct (first_missing fopen (path :: paths)); [|reflexivity].
    rewrite raise_error_spec by exact Hflag. reflexivity.
Qed.

Lemma input_is_files_in_order_witness :
  Submission.read_all_input_and_remove_comments
    (fun path => if streq path (str "a") then Some (str "x% open comment")
                 else if streq path (str "b") then Some (str "y") else None)
    [str "a"; str "b"] [] Submission.initial
  = Returns (str "xy") Submission.initial.
Proof.
  pose proof (input_is_files_in_order
                (fun path => if streq path (str "a") then Some (str "x% open comment")
                             else if streq path (str "b") then Some (str "y") else None)
                [str "a"; str "b"] [] Submission.initial
                (Submission2.mkWorld [] [] []) eq_refl) as (_ & H).
  exact H.
Defined.

(** ** [submission2]: the sink only decides where the output goes *)

Section Routing2.
Import Submission2.
Variable fopen : text -> option text.

Lemma emitted_start (sk : sink) (w : world) : emitted (sk, w) [] sk w.
Proof.
  split; [reflexivity|]. cbn [fst snd]. destruct sk as [|ob].
  - split; [reflexivity | symmetry; apply app_nil_r].
  - split; [rewrite app_nil_r; reflexivity | reflexivity].
Qed.

Lemma emitted_streams (o : sink * world) (out : text) (sk : sink) (w w' : world) :
  stdout w' = stdout w -> stderr w' = stderr w ->
  emitted o out sk w -> emitted o out sk w'.
Proof.
  unfold emitted. intros -> ->. exact (fun H => H).
Qed.

Lemma emitted_stopped (o : sink * world) (out : text) (sk : sink) (w w' : world)
    (d : diagnostic) :
  stdout w' = stdout w -> stderr w' = stderr w ++ [d] ->
  emitted o out sk w -> stopped o out d w'.
Proof.
  unfold emitted, stopped. intros -> -> [-> H]. split; [reflexivity|].
  destruct (fst o); apply H.
Qed.

Lemma routed_streams (o1 o2 : sink * world) (sk1 sk2 : sink) (w1 w2 w1' w2' : world) :
  table w1' = table w2' ->
  stdout w1' = stdout w1 -> stderr w1' = stderr w1 ->
  stdout w2' = stdout w2 -> stderr w2' = stderr w2 ->
  routed o1 o2 sk1 sk2 w1 w2 -> routed o1 o2 sk1 sk2 w1' w2'.
Proof.
  intros Ht Ho1 He1 Ho2 He2 (_ & out & H1 & H2). split; [exact Ht|].
  exists out. split; eapply emitted_streams; eassumption.
Qed.

Lemma same_result_ret {A} o1 o2 sk1 sk2 (a : A) :
  same_result o1 o2 sk1 sk2 (ret a) (ret a).
Proof. intros w1 w2 H. split; [reflexivity | exact H]. Qed.

Lemma same_result_gets {A} o1 o2 sk1 sk2 (f : MacroTable -> A) :
  same_result o1 o2 sk1 sk2 (gets (fun w => f (table w))) (gets (fun w => f (table w))).
Proof.
  intros w1 w2 H. split; [|exact H]. destruct H as [-> _]. reflexivity.
Qed.

Lemma alike_fail {A} o1 o2 sk1 sk2 (d : diagnostic)
    (Q : A -> world -> A -> world -> Prop) :
  alike (routed o1 o2 sk1 sk2) (fail d) (fail d) Q (stopped_alike o1 o2).
Proof.
  intros w1 w2 (Ht & out & H1 & H2). split; [reflexivity|].
  split; [exact Ht|]. exists out, d.
  split; eapply emitted_stopped; try eassumption; reflexivity.
Qed.

Lemma same_result_fail {A} o1 o2 sk1 sk2 (d : diagnostic) :
  same_result o1 o2 sk1 sk2 (@fail A d) (fail d).
Proof. apply alike_fail. Qed.

Lemma alike_diverge {A} o1 o2 sk1 sk2 (Q : A -> world -> A -> world -> Prop) :
  alike (routed o1 o2 sk1 sk2) diverge diverge Q (stopped_alike o1 o2).
Proof. intros w1 w2 _. exact I. Qed.

Lemma same_result_bind {A B} o1 o2 sk1 sk2 (m1 m2 : run A) (k1 k2 : A -> run B) :
  same_result o1 o2 sk1 sk2 m1 m2 ->
  (forall a, same_result o1 o2 sk1 sk2 (k1 a) (k2 a)) ->
  same_result o1 o2 sk1 sk2 (bind m1 k1) (bind m2 k2).
Proof.
  intros Hm Hk w1 w2 H. specialize (Hm w1 w2 H). unfold bind.
  destruct (m1 w1) as [a1 w1'|s1 w1'|], (m2 w2) as [a2 w2'|s2 w2'|];
    try contradiction; try exact Hm.
  destruct Hm as [-> Hm]. apply Hk, Hm.
Qed.

Lemma same_output_bind_result {A} o1 o2 sk1 sk2 (m1 m2 : run A)
    (k1 k2 : A -> run sink) :
  same_result o1 o2 sk1 sk2 m1 m2 ->
  (forall a, same_output o1 o2 sk1 sk2 (k1 a) (k2 a)) ->
  same_output o1 o2 sk1 sk2 (bind m1 k1) (bind m2 k2).
Proof.
  intros Hm Hk w1 w2 H. specialize (Hm w1 w2 H). unfold bind.
  destruct (m1 w1) as [a1 w1'|s1 w1'|], (m2 w2) as [a2 w2'|s2 w2'|];
    try contradiction; try exact Hm.
  destruct Hm as [-> Hm]. apply Hk, Hm.
Qed.

Lemma same_output_bind o1 o2 sk1 sk2 (m1 m2 : run sink) (k1 k2 : sink -> run sink) :
  same_output o1 o2 sk1 sk2 m1 m2 ->
  (forall a1 a2, same_output o1 o2 a1 a2 (k1 a1) (k2 a2)) ->
  same_output o1 o2 sk1 sk2 (bind m1 k1) (bind m2 k2).
Proof.
  intros Hm Hk w1 w2 H. specialize (Hm w1 w2 H). unfold bind.
  destruct (m1 w1) as [a1 w1'|s1 w1'|], (m2 w2) as [a2 w2'|s2 w2'|];
    try contradiction; try exact Hm.
  apply Hk, Hm.
Qed.

Lemma same_output_ret o1 o2 sk1 sk2 :
  same_output o1 o2 sk1 sk2 (ret sk1) (ret sk2).
Proof. intros w1 w2 H. exact H. Qed.

Lemma emitted_out_char (o : sink * world) (out : text) (sk : sink) (w : world)
    (c : ascii) :
  emitted o out sk w ->
  match out_char c sk w with
  | Returns sk' w' => emitted o (out ++ [c]) sk' w' /\ table w' = table w
  | _ => False
  end.
Proof.
  unfold emitted. intros [He H]. destruct (fst o) as [|ob]; destruct H as [-> Ho].
  - cbn. rewrite Ho, app_assoc. auto.
  - cbn. rewrite app_assoc. auto.
Qed.

Lemma same_output_out_char o1 o2 sk1 sk2 (c : ascii) :
  same_output o1 o2 sk1 sk2 (out_char c sk1) (out_char c sk2).
Proof.
  intros w1 w2 (Ht & out & H1 & H2).
  pose proof (emitted_out_char _ _ _ _ c H1) as G1.
  pose proof (emitted_out_char _ _ _ _ c H2) as G2.
  destruct (out_char c sk1 w1) as [a1 w1'| |]; try contradiction.
  destruct (out_char c sk2 w2) as [a2 w2'| |]; try contradiction.
  destruct G1 as [G1 T1], G2 as [G2 T2].
  split; [congruence|]. exists (out ++ [c]). auto.
Qed.

Lemma same_result_define_macro o1 o2 sk1 sk2 (nm val : text) :
  same_result o1 o2 sk1 sk2 (define_macro nm val) (define_macro nm val).
Proof.
  intros w1 w2 H. pose proof H as (Ht & _).
  unfold define_macro, bind, gets. rewrite Ht.
  destruct (lookup_macro (table w2) nm).
  - exact (@same_result_fail unit o1 o2 sk1 sk2 _ w1 w2 H).
  - cbn. split; [reflexivity|].
    eapply routed_streams; [| | | | |exact H]; cbn; congruence.
Qed.

Lemma same_result_undef_macro o1 o2 sk1 sk2 (nm : text) :
  same_result o1 o2 sk1 sk2 (undef_macro nm) (undef_macro nm).
Proof.
  intros w1 w2 H. pose proof H as (Ht & _).
  unfold undef_macro, bind, gets. rewrite Ht.
  destruct (unlink_macro (table w2) nm).
  - cbn. split; [reflexivity|].
    eapply routed_streams; [| | | | |exact H]; cbn; congruence.
  - exact (@same_result_fail unit o1 o2 sk1 sk2 _ w1 w2 H).
Qed.

Lemma same_result_readArg o1 o2 sk1 sk2 (p : text) :
  same_result o1 o2 sk1 sk2 (readArg p) (readArg p).
Proof.
  unfold readArg.
  repeat first
    [ apply same_result_ret
    | apply alike_fail
    | match goal with
      | |- same_result _ _ _ _ (match ?x with _ => _ end) _ => destruct x
      end ].
Qed.

Lemma same_result_read_included_file o1 o2 sk1 sk2 (path : text) :
  same_result o1 o2 sk1 sk2 (read_included_file fopen path)
    (read_included_file fopen path).
Proof.
  unfold read_included_file.
  destruct (fopen path); [apply same_result_ret | apply alike_fail].
Qed.

(** What a call with a fresh buffer gives is the same in the two runs. *)
Lemma same_result_capture (rec : text -> sink -> run sink) :
  (forall o1 o2 sk1 sk2 input,
      same_output o1 o2 sk1 sk2 (rec input sk1) (rec input sk2)) ->
  forall o1 o2 sk1 sk2 input,
    same_result o1 o2 sk1 sk2 (rec input (out_char_buffer []))
      (rec input (out_char_buffer [])).
Proof.
  intros H o1 o2 sk1 sk2 input w1 w2 HS.
  pose proof (H (out_char_buffer [], w1) (out_char_buffer [], w2)
                (out_char_buffer []) (out_char_buffer []) input w1 w2) as Hin.
  destruct HS as (Ht & out0 & H1 & H2).
  assert (Hpre : routed (out_char_buffer [], w1) (out_char_buffer [], w2)
                   (out_char_buffer []) (out_char_buffer []) w1 w2).
  { split; [exact Ht|]. exists []. split; apply emitted_start. }
  specialize (Hin Hpre).
  destruct (rec input (out_char_buffer []) w1) as [a1 w1'|s1 w1'|],
           (rec input (out_char_buffer []) w2) as [a2 w2'|s2 w2'|];
    try contradiction; try exact I.
  - destruct Hin as (Ht' & out & (E1 & -> & O1) & (E2 & -> & O2)).
    cbn [fst snd] in *. split; [reflexivity|]. split; [exact Ht'|].
    exists out0. split; eapply emitted_streams; eassumption.
  - destruct Hin as (-> & Ht' & out & d & (E1 & O1) & (E2 & O2)).
    cbn [fst snd] in *. split; [reflexivity|]. split; [exact Ht'|].
    exists out0, d. split; eapply emitted_stopped; eassumption.
Qed.

Ltac same_output_structure lemmas :=
  repeat first
    [ solve [lemmas]
    | apply same_output_ret
    | apply alike_fail
    | apply same_output_bind_result; [solve [lemmas] | intros]
    | apply same_output_bind; [solve [lemmas] | intros]
    | match goal with
      | |- same_output _ _ _ _ (match ?x with _ => _ end) _ => destruct x
      end ].

Lemma expand_text_step2_same_output (rec : text -> sink -> run sink) :
  (forall o1 o2 sk1 sk2 input,
      same_output o1 o2 sk1 sk2 (rec input sk1) (rec input sk2)) ->
  forall o1 o2 sk1 sk2 input,
    same_output o1 o2 sk1 sk2 (expand_text_step fopen rec input sk1)
      (expand_text_step fopen rec input sk2).
Proof.
  intros H o1 o2 sk1 sk2 input. unfold expand_text_step.
  same_output_structure
    ltac:(first [ apply H | apply same_output_out_char
                | apply same_result_readArg | apply same_result_define_macro
                | apply same_result_undef_macro
                | apply same_result_read_included_file
                | apply (same_result_gets _ _ _ _ (fun tbl => tbl))
                | apply (same_result_capture _ H) ]).
Qed.

Lemma expand_text_impl2_same_output (fuel : nat) :
  forall o1 o2 sk1 sk2 input,
    same_output o1 o2 sk1 sk2 (expand_text_impl fopen fuel input sk1)
      (expand_text_impl fopen fuel input sk2).
Proof.
  induction fuel as [|fuel IH]; intros o1 o2 sk1 sk2 input.
  - apply alike_diverge.
  - apply expand_text_step2_same_output, IH.
Qed.
End Routing2.

(** X20. In [submission2], [expand_text_into_string] returns exactly the
    text that [expand_text_impl] with [out_char_stdout] prints for the same
    input from the same world, and changes the table in the same way; it
    writes nothing to standard output.  When the one exits the other does,
    with the same status and diagnostic; when the one does not end neither
    does the other. *)
Theorem capture_is_what_is_printed (fopen : text -> option text) (fuel : nat)
    (input : text) (w : Submission2.world) :
  match Submission2.expand_text_impl fopen fuel input Submission2.out_char_stdout w,
        Submission2.expand_text_into_string fopen fuel input w with
  | Returns sk w1, Returns s w2 =>
      sk = Submission2.out_char_stdout
      /\ Submission2.stdout w1 = Submission2.stdout w ++ s
      /\ Submission2.stderr w1 = Submission2.stderr w
      /\ w2 = Submission2.mkWorld (Submission2.table w1) (Submission2.stdout w)
                (Submission2.stderr w)
  | Exits s1 w1, Exits s2 w2 =>
      s1 = s2
      /\ (exists out, Submission2.stdout w1 = Submission2.stdout w ++ out)
      /\ (exists d, Submission2.stderr w1 = Submission2.stderr w ++ [d])
      /\ w2 = Submission2.mkWorld (Submission2.table w1) (Submission2.stdout w)
                (Submission2.stderr w1)
  | Diverges, Diverges => True
  | _, _ => False
  end.
Proof.
  assert (Hpre : routed (Submission2.out_char_stdout, w) (Submission2.out_char_buffer [], w)
                   Submission2.out_char_stdout (Submission2.out_char_buffer []) w w).
  { split; [reflexivity|]. exists []. split; apply emitted_start. }
  pose proof (expand_text_impl2_same_output fopen fuel
                (Submission2.out_char_stdout, w) (Submission2.out_char_buffer [], w)
                Submission2.out_char_stdout (Submission2.out_char_buffer []) input
                w w Hpre) as H.
  unfold Submission2.expand_text_into_string, bind.
  destruct (Submission2.expand_text_impl fopen fuel input Submission2.out_char_stdout w)
    as [sk w1|s1 w1|],
    (Submission2.expand_text_impl fopen fuel input (Submission2.out_char_buffer []) w)
    as [sk2 w2|s2 w2|]; try contradiction; try exact I.
  - destruct H as (Ht & out & (E1 & -> & O1) & (E2 & -> & O2)).
    cbn [fst snd app] in *. unfold ret.
    repeat split; try assumption.
    destruct w2; cbn in *; subst; reflexivity.
  - destruct H as (-> & Ht & out & d & (E1 & O1) & (E2 & O2)).
    cbn [fst snd] in *.
    repeat split; [exists out; exact O1 | exists d; exact E1 |].
    destruct w2; cbn in *; subst. rewrite E1. reflexivity.
Qed.

(** ** [submission]: the buffer only collects the output *)

Section Routing1.
Import Submission.
Variable fopen : text -> option text.

Lemma same_run_ret {A} b1 b2 (a : A) : same_run b1 b2 (ret a).
Proof. intros w1 w2 H. split; [reflexivity | exact H]. Qed.

Lemma same_run_diverge {A} b1 b2 : same_run b1 b2 (@diverge world A).
Proof. intros w1 w2 _. exact I. Qed.

Lemma same_run_gets_table b1 b2 : same_run b1 b2 (gets table).
Proof.
  intros w1 w2 H. split; [|exact H]. destruct H as [-> _]. reflexivity.
Qed.

Lemma same_run_gets_error b1 b2 : same_run b1 b2 (gets g_errorOccurred).
Proof.
  intros w1 w2 H. split; [|exact H]. destruct H as (_ & -> & -> & _). reflexivity.
Qed.

Lemma same_run_bind {A B} b1 b2 (m : run A) (k : A -> run B) :
  same_run b1 b2 m -> (forall a, same_run b1 b2 (k a)) ->
  same_run b1 b2 (bind m k).
Proof.
  intros Hm Hk w1 w2 H. specialize (Hm w1 w2 H). unfold bind.
  destruct (m w1) as [a1 w1'|s1 w1'|], (m w2) as [a2 w2'|s2 w2'|];
    try contradiction; try exact Hm.
  destruct Hm as [-> Hm]. apply Hk, Hm.
Qed.

Lemma same_run_raise_error {A} b1 b2 (d : diagnostic) :
  same_run b1 b2 (@raise_error A d).
Proof.
  intros w1 w2 (Ht & F1 & F2 & Ho & He & _).
  unfold raise_error, bind, modify, exit. rewrite F1, F2.
  split; [reflexivity|]. repeat split; cbn; congruence.
Qed.

Lemma same_run_append_char b1 b2 (c : ascii) :
  same_run b1 b2 (append_char_to_output c).
Proof.
  intros w1 w2 (Ht & F1 & F2 & Ho & He & out & B1 & B2).
  unfold append_char_to_output, modify. rewrite F1, F2.
  split; [reflexivity|]. repeat split; cbn; try assumption.
  exists (out ++ [c]). rewrite B1, B2, !app_assoc. split; reflexivity.
Qed.

Lemma same_run_append_string b1 b2 (s : text) :
  same_run b1 b2 (append_string_to_output s).
Proof.
  induction s as [|c s IH]; cbn [append_string_to_output].
  - apply same_run_ret.
  - apply same_run_bind; [apply same_run_append_char | intros _; exact IH].
Qed.

Lemma appended_set_table b1 b2 (t : MacroTable) (w1 w2 : world) :
  appended b1 b2 w1 w2 -> appended b1 b2 (set_table t w1) (set_table t w2).
Proof.
  intros (Ht & F1 & F2 & Ho & He & B). repeat split; cbn; assumption.
Qed.

Lemma same_run_define_macro b1 b2 (nm val : text) :
  same_run b1 b2 (define_macro nm val).
Proof.
  unfold define_macro. destruct (is_builtin nm); [apply same_run_ret|].
  apply same_run_bind; [apply same_run_gets_table|]. intros tbl.
  destruct (lookup_macro tbl nm); [apply same_run_raise_error|].
  intros w1 w2 H. unfold modify. split; [reflexivity|].
  pose proof H as (Ht & _). rewrite Ht. apply appended_set_table, H.
Qed.

Lemma same_run_undef_macro b1 b2 (nm : text) :
  same_run b1 b2 (undef_macro nm).
Proof.
  unfold undef_macro.
  apply same_run_bind; [apply same_run_gets_table|]. intros tbl.
  destruct (unlink_macro tbl nm); [|apply same_run_raise_error].
  intros w1 w2 H. unfold modify. split; [reflexivity|].
  apply appended_set_table, H.
Qed.

Ltac same_run_structure lemmas :=
  repeat first
    [ solve [lemmas]
    | apply same_run_ret
    | apply same_run_raise_error
    | apply same_run_bind; [solve [lemmas] | intros]
    | match goal with
      | |- same_run _ _ (match ?x with _ => _ end) => destruct x
      end ].

Lemma same_run_readArg b1 b2 (p : text) : same_run b1 b2 (readArg p).
Proof. unfold readArg. same_run_structure fail. Qed.

Lemma same_run_read_included_file b1 b2 (path : text) :
  same_run b1 b2 (read_included_file fopen path).
Proof. unfold read_included_file. same_run_structure fail. Qed.

(** What [expand_string_fully] returns is the same in the two runs. *)
Lemma same_run_expand_string_fully (rec : text -> run unit) :
  (forall b1 b2 input, same_run b1 b2 (rec input)) ->
  forall b1 b2 input, same_run b1 b2 (expand_string_fully_with rec input).
Proof.
  intros H b1 b2 input w1 w2 (Ht & F1 & F2 & Ho & He & out0 & B1 & B2).
  assert (Hpre : appended [] [] (set_outputBuffer [] w1) (set_outputBuffer [] w2)).
  { repeat split; cbn; try assumption. exists []. split; reflexivity. }
  pose proof (H [] [] input _ _ Hpre) as Hin.
  unfold expand_string_fully_with, bind, gets, modify.
  destruct (rec input (set_outputBuffer [] w1)) as [[] w1'|s1 w1'|],
           (rec input (set_outputBuffer [] w2)) as [[] w2'|s2 w2'|];
    try contradiction; try exact Hin.
  destruct Hin as (_ & Ht' & F1' & F2' & Ho' & He' & out & B1' & B2').
  rewrite F1', F2'. unfold ret. cbn [app] in *.
  split; [congruence|]. repeat split; cbn; try assumption.
  exists out0. split; assumption.
Qed.

Lemma expand_text_step1_same_run (rec : text -> run unit) :
  (forall b1 b2 input, same_run b1 b2 (rec input)) ->
  forall b1 b2 input, same_run b1 b2 (expand_text_step fopen rec input).
Proof.
  intros H b1 b2 input. unfold expand_text_step.
  same_run_structure
    ltac:(first [ apply H | apply same_run_append_char | apply same_run_append_string
                | apply same_run_readArg | apply same_run_define_macro
                | apply same_run_undef_macro | apply same_run_read_included_file
                | apply same_run_gets_table | apply same_run_gets_error
                | apply (same_run_expand_string_fully _ H) ]).
Qed.

Lemma expand_text_impl1_same_run (fuel : nat) :
  forall b1 b2 input, same_run b1 b2 (expand_text_impl fopen fuel input).
Proof.
  induction fuel as [|fuel IH]; intros b1 b2 input.
  - apply same_run_diverge.
  - apply expand_text_step1_same_run, IH.
Qed.
End Routing1.

(** X21. In [submission], with no error flagged, [expand_string_fully]
    returns exactly the text that [expand_text_impl] appends to the output
    buffer for the same input from the same world; it changes the table in
    the same way and leaves the buffer as it found it.  When the one exits
    the other does, with the same status, table and streams; when the one
    does not end neither does the other. *)
Theorem expand_string_fully_is_what_is_appended (fopen : text -> option text)
    (fuel : nat) (input : text) (tbl : MacroTable) (buf so : text)
    (se : list diagnostic) :
  let w := Submission.mkWorld tbl false buf so se in
  match Submission.expand_text_impl fopen fuel input w,
        Submission.expand_string_fully fopen fuel input w with
  | Returns _ w1, Returns s w2 =>
      Submission.g_outputBuffer w1 = buf ++ s
      /\ Submission.g_errorOccurred w1 = false
      /\ w2 = Submission.set_outputBuffer buf w1
  | Exits s1 w1, Exits s2 w2 =>
      s1 = s2
      /\ Submission.table w1 = Submission.table w2
      /\ Submission.stdout w1 = Submission.stdout w2
      /\ Submission.stderr w1 = Submission.stderr w2
  | Diverges, Diverges => True
  | _, _ => False
  end.
Proof.
  intro w.
  assert (Hpre : appended buf [] w (Submission.set_outputBuffer [] w)).
  { repeat split. exists []. split; [symmetry; apply app_nil_r | reflexivity]. }
  pose proof (expand_text_impl1_same_run fopen fuel buf [] input _ _ Hpre) as H.
  unfold Submission.expand_string_fully, Submission.expand_string_fully_with,
    bind, gets, modify.
  destruct (Submission.expand_text_impl fopen fuel input w) as [[] w1|s1 w1|],
    (Submission.expand_text_impl fopen fuel input (Submission.set_outputBuffer [] w))
    as [[] w2|s2 w2|]; try contradiction; try exact I.
  - destruct H as (_ & Ht & F1 & F2 & Ho & He & out & B1 & B2).
    rewrite F2. unfold ret. cbn [app] in B2. rewrite B2.
    repeat split; [exact B1 | exact F1 |].
    destruct w1, w2; cbn in *; subst; reflexivity.
  - destruct H as (-> & Ht & F1 & F2 & Ho & He). repeat split; assumption.
Qed.

(** ** The names that reach the table *)

Lemma unlink_macro_valid (tbl tbl' : MacroTable) (nm : text) :
  unlink_macro tbl nm = Some tbl' ->
  valid_names tbl = true -> valid_names tbl' = true.
Proof.
  revert tbl'; induction tbl as [|m tbl IH]; intros tbl' H Hv; [discriminate|].
  cbn [valid_names forallb] in Hv. apply andb_true_iff in Hv as [Hm Hv].
  cbn [unlink_macro] in H. destruct (streq (name m) nm).
  - injection H as <-. exact Hv.
  - destruct (unlink_macro tbl nm) as [next'|]; [|discriminate].
    injection H as <-. cbn [valid_names forallb]. rewrite Hm.
    exact (IH next' eq_refl Hv).
Qed.

(** A goal on [preserves] is proved along the structure of the computation,
    keeping what each test has found. *)
Ltac preserves_cases lemmas :=
  repeat first
    [ solve [lemmas]
    | apply preserves_ret
    | apply preserves_gets
    | apply preserves_bind; [|intros]
    | match goal with
      | |- preserves _ _ (match ?x with _ => _ end) => destruct x eqn:?
      end ].

Section ValidNames2.
Import Submission2.
Variable fopen : text -> option text.

Lemma out_char_valid (c : ascii) (sk : sink) :
  preserves valid2 (fun _ => valid2) (out_char c sk).
Proof. intros w H. destruct sk; exact H. Qed.

Lemma fail_valid (A : Type) (d : diagnostic) :
  preserves valid2 (fun _ => valid2) (@fail A d).
Proof. intros w H. exact H. Qed.

Lemma define_macro2_valid (nm val : text) :
  valid_name nm = true ->
  preserves valid2 (fun _ => valid2) (define_macro nm val).
Proof.
  intros Hn w H. unfold define_macro, bind, gets.
  destruct (lookup_macro (table w) nm); [exact H|].
  unfold modify, valid2. cbn. rewrite Hn. exact H.
Qed.

Lemma undef_macro2_valid (nm : text) :
  preserves valid2 (fun _ => valid2) (undef_macro nm).
Proof.
  intros w H. unfold undef_macro, bind, gets.
  destruct (unlink_macro (table w) nm) as [tbl'|] eqn:E; [|exact H].
  exact (unlink_macro_valid _ _ _ E H).
Qed.

Lemma expand_text_step2_valid (rec : text -> sink -> run sink) :
  (forall input sk, preserves valid2 (fun _ => valid2) (rec input sk)) ->
  forall input sk,
    preserves valid2 (fun _ => valid2) (expand_text_step fopen rec input sk).
Proof.
  intros H input sk. unfold expand_text_step.
  preserves_cases
    ltac:(first [ apply H | apply out_char_valid | apply fail_valid
                | apply undef_macro2_valid
                | apply readArg2_keeps; apply fail_valid
                | apply read_included_file2_keeps; apply fail_valid
                | apply define_macro2_valid; apply negb_false_iff; assumption ]).
Qed.

Lemma expand_text_impl2_valid (fuel : nat) (input : text) (sk : sink) :
  preserves valid2 (fun _ => valid2) (expand_text_impl fopen fuel input sk).
Proof.
  revert input sk; induction fuel as [|fuel IH]; intros input sk.
  - apply preserves_diverge.
  - apply expand_text_step2_valid, IH.
Qed.
End ValidNames2.

Section ValidNames1.
Import Submission.
Variable fopen : text -> option text.

Lemma raise_error_valid (A : Type) (d : diagnostic) :
  preserves valid1 (fun _ => valid1) (@raise_error A d).
Proof.
  intros w H. unfold raise_error, bind, modify, exit.
  destruct (g_errorOccurred w); exact H.
Qed.

Lemma set_outputBuffer_valid (w : world) (b : text) :
  valid1 w -> valid1 (set_outputBuffer b w).
Proof. exact (fun H => H). Qed.

Lemma restore_valid (w0 w : world) :
  valid1 w0 -> valid1 w ->
  valid1 (mkWorld (table w) (g_errorOccurred w0) (g_outputBuffer w0) (stdout w) (stderr w)).
Proof. intros _ H. exact H. Qed.

Lemma define_macro1_valid (nm val : text) :
  valid_name nm = true ->
  preserves valid1 (fun _ => valid1) (define_macro nm val).
Proof.
  intros Hn w H. unfold define_macro.
  destruct (is_builtin nm); [exact H|]. unfold bind, gets.
  destruct (lookup_macro (table w) nm); [apply raise_error_valid, H|].
  unfold modify, valid1. cbn. rewrite Hn. exact H.
Qed.

Lemma undef_macro1_valid (nm : text) :
  preserves valid1 (fun _ => valid1) (undef_macro nm).
Proof.
  intros w H. unfold undef_macro, bind, gets.
  destruct (unlink_macro (table w) nm) as [tbl'|] eqn:E;
    [|apply raise_error_valid, H].
  exact (unlink_macro_valid _ _ _ E H).
Qed.

Lemma expand_text_step1_valid (rec : text -> run unit) :
  (forall input, preserves valid1 (fun _ => valid1) (rec input)) ->
  forall input, preserves valid1 (fun _ => valid1) (expand_text_step fopen rec input).
Proof.
  intros H input. unfold expand_text_step.
  preserves_cases
    ltac:(first [ apply H | apply raise_error_valid | apply undef_macro1_valid
                | apply append_char_keeps; exact set_outputBuffer_valid
                | apply append_string_keeps; exact set_outputBuffer_valid
                | apply readArg1_keeps; apply raise_error_valid
                | apply read_included_file1_keeps; apply raise_error_valid
                | apply expand_string_fully_keeps;
                  [exact set_outputBuffer_valid | exact restore_valid | apply H]
                | apply define_macro1_valid; apply negb_false_iff; assumption ]).
Qed.

Lemma expand_text_impl1_valid (fuel : nat) (input : text) :
  preserves valid1 (fun _ => valid1) (expand_text_impl fopen fuel input).
Proof.
  revert input; induction fuel as [|fuel IH]; intros input.
  - apply preserves_diverge.
  - apply expand_text_step1_valid, IH.
Qed.
End ValidNames1.

(** X22. Only names that can be called reach the table.  When every entry
    of the table has a name that is not empty and alphanumeric, this is so
    again whenever a run of the expander ends, by return or by exit, in
    both programs. *)
Theorem stored_names_are_words (fopen : text -> option text) (fuel : nat)
    (input : text) (w1 : Submission.world) (sk : Submission2.sink)
    (w2 : Submission2.world) :
  valid_names (Submission.table w1) = true ->
  valid_names (Submission2.table w2) = true ->
  match final_world (Submission.expand_text_impl fopen fuel input w1) with
  | Some w => valid_names (Submission.table w) = true
  | None => True
  end
  /\ match final_world (Submission2.expand_text_impl fopen fuel input sk w2) with
     | Some w => valid_names (Submission2.table w) = true
     | None => True
     end.
Proof.
  intros H1 H2. split.
  - pose proof (expand_text_impl1_valid fopen fuel input w1 H1) as H.
    destruct (Submission.expand_text_impl fopen fuel input w1); exact H.
  - pose proof (expand_text_impl2_valid fopen fuel input sk w2 H2) as H.
    destruct (Submission2.expand_text_impl fopen fuel input sk w2); exact H.
Qed.

Lemma stored_names_are_words_witness :
  match final_world (Submission.expand_text_impl (fun _ => None) 4
                       (str "\def{A1}{x}\undef{B}") Submission.initial) with
  | Some w => valid_names (Submission.table w) = true
  | None => True
  end
  /\ match final_world (Submission2.expand_text_impl (fun _ => None) 4
                          (str "\def{A1}{x}\undef{B}") Submission2.out_char_stdout
                          (Submission2.mkWorld [] [] [])) with
     | Some w => valid_names (Submission2.table w) = true
     | None => True
     end.
Proof.
  apply (stored_names_are_words (fun _ => None) 4 (str "\def{A1}{x}\undef{B}")
           Submission.initial Submission2.out_char_stdout
           (Submission2.mkWorld [] [] [])); reflexivity.
Defined.

(** ** From the command line to the output *)

(** X23. A whole run on input without macro calls.  When every named file
    can be opened and no backslash of the loaded text starts a macro name,
    both programs return, having printed the loaded text with its escapes
    resolved and nothing else: no diagnostic, no macro defined. *)
Theorem main_prints_literal_text (fopen : text -> option text) (fuel : nat)
    (argv : list text) (stdin : text) :
  first_missing fopen argv = None ->
  macro_free (loaded_input fopen argv stdin) = true ->
  List.length (loaded_input fopen argv stdin) < fuel ->
  Submission2.main fopen fuel argv stdin
  = Returns tt (Submission2.mkWorld init_macro_table
                  (resolve_escapes (loaded_input fopen argv stdin)) [])
  /\ Submission.main fopen fuel argv stdin
     = Returns tt (Submission.mkWorld init_macro_table false
                     (resolve_escapes (loaded_input fopen argv stdin))
                     (resolve_escapes (loaded_input fopen argv stdin)) []).
Proof.
  intros Hopen Hfree Hfuel. split.
  - unfold Submission2.main, Submission2.parse_and_expand.
    unfold bind at 1.
    assert (Hread : Submission2.read_all_input_and_remove_comments fopen argv stdin
                      (Submission2.mkWorld init_macro_table [] [])
                    = Returns (loaded_input fopen argv stdin)
                        (Submission2.mkWorld init_macro_table [] [])).
    { unfold Submission2.read_all_input_and_remove_comments, loaded_input.
      destruct argv as [|path paths]; [reflexivity|].
      unfold bind. rewrite read_files2_spec, Hopen. reflexivity. }
    rewrite Hread. unfold bind.
    destruct (literal_text2_bounded fopen _ _ fuel
                (Submission2.mkWorld init_macro_table [] []) (Nat.le_refl _) Hfree Hfuel)
      as [-> _].
    reflexivity.
  - unfold Submission.main, Submission.parse_and_expand.
    unfold bind at 1.
    assert (Hread : Submission.read_all_input_and_remove_comments fopen argv stdin
                      Submission.initial
                    = Returns (loaded_input fopen argv stdin) Submission.initial).
    { unfold Submission.read_all_input_and_remove_comments, loaded_input.
      destruct argv as [|path paths]; [reflexivity|].
      unfold bind. rewrite read_files1_spec, Hopen. reflexivity. }
    rewrite Hread.
    unfold Submission.expand_and_print, Submission.init_global_output.
    unfold bind at 1. unfold modify at 1. unfold bind at 1.
    rewrite (literal_text1_bounded fopen _ _ fuel
               (Submission.set_outputBuffer [] Submission.initial)
               (Nat.le_refl _) Hfree Hfuel eq_refl).
    reflexivity.
Qed.

Lemma main_prints_literal_text_witness :
  Submission.main
    (fun path => if streq path (str "f") then Some (str "a\%b % note") else None)
    12 [str "f"] []
  = Returns tt (Submission.mkWorld init_macro_table false (str "a%b ") (str "a%b ") []).
Proof.
  pose proof (main_prints_literal_text
                (fun path => if streq path (str "f") then Some (str "a\%b % note") else None)
                12 [str "f"] [] eq_refl eq_refl) as H.
  destruct H as [_ H]; [vm_compute; lia|]. exact H.
Defined.

(** ** Defining a macro and calling it *)







(** * The second program of [submission/proj1.c] *)

Lemma readArg_b_balanced (a rest : text) (w : Submission_b.world) :
  balanced a = true ->
  Submission_b.readArg ("{" :: a ++ "}" :: rest) w = Returns (Some a, rest) w.
Proof.
  intro H. apply balanced_spec in H as (Hn & Hd & He).
  unfold Submission_b.readArg.
  change 1%Z with (brace_depth []). change false with (escaping false []) at 1.
  rewrite readArg_loop_closed by assumption.
  reflexivity.
Qed.

Lemma readArg_b_none (p : text) (w : Submission_b.world) :
  starts_with_brace p = false ->
  Submission_b.readArg p w = Returns (None, p) w.
Proof.
  intro H. unfold Submission_b.readArg.
  destruct (no_brace_cases _ H) as [-> | (c & p' & -> & Hc)]; [reflexivity|].
  destruct c as [[] [] [] [] [] [] [] []]; try reflexivity. discriminate Hc.
Qed.

Lemma space_no_brace (c : ascii) : isspace c = true -> (c =? "{") = false.
Proof.
  intro H. destruct (c =? "{") eqn:E; [|reflexivity].
  apply Ascii.eqb_eq in E. subst c. discriminate H.
Qed.

(** X25. [readArg] of the second program reads at the cursor only.  A
    balanced argument in braces is returned with the cursor after its
    closing brace; when white space comes before the opening brace the
    function returns [NULL] and does not move, where [readArg] of
    [submission2] skips the white space and returns the argument. *)
Theorem readArg_b_reads_at_cursor (gap a rest : text)
    (wb : Submission_b.world) (w2 : Submission2.world) :
  forallb isspace gap = true -> balanced a = true ->
  Submission_b.readArg (gap ++ "{" :: a ++ "}" :: rest) wb
  = match gap with
    | [] => Returns (Some a, rest) wb
    | _ :: _ => Returns (None, gap ++ "{" :: a ++ "}" :: rest) wb
    end
  /\ Submission2.readArg (gap ++ "{" :: a ++ "}" :: rest) w2
     = Returns (Some a, rest) w2.
Proof.
  intros Hg Ha. split.
  - destruct gap as [|c gap]; [apply readArg_b_balanced, Ha|].
    apply readArg_b_none. cbn [forallb] in Hg. apply andb_true_iff in Hg as [Hc _].
    exact (space_no_brace c Hc).
  - rewrite readArg2_gap by exact Hg. apply readArg2_balanced, Ha.
Qed.

Lemma readArg_b_reads_at_cursor_witness :
  Submission_b.readArg (str " {a\}b}c") (Submission_b.mkWorld [] [] [])
  = Returns (None, str " {a\}b}c") (Submission_b.mkWorld [] [] [])
  /\ Submission2.readArg (str " {a\}b}c") (Submission2.mkWorld [] [] [])
     = Returns (Some (str "a\}b"), str "c") (Submission2.mkWorld [] [] []).
Proof.
  apply (readArg_b_reads_at_cursor [" "] (str "a\}b") (str "c")); reflexivity.
Defined.

Lemma define_macro_b_spec (nm val : text) (w : Submission_b.world) :
  Submission_b.define_macro nm val w =
    if bound (Submission_b.table w) nm
    then Exits EXIT_FAILURE
           (Submission_b.mkWorld (Submission_b.table w) (Submission_b.stdout w)
              (Submission_b.stderr w ++ [Submission_b.shared (MacroAlreadyDefined nm)]))
    else Returns tt
           (Submission_b.mkWorld (mkMacro nm val :: Submission_b.table w)
              (Submission_b.stdout w) (Submission_b.stderr w)).
Proof.
  unfold Submission_b.define_macro, bind, gets. rewrite bound_lookup.
  destruct (lookup_macro (Submission_b.table w) nm); reflexivity.
Qed.

Ltac enter_call_b fopen fuel :=
  change (Submission_b.expand_text_impl fopen (S fuel))
    with (Submission_b.expand_text_step fopen (Submission_b.expand_text_impl fopen fuel));
  unfold Submission_b.expand_text_step;
  cbn [str list_ascii_of_string app];
  lazy -[app Submission_b.readArg Submission_b.expand_text_impl bind gets
         all_alnum valid_name bound lookup_macro
         Submission_b.define_macro Submission_b.undef_macro Submission_b.fail
         Submission_b.read_included_file Submission_b.table].

Ltac read_balanced_b :=
  unfold bind at 1; rewrite readArg_b_balanced by assumption.

Section SecondProgram.
Variable fopen : text -> option text.

Lemma def_b_defines (fuel : nat) (n v rest : text)
    (sk : Submission_b.sink) (w : Submission_b.world) :
  balanced n = true -> balanced v = true ->
  Submission_b.expand_text_impl fopen (S fuel)
    (str "\def{" ++ n ++ str "}{" ++ v ++ "}" :: rest) sk w
  = if valid_name n
    then (Submission_b.define_macro n v ;;
          Submission_b.expand_text_impl fopen fuel rest sk)%run w
    else Submission_b.fail (Submission_b.shared InvalidNameInDef) w.
Proof.
  intros Hn Hv. enter_call_b fopen fuel.
  do 2 read_balanced_b.
  destruct n as [|a n']; [reflexivity|].
  unfold valid_name. destruct (all_alnum (a :: n')); reflexivity.
Qed.

Lemma def_b_without_value (fuel : nat) (n rest : text)
    (sk : Submission_b.sink) (w : Submission_b.world) :
  balanced n = true -> starts_with_brace rest = false ->
  Submission_b.expand_text_impl fopen (S fuel) (str "\def{" ++ n ++ "}" :: rest) sk w
  = Submission_b.fail
      (match n with
       | [] => Submission_b.shared InvalidNameInDef
       | _ :: _ => Submission_b.InvalidValueInDef
       end) w.
Proof.
  intros Hn Hr. enter_call_b fopen fuel.
  read_balanced_b.
  unfold bind at 1. rewrite readArg_b_none by exact Hr.
  destruct n; reflexivity.
Qed.

Lemma include_b_pastes (fuel : nat) (path rest : text)
    (sk : Submission_b.sink) (w : Submission_b.world) :
  balanced path = true ->
  Submission_b.expand_text_impl fopen (S fuel)
    (str "\include{" ++ path ++ "}" :: rest) sk w
  = match fopen path with
    | Some bytes =>
        Submission_b.expand_text_impl fopen fuel
          (c_str (remove_comments (Copying NUL) bytes) ++ rest) sk w
    | None => Submission_b.fail (Submission_b.shared (CannotOpenFile path)) w
    end.
Proof.
  intros Hp. enter_call_b fopen fuel. read_balanced_b.
  unfold bind at 1, Submission_b.read_included_file.
  destruct (fopen path); reflexivity.
Qed.

Lemma expandafter_b_pastes (fuel : nat) (before after rest : text)
    (sk : Submission_b.sink) (w : Submission_b.world) :
  balanced before = true -> balanced after = true ->
  Submission_b.expand_text_impl fopen (S fuel)
    (str "\expandafter{" ++ before ++ str "}{" ++ after ++ "}" :: rest) sk w
  = (S <- Submission_b.expand_text_into_string fopen fuel after ;;
     Submission_b.expand_text_impl fopen fuel ((before ++ S) ++ rest) sk)%run w.
Proof.
  intros Hb Ha. enter_call_b fopen fuel.
  do 2 read_balanced_b.
  unfold Submission_b.expand_text_into_string, bind.
  destruct (Submission_b.expand_text_impl fopen fuel after _ w); reflexivity.
Qed.
End SecondProgram.

(** X26. [\def] in the second program.  With balanced [NAME] and [VALUE]
    it behaves as in [submission2]: an empty or non-alphanumeric [NAME]
    exits with "invalid macro name in \def", a bound one with "already
    defined", otherwise the name is bound to the unexpanded value.  But the
    value is required: when no opening brace follows [NAME]'s closing brace
    directly, the run exits with "invalid value in \def" (with "invalid
    macro name" when [NAME] is empty) and defines nothing. *)
Theorem def_b_requires_value (fopen : text -> option text) (fuel : nat)
    (n v rest : text) (sk : Submission_b.sink) (w : Submission_b.world) :
  balanced n = true -> balanced v = true ->
  Submission_b.expand_text_impl fopen (S fuel)
    (str "\def{" ++ n ++ str "}{" ++ v ++ "}" :: rest) sk w
  = (if valid_name n
     then if bound (Submission_b.table w) n
          then Exits EXIT_FAILURE
                 (Submission_b.mkWorld (Submission_b.table w) (Submission_b.stdout w)
                    (Submission_b.stderr w
                       ++ [Submission_b.shared (MacroAlreadyDefined n)]))
          else Submission_b.expand_text_impl fopen fuel rest sk
                 (Submission_b.mkWorld (mkMacro n v :: Submission_b.table w)
                    (Submission_b.stdout w) (Submission_b.stderr w))
     else Exits EXIT_FAILURE
            (Submission_b.mkWorld (Submission_b.table w) (Submission_b.stdout w)
               (Submission_b.stderr w ++ [Submission_b.shared InvalidNameInDef])))
  /\ (starts_with_brace rest = false ->
      Submission_b.expand_text_impl fopen (S fuel) (str "\def{" ++ n ++ "}" :: rest) sk w
      = Exits EXIT_FAILURE
          (Submission_b.mkWorld (Submission_b.table w) (Submission_b.stdout w)
             (Submission_b.stderr w
                ++ [match n with
                    | [] => Submission_b.shared InvalidNameInDef
                    | _ :: _ => Submission_b.InvalidValueInDef
                    end]))).
Proof.
  intros Hn Hv. split.
  - rewrite def_b_defines by assumption.
    destruct (valid_name n); [|reflexivity].
    unfold bind. rewrite define_macro_b_spec.
    destruct (bound (Submission_b.table w) n); reflexivity.
  - intro Hr. rewrite def_b_without_value by assumption. reflexivity.
Qed.

Lemma def_b_requires_value_witness :
  Submission_b.expand_text_impl (fun _ => None) 3 (str "\def{A} {x}")
    Submission_b.out_char_stdout (Submission_b.mkWorld [] [] [])
  = Exits EXIT_FAILURE (Submission_b.mkWorld [] [] [Submission_b.InvalidValueInDef]).
Proof.
  pose proof (def_b_requires_value (fun _ => None) 2 (str "A") [] (str " {x}")
                Submission_b.out_char_stdout (Submission_b.mkWorld [] [] [])
                eq_refl eq_refl) as [_ H].
  exact (H eq_refl).
Defined.

(** X27. [\include] in the second program joins the file to the rest of
    the input before it expands anything: [\include{PATH}] followed by
    [rest] goes on as the expansion of the file's text (comments removed,
    cut at the first NUL) followed by [rest], in one piece, so a macro call
    may begin in the file and take its argument from the text after the
    [\include].  When the file cannot be opened the run exits with "Cannot
    open file". *)
Theorem include_b_joins_rest (fopen : text -> option text) (fuel : nat)
    (path rest : text) (sk : Submission_b.sink) (w : Submission_b.world) :
  balanced path = true ->
  Submission_b.expand_text_impl fopen (S fuel)
    (str "\include{" ++ path ++ "}" :: rest) sk w
  = match fopen path with
    | Some bytes =>
        Submission_b.expand_text_impl fopen fuel
          (c_str (remove_comments (Copying NUL) bytes) ++ rest) sk w
    | None =>
        Exits EXIT_FAILURE
          (Submission_b.mkWorld (Submission_b.table w) (Submission_b.stdout w)
             (Submission_b.stderr w ++ [Submission_b.shared (CannotOpenFile path)]))
    end.
Proof.
  intro Hp. rewrite include_b_pastes by exact Hp.
  destruct (fopen path); reflexivity.
Qed.

Lemma include_b_joins_rest_witness :
  Submission_b.expand_text_impl
    (fun path => if streq path (str "f") then Some (str "<\A") else None)
    9 (str "\include{f}{x}>") Submission_b.out_char_stdout
    (Submission_b.mkWorld [mkMacro (str "A") (str "[#]")] [] [])
  = Returns Submission_b.out_char_stdout
      (Submission_b.mkWorld [mkMacro (str "A") (str "[#]")] (str "<[x]>") []).
Proof.
  pose proof (include_b_joins_rest
                (fun path => if streq path (str "f") then Some (str "<\A") else None)
                8 (str "f") (str "{x}>") Submission_b.out_char_stdout
                (Submission_b.mkWorld [mkMacro (str "A") (str "[#]")] [] [])
                eq_refl) as H.
  etransitivity; [exact H|]. vm_compute. reflexivity.
Defined.

(** X28. [\expandafter] in the second program: [AFTER] is expanded alone
    into a buffer, and then the unexpanded [BEFORE], that expansion and the
    rest of the input are joined and expanded in one piece. *)
Theorem expandafter_b_joins_rest (fopen : text -> option text) (fuel : nat)
    (before after rest : text) (sk : Submission_b.sink) (w : Submission_b.world) :
  balanced before = true -> balanced after = true ->
  Submission_b.expand_text_impl fopen (S fuel)
    (str "\expandafter{" ++ before ++ str "}{" ++ after ++ "}" :: rest) sk w
  = (S <- Submission_b.expand_text_into_string fopen fuel after ;;
     Submission_b.expand_text_impl fopen fuel (before ++ S ++ rest) sk)%run w.
Proof.
  intros Hb Ha. rewrite expandafter_b_pastes by assumption.
  unfold bind. destruct (Submission_b.expand_text_into_string fopen fuel after w);
    try reflexivity.
  rewrite <- app_assoc. reflexivity.
Qed.

Lemma expandafter_b_joins_rest_witness :
  Submission_b.expand_text_impl (fun _ => None) 12
    (str "\expandafter{\A}{\def{A}{[#]}}{x}") Submission_b.out_char_stdout
    (Submission_b.mkWorld [] [] [])
  = Returns Submission_b.out_char_stdout
      (Submission_b.mkWorld [mkMacro (str "A") (str "[#]")] (str "[x]") []).
Proof.
  pose proof (expandafter_b_joins_rest (fun _ => None) 11 (str "\A") (str "\def{A}{[#]}")
                (str "{x}") Submission_b.out_char_stdout
                (Submission_b.mkWorld [] [] []) eq_refl eq_refl) as H.
  etransitivity; [exact H|]. vm_compute. reflexivity.
Defined.

Lemma instantiate_b_app_bounded (n : nat) (a b arg : text) :
  List.length a <= n -> escaping false a = false ->
  Submission_b.instantiate (a ++ b) arg
  = Submission_b.instantiate a arg ++ Submission_b.instantiate b arg.
Proof.
  revert a; induction n as [|n IH]; intros a Hlen He.
  - destruct a; [reflexivity | cbn in Hlen; lia].
  - destruct a as [|c a]; [reflexivity|].
    cbn [List.length] in Hlen. cbn [escaping] in He.
    cbn [app Submission_b.instantiate]. destruct (c =? "\") eqn:Ec.
    + destruct a as [|c1 a]; [discriminate He|].
      cbn [escaping] in He. cbn [app List.length] in *.
      rewrite (IH a) by (lia || exact He). reflexivity.
    + rewrite (IH a) by (lia || exact He).
      destruct (c =? "#"); [rewrite app_assoc|]; reflexivity.
Qed.

Lemma instantiate_b_bounded (n : nat) (v : text) :
  List.length v <= n -> Submission_b.instantiate v ["#"] = v.
Proof.
  revert v; induction n as [|n IH]; intros v Hlen.
  - destruct v; [reflexivity | cbn in Hlen; lia].
  - destruct v as [|c v]; [reflexivity|].
    cbn [List.length] in Hlen. cbn [Submission_b.instantiate].
    destruct (c =? "\") eqn:Ec.
    + apply Ascii.eqb_eq in Ec. subst c.
      destruct v as [|c1 v]; [reflexivity|].
      cbn [List.length] in Hlen. rewrite (IH v) by lia. reflexivity.
    + destruct (c =? "#") eqn:Eh.
      * apply Ascii.eqb_eq in Eh. subst c. cbn [app]. rewrite (IH v) by lia. reflexivity.
      * rewrite (IH v) by lia. reflexivity.
Qed.

(** X29. Instantiation in the second program only substitutes.  When the
    first piece [a] of a macro value does not end in a backslash that
    escapes what follows, the instance of [a] followed by [b] is the
    instance of [a] followed by that of [b]; an unescaped [#] between them
    becomes the argument, and a backslash with the character after it is
    kept as it is, [\#] included (the other two programs drop the backslash
    before [\ { } # %] here).  Hence the argument [#] gives back the
    value. *)
Theorem instantiate_b_only_substitutes (a b arg : text) (c : ascii) :
  escaping false a = false ->
  Submission_b.instantiate (a ++ b) arg
  = Submission_b.instantiate a arg ++ Submission_b.instantiate b arg
  /\ Submission_b.instantiate (a ++ "#" :: b) arg
     = Submission_b.instantiate a arg ++ arg ++ Submission_b.instantiate b arg
  /\ Submission_b.instantiate (a ++ "\" :: c :: b) arg
     = Submission_b.instantiate a arg ++ "\" :: c :: Submission_b.instantiate b arg
  /\ Submission_b.instantiate (a ++ b) ["#"] = a ++ b.
Proof.
  intro He. repeat split.
  - apply (instantiate_b_app_bounded (List.length a)); [lia | exact He].
  - rewrite (instantiate_b_app_bounded (List.length a)) by (lia || exact He).
    reflexivity.
  - rewrite (instantiate_b_app_bounded (List.length a)) by (lia || exact He).
    reflexivity.
  - apply (instantiate_b_bounded (List.length (a ++ b))). lia.
Qed.

Lemma instantiate_b_only_substitutes_witness :
  Submission_b.instantiate (str "a\\" ++ "\" :: "#" :: str "b#") (str "xy")
  = Submission_b.instantiate (str "a\\") (str "xy")
    ++ "\" :: "#" :: Submission_b.instantiate (str "b#") (str "xy").
Proof.
  apply (instantiate_b_only_substitutes (str "a\\") (str "b#") (str "xy") "#").
  reflexivity.
Defined.
